(** * simple_dubins_path: a curve-then-line planner under a turning radius

    A shallow embedding of [coverage_binn/src/simple_dubins_path.cpp] and
    the properties its specification states of it.

    The program computes on C++ [double]s.  Its functions are written
    once, over an interface [Double] of the arithmetic the code uses and
    an interface [Libm] of the <cmath> functions it calls.

    - What the code decides by its own comparisons, and the order in
      which it does things, is proved for every reading of the two
      interfaces.
    - At [R], ideal real arithmetic with [PI] for [M_PI], the geometry of
      the path and the ends of the loops are proved.
    - At [float], the kernel's binary64, with the values of glibc for the
      library at the arguments a run calls it with, runs are evaluated;
      they show where the doubles part from the reals.

    The two [for] loops of [generatePath] need not end (a zero spacing
    never reaches the stop angle), so they carry fuel, and a property
    that says the code returns is proved as: fuel enough gives the
    result. *)

From Stdlib Require Import String Reals Lra Lia ZArith Bool List.
From Stdlib Require PrimFloat Uint63 FloatOps SpecFloat.
Import ListNotations.

(** ** The arithmetic of [double] *)

Class Double (D : Type) : Type := {
  dconst : Z -> D;            (* an int literal or value, as a double *)
  dadd : D -> D -> D;
  dsub : D -> D -> D;
  dmul : D -> D -> D;
  ddiv : D -> D -> D;
  dneg : D -> D;
  dabs : D -> D;              (* std::abs *)
  dsqrt : D -> D;             (* std::sqrt *)
  dlt : D -> D -> bool;       (* operator<; [a > b] is [dlt b a] *)
  epsilon : D                 (* std::numeric_limits<double>::epsilon() *)
}.

(** The functions of <cmath> and the constant [M_PI]. *)
Class Libm (D : Type) : Type := {
  dsin : D -> D;
  dcos : D -> D;
  datan : D -> D;
  datan2 : D -> D -> D;
  dpow : D -> Z -> D;         (* std::pow(double, int) *)
  M_PI : D
}.

Declare Scope double_scope.
Delimit Scope double_scope with D.
Infix "+" := dadd : double_scope.
Infix "-" := dsub : double_scope.
Infix "*" := dmul : double_scope.
Infix "/" := ddiv : double_scope.
Notation "- x" := (dneg x) : double_scope.
Notation "x <? y" := (dlt x y) : double_scope.
Notation "x >? y" := (dlt y x) : double_scope.
Notation "# z" := (dconst z%Z) (at level 1, format "# z") : double_scope.

(** ** ROS messages and the node's surroundings *)

(** [ros::Time]: seconds and nanoseconds. *)
Record Time : Type := { sec : N; nsec : N }.

(** [std_msgs/Header]. *)
Record Header : Type := { seq : N; stamp : Time; frame_id : string }.

Set Implicit Arguments.

Section Messages.
Variable D : Type.

(** [geometry_msgs/Point], [Quaternion], [Pose], [PoseStamped]. *)
Record Point : Type := { x : D; y : D; z : D }.
Record Quaternion : Type := { qx : D; qy : D; qz : D; qw : D }.
Record Pose : Type := { position : Point; orientation : Quaternion }.
Record PoseStamped : Type := { header : Header; pose : Pose }.

(** [nav_msgs/Path]. *)
Record Path : Type := { path_header : Header; poses : list PoseStamped }.

(** The planner object: the two parameters read at construction.  (The
    publisher [m_pathPub] is not used by the functions below.) *)
Record SimpleDubinsPath : Type := {
  m_turningRadius : D;
  m_pathResolution : D
}.
End Messages.

Arguments Build_Point {D}.
Arguments Build_Quaternion {D}.
Arguments Build_Pose {D}.
Arguments Build_PoseStamped {D}.
Arguments Build_Path {D}.
Arguments Build_SimpleDubinsPath {D}.

Unset Implicit Arguments.

(** [tf::getYaw], from the tf library. *)
Class Tf (D : Type) : Type := { getYaw : Quaternion D -> D }.

(** rosconsole severities used by the file. *)
Inductive Level : Type := WARN | ERROR.

(** What the code reads and writes outside its arguments: the clock behind
    [ros::Time::now()] ([wall k] is what the k-th reading returns) and the
    lines given to [ROS_WARN] / [ROS_ERROR]. *)
Record World : Type := {
  wall : nat -> Time;
  ticks : nat;
  rosout : list (Level * string)
}.

Definition now (w : World) : Time * World :=
  (wall w (ticks w),
   {| wall := wall w; ticks := S (ticks w); rosout := rosout w |}).

Definition ros_log (l : Level) (msg : string) (w : World) : World :=
  {| wall := wall w; ticks := ticks w; rosout := rosout w ++ [(l, msg)] |}.

(** Modelled from the spec: the enumeration [Dir] is declared in
    simple_dubins_path.h, which is not among the sources.  The spec gives
    it two values, Left carrying the sign +1 and Right the sign -1, and the
    code multiplies by it ([dir * angleIncrement]). *)
Inductive Dir : Type := Left | Right.

Definition Dir_to_int (d : Dir) : Z :=
  match d with Left => 1 | Right => -1 end.

Definition Dir_eqb (d e : Dir) : bool :=
  match d, e with
  | Left, Left | Right, Right => true
  | _, _ => false
  end.

(** ** The program *)

Section Program.
Context {D : Type} {dbl : Double D} {libm : Libm D} {tf : Tf D}.
Local Open Scope double_scope.

Variable self : SimpleDubinsPath D.
Local Abbreviation m_R := (m_turningRadius self).
Local Abbreviation m_res := (m_pathResolution self).

(** [std::pow(v, 2)]: a call into the library, not a product. *)
Definition pow2 (v : D) : D := dpow v 2.

Definition turningDirection (x_q y_q theta_q x_n y_n : D) : Dir :=
  let turningDirection := Right in
  if - (x_n - x_q) * dsin theta_q + (y_n - y_q) * dcos theta_q >? #0
  then Left
  else turningDirection.

(** The out-parameters [x_cr], [y_cr] are the result. *)
Definition turningCenter (x_q y_q theta_q x_n y_n : D) : D * D :=
  let x_cr1 := x_q + dsin theta_q * m_R in
  let y_cr1 := y_q - dcos theta_q * m_R in
  let x_cr2 := x_q - dsin theta_q * m_R in
  let y_cr2 := y_q + dcos theta_q * m_R in
  if pow2 (x_n - x_cr1) + pow2 (y_n - y_cr1)
     <? pow2 (x_n - x_cr2) + pow2 (y_n - y_cr2)
  then (x_cr1, y_cr1)
  else (x_cr2, y_cr2).

(** The out-parameters [beta1], [beta2] are the result. *)
Definition tangentLine (x_n y_n x_cr y_cr : D) : D * D :=
  let a := x_cr - x_n in
  let b := y_n - y_cr in
  let '(beta1, beta2) :=
    if dabs (b + m_R) <? epsilon
    then (#2 * datan ((a - dsqrt (a * a + b * b - m_R * m_R)) / (b - m_R)),
          #2 * datan ((a + dsqrt (a * a + b * b - m_R * m_R)) / (b - m_R)))
    else (#2 * datan ((a + dsqrt (a * a + b * b - m_R * m_R)) / (b + m_R)),
          #2 * datan ((a - dsqrt (a * a + b * b - m_R * m_R)) / (b + m_R))) in
  (* Force beta in [0, pi) *)
  let beta1 := if beta1 <? #0 then beta1 + M_PI else beta1 in
  let beta2 := if beta2 <? #0 then beta2 + M_PI else beta2 in
  (beta1, beta2).

(** The out-parameters [x_lc], [y_lc] are the result.  The local [angle]
    of the source is assigned and never read. *)
Definition tangentPoint (x_q y_q x_n y_n x_cr y_cr beta1 beta2 : D)
    (dir : Dir) : D * D :=
  let x2 := x_n - x_cr in
  let y2 := y_n - y_cr in
  (* Tangent point 1 *)
  let x1 := (x_n + dcos beta1) - x_cr in
  let y1 := (y_n + dsin beta1) - y_cr in
  let dx := x2 - x1 in
  let dy := y2 - y1 in
  let dr := dsqrt (dx * dx + dy * dy) in
  let D_ := x1 * y2 - x2 * y1 in
  let x_lc1 := D_ * dy / (dr * dr) in
  let y_lc1 := - D_ * dx / (dr * dr) in
  let x_lc1 := x_lc1 + x_cr in
  let y_lc1 := y_lc1 + y_cr in
  (* Tangent point 2 *)
  let x1 := (x_n + dcos beta2) - x_cr in
  let y1 := (y_n + dsin beta2) - y_cr in
  let dx := x2 - x1 in
  let dy := y2 - y1 in
  let dr := dsqrt (dx * dx + dy * dy) in
  let D_ := x1 * y2 - x2 * y1 in
  let x_lc2 := D_ * dy / (dr * dr) in
  let y_lc2 := - D_ * dx / (dr * dr) in
  let x_lc2 := x_lc2 + x_cr in
  let y_lc2 := y_lc2 + y_cr in
  (* Vectors from the center to the start and tangent points *)
  let v_start := (x_q - x_cr, y_q - y_cr) in
  let v_lc1 := (x_lc1 - x_cr, y_lc1 - y_cr) in
  let v_lc2 := (x_lc2 - x_cr, y_lc2 - y_cr) in
  (* Angle difference to tangent point 1 *)
  let x1 := fst v_start in
  let y1 := snd v_start in
  let x2 := fst v_lc1 in
  let y2 := snd v_lc1 in
  let dot := x1 * x2 + y1 * y2 in
  let det := x1 * y2 - y1 * x2 in
  let angle1 := datan2 det dot in
  let angle1 := if angle1 <? #0 then angle1 + #2 * M_PI else angle1 in
  (* Angle difference to tangent point 2 *)
  let x2 := fst v_lc2 in
  let y2 := snd v_lc2 in
  let dot := x1 * x2 + y1 * y2 in
  let det := x1 * y2 - y1 * x2 in
  let angle2 := datan2 det dot in
  let angle2 := if angle2 <? #0 then angle2 + #2 * M_PI else angle2 in
  (* First tangent point along the direction of rotation *)
  if Dir_eqb dir Left then
    if angle1 <? angle2 then (x_lc1, y_lc1) else (x_lc2, y_lc2)
  else if Dir_eqb dir Right then
    if angle1 >? angle2 then (x_lc1, y_lc1) else (x_lc2, y_lc2)
  else (x_lc2, y_lc2).

(** [for (double i = init; cond(i); i = next(i)) body(i);] on a state
    [St].  A C++ loop need not end: [fuel] bounds the number of tests of
    [cond], and [None] is a run cut short. *)
Fixpoint for_double {St : Type} (fuel : nat) (cond : D -> bool)
    (next : D -> D) (body : D -> St -> St) (i : D) (st : St) : option St :=
  match fuel with
  | O => None
  | S fuel' =>
      if cond i then for_double fuel' cond next body (next i) (body i st)
      else Some st
  end.

(** A default-constructed [PoseStamped] whose stamp, frame and planar
    position have been assigned. *)
Definition stamped_point (t : Time) (px py : D) : PoseStamped D :=
  {| header := {| seq := 0; stamp := t; frame_id := "map" |};
     pose := {| position := {| x := px; y := py; z := #0 |};
                orientation :=
                  {| qx := #0; qy := #0; qz := #0; qw := #0 |} |} |}.

(** [path.poses.push_back(p)]. *)
Definition push_back (p : PoseStamped D) (path : Path D) : Path D :=
  {| path_header := path_header path; poses := poses path ++ [p] |}.

(** The body shared by the two loops of [generatePath]: read the clock,
    build the point, append it. *)
Definition emit (px py : D) (st : Path D * World) : Path D * World :=
  let '(path, w) := st in
  let '(t, w) := now w in
  (push_back (stamped_point t px py) path, w).

(** Lines 190-194: the stop angle, moved by a full turn where the sweep
    from [startAngle] would otherwise go against [dir]. *)
Definition arcStop (dir : Dir) (startAngle stopAngle : D) : D :=
  if Dir_eqb dir Left && (stopAngle <? startAngle)
  then stopAngle + #2 * M_PI
  else if Dir_eqb dir Right && (stopAngle >? startAngle)
  then stopAngle - #2 * M_PI
  else stopAngle.

(** Lines 185-194: the circle segment to follow. *)
Definition arcAngles (x_q y_q x_cr y_cr x_lc y_lc : D) (dir : Dir) : D * D :=
  let startAngle := datan2 (y_q - y_cr) (x_q - x_cr) in
  let startAngle :=
    if startAngle <? #0 then startAngle + #2 * M_PI else startAngle in
  let stopAngle := datan2 (y_lc - y_cr) (x_lc - x_cr) in
  let stopAngle :=
    if stopAngle <? #0 then stopAngle + #2 * M_PI else stopAngle in
  (startAngle, arcStop dir startAngle stopAngle).

(** Lines 196-206: points on the circle segment. *)
Definition arcLoop (fuel : nat) (x_cr y_cr startAngle stopAngle : D)
    (dir : Dir) (st : Path D * World) : option (Path D * World) :=
  let angleIncrement := m_res / m_R in
  for_double fuel
    (fun i => dabs (i - stopAngle) >? #2 * angleIncrement)
    (fun i => i + #(Dir_to_int dir) * angleIncrement)
    (fun i => emit (x_cr + dcos i * m_R) (y_cr + dsin i * m_R))
    startAngle st.

(** Lines 208-224: points on the straight segment. *)
Definition lineLoop (fuel : nat) (x_n y_n x_lc y_lc : D)
    (st : Path D * World) : option (Path D * World) :=
  let dx := x_n - x_lc in
  let dy := y_n - y_lc in
  let dx_norm := dx / dsqrt (dx * dx + dy * dy) in
  let dy_norm := dy / dsqrt (dx * dx + dy * dy) in
  for_double fuel
    (fun i => dabs (i * m_res * dx_norm - dx) >? #2 * m_res)
    (fun i => i + #1)
    (fun i => emit (x_lc + i * m_res * dx_norm) (y_lc + i * m_res * dy_norm))
    #0 st.

(** [path] is an in-out argument: the result carries its new value. *)
Definition generatePath (fuel : nat)
    (x_q y_q x_n y_n x_cr y_cr x_lc y_lc : D) (dir : Dir)
    (goal : PoseStamped D) (path : Path D) (w : World)
    : option (Path D * World) :=
  let '(t, w) := now w in
  let path :=
    {| path_header := {| seq := seq (path_header path); stamp := t;
                         frame_id := "map" |};
       poses := [] |} in
  let '(startAngle, stopAngle) :=
    arcAngles x_q y_q x_cr y_cr x_lc y_lc dir in
  match arcLoop fuel x_cr y_cr startAngle stopAngle dir (path, w) with
  | None => None
  | Some st =>
      match lineLoop fuel x_n y_n x_lc y_lc st with
      | None => None
      | Some (path, w) => Some (push_back goal path, w)
      end
  end.

(** The result is the returned [bool] with the new value of [path]. *)
Definition makePath (fuel : nat) (start goal : PoseStamped D)
    (path : Path D) (w : World) : option (bool * Path D * World) :=
  (* Initial configuration *)
  let x_q := x (position (pose start)) in
  let y_q := y (position (pose start)) in
  let theta_q := getYaw (orientation (pose start)) in
  (* Target position *)
  let x_n := x (position (pose goal)) in
  let y_n := y (position (pose goal)) in
  let dir := turningDirection x_q y_q theta_q x_n y_n in
  let '(x_cr, y_cr) := turningCenter x_q y_q theta_q x_n y_n in
  (* Perform checks *)
  let w :=
    if m_R >? dsqrt (pow2 (x_q - x_n) + pow2 (y_q - y_n)) / #2
    then ros_log WARN
           "The desired turning radius is larger than half the length between the waypoint."
           w
    else w in
  if dsqrt (pow2 (x_n - x_cr) + pow2 (y_n - y_cr)) <? m_R
  then Some (false, path,
             ros_log ERROR "Target not reachable with simple Dubin's path." w)
  else
    let '(beta1, beta2) := tangentLine x_n y_n x_cr y_cr in
    let '(x_lc, y_lc) :=
      tangentPoint x_q y_q x_n y_n x_cr y_cr beta1 beta2 dir in
    match generatePath fuel x_q y_q x_n y_n x_cr y_cr x_lc y_lc dir
            goal path w with
    | None => None
    | Some (path, w) => Some (true, path, w)
    end.

(** [yawTarget] is an in-out argument: the result carries its new
    value. *)
Definition getTargetHeading (x_q y_q theta_q x_n y_n yawTarget : D)
    : bool * D :=
  let dir := turningDirection x_q y_q theta_q x_n y_n in
  let '(x_cr, y_cr) := turningCenter x_q y_q theta_q x_n y_n in
  (* Is target reachable? *)
  if dsqrt (pow2 (x_n - x_cr) + pow2 (y_n - y_cr)) <? m_R
  then (false, yawTarget)
  else
    let '(beta1, beta2) := tangentLine x_n y_n x_cr y_cr in
    let '(x_lc, y_lc) :=
      tangentPoint x_q y_q x_n y_n x_cr y_cr beta1 beta2 dir in
    (true, datan2 (y_n - y_lc) (x_n - x_lc)).
End Program.

(** ** The two readings of [double] *)

Definition Rltb (a b : R) : bool := if Rlt_dec a b then true else false.

#[export] Instance R_Double : Double R := {|
  dconst := IZR;
  dadd := Rplus;
  dsub := Rminus;
  dmul := Rmult;
  ddiv := Rdiv;
  dneg := Ropp;
  dabs := Rabs;
  dsqrt := sqrt;
  dlt := Rltb;
  epsilon := (/ 4503599627370496)%R    (* 2^-52 *)
|}.

(** [atan2(v, u)]: the angle of the point (u, v), in (-PI, PI]. *)
Definition Ratan2 (v u : R) : R :=
  if Rlt_dec 0 u then atan (v / u)
  else if Rlt_dec u 0 then
    if Rlt_dec v 0 then atan (v / u) - PI else atan (v / u) + PI
  else if Rlt_dec 0 v then PI / 2
  else if Rlt_dec v 0 then - (PI / 2)
  else 0.

(** [pow(v, n)] for an integer [n]; the code calls it with n = 2 only. *)
Definition Rpowi (v : R) (n : Z) : R :=
  match n with
  | 2%Z => v * v
  | _ => powerRZ v n
  end.

#[export] Instance R_Libm : Libm R := {|
  dsin := sin;
  dcos := cos;
  datan := atan;
  datan2 := Ratan2;
  dpow := Rpowi;
  M_PI := PI
|}.

(** [tf::getYaw] belongs to the tf library; the properties below hold for
    any reading of it.  The concrete runs take the yaw of a unit
    quaternion. *)
Definition Ryaw (q : Quaternion R) : R :=
  Ratan2 (2 * (qw q * qz q + qx q * qy q))
         (1 - 2 * (qy q * qy q + qz q * qz q)).

Definition R_Tf : Tf R := {| getYaw := Ryaw |}.

Definition float_of_Z (n : Z) : PrimFloat.float :=
  match n with
  | Z0 => PrimFloat.zero
  | Zpos _ => PrimFloat.of_uint63 (Uint63.of_Z n)
  | Zneg _ => PrimFloat.opp (PrimFloat.of_uint63 (Uint63.of_Z (- n)))
  end.

#[export] Instance float_Double : Double PrimFloat.float := {|
  dconst := float_of_Z;
  dadd := PrimFloat.add;
  dsub := PrimFloat.sub;
  dmul := PrimFloat.mul;
  ddiv := PrimFloat.div;
  dneg := PrimFloat.opp;
  dabs := PrimFloat.abs;
  dsqrt := PrimFloat.sqrt;
  dlt := PrimFloat.ltb;
  epsilon :=                                                  (* 2^-52 *)
    PrimFloat.div (float_of_Z 1) (float_of_Z 4503599627370496)
|}.

(** ** Views of the program *)

(** *** Loops and what they emit *)

Section Loops.
Context {D : Type}.

(** The values of the loop variable at which the body of a [for_double]
    runs, in order. *)
Fixpoint for_trace (fuel : nat) (cond : D -> bool) (next : D -> D) (i : D)
    : option (list D) :=
  match fuel with
  | O => None
  | S fuel' =>
      if cond i then option_map (cons i) (for_trace fuel' cond next (next i))
      else Some []
  end.

Lemma for_double_trace (St : Type) (cond : D -> bool) (next : D -> D)
    (body : D -> St -> St) (fuel : nat) :
  forall (i : D) (st : St),
    for_double fuel cond next body i st
    = option_map (fun l => fold_left (fun s j => body j s) l st)
        (for_trace fuel cond next i).
Proof.
  induction fuel as [|fuel IH]; intros i st; simpl; [reflexivity|].
  destruct (cond i); [|reflexivity].
  rewrite IH. destruct (for_trace fuel cond next (next i)); reflexivity.
Qed.

Lemma for_trace_more_fuel (cond : D -> bool) (next : D -> D) (fuel : nat) :
  forall (i : D) (l : list D) (fuel' : nat),
    for_trace fuel cond next i = Some l -> (fuel <= fuel')%nat ->
    for_trace fuel' cond next i = Some l.
Proof.
  induction fuel as [|fuel IH]; intros i l fuel' H Hle; simpl in H;
    [discriminate|].
  destruct fuel' as [|fuel']; [lia|]. simpl.
  destruct (cond i); [|assumption].
  destruct (for_trace fuel cond next (next i)) as [l'|] eqn:E;
    [|discriminate].
  rewrite (IH _ _ fuel' E) by lia. assumption.
Qed.

(** Every traced value passed the loop test. *)
Lemma for_trace_cond (cond : D -> bool) (next : D -> D) (fuel : nat) :
  forall (i : D) (l : list D),
    for_trace fuel cond next i = Some l -> Forall (fun j => cond j = true) l.
Proof.
  induction fuel as [|fuel IH]; intros i l H; simpl in H; [discriminate|].
  destruct (cond i) eqn:C.
  - destruct (for_trace fuel cond next (next i)) as [l'|] eqn:E;
      [|discriminate].
    injection H as <-. constructor; [assumption|]. eapply IH; eassumption.
  - injection H as <-. constructor.
Qed.

Lemma iter_next (next : D -> D) (k : nat) (i : D) :
  Nat.iter k next (next i) = next (Nat.iter k next i).
Proof. induction k as [|k IH]; simpl; [reflexivity | now rewrite IH]. Qed.

(** The traced values are the iterates of the step, and the loop test
    fails at the next one. *)
Lemma for_trace_iter (cond : D -> bool) (next : D -> D) (fuel : nat) :
  forall (i : D) (l : list D),
    for_trace fuel cond next i = Some l ->
    l = map (fun k => Nat.iter k next i) (List.seq 0 (length l))
    /\ cond (Nat.iter (length l) next i) = false.
Proof.
  induction fuel as [|fuel IH]; intros i l H; simpl in H; [discriminate|].
  destruct (cond i) eqn:C.
  - destruct (for_trace fuel cond next (next i)) as [l'|] eqn:E;
      [|discriminate].
    injection H as <-. destruct (IH _ _ E) as [Hl Hc]. split.
    + simpl. f_equal.
      rewrite <- seq_shift, map_map. rewrite Hl at 1.
      apply map_ext. intros k. apply iter_next.
    + simpl. rewrite <- iter_next. exact Hc.
  - injection H as <-. simpl. auto.
Qed.

(** A loop whose test holds at the start and is kept by the step is cut
    short by every fuel: it does not end. *)
Lemma for_trace_never (cond : D -> bool) (next : D -> D)
    (Inv : D -> Prop) :
  (forall i, Inv i -> cond i = true /\ Inv (next i)) ->
  forall (fuel : nat) (i : D), Inv i -> for_trace fuel cond next i = None.
Proof.
  intros Hinv. induction fuel as [|fuel IH]; intros i Hi; [reflexivity|].
  cbn [for_trace]. destruct (Hinv i Hi) as [-> Hn].
  now rewrite (IH (next i) Hn).
Qed.

(** In particular a loop whose test holds at a value the step leaves
    unchanged. *)
Lemma for_trace_stuck (cond : D -> bool) (next : D -> D) (i : D) :
  cond i = true -> next i = i ->
  forall fuel : nat, for_trace fuel cond next i = None.
Proof.
  intros Hc Hn fuel.
  apply (for_trace_never cond next (fun j => j = i)); [|reflexivity].
  intros j ->. now rewrite Hn.
Qed.
End Loops.

Section Emission.
Context {D : Type} {dbl : Double D} {libm : Libm D}.
Local Open Scope double_scope.

(** The planar position of a stamped pose. *)
Definition xy (p : PoseStamped D) : D * D :=
  (x (position (pose p)), y (position (pose p))).

(** The world after [n] more readings of the clock. *)
Definition tick (n : nat) (w : World) : World :=
  Nat.iter n (fun v => snd (now v)) w.

(** The points appended by a loop whose body is [emit] at [f i], for the
    traced values [l], starting in world [w]. *)
Fixpoint samples (f : D -> D * D) (w : World) (l : list D)
    : list (PoseStamped D) :=
  match l with
  | [] => []
  | i :: l' =>
      stamped_point (fst (now w)) (fst (f i)) (snd (f i))
      :: samples f (snd (now w)) l'
  end.

Lemma samples_xy (f : D -> D * D) (l : list D) :
  forall w : World, map xy (samples f w l) = map f l.
Proof.
  induction l as [|i l IH]; intros w; simpl; [reflexivity|].
  rewrite IH. unfold xy at 1. simpl. now destruct (f i).
Qed.

Lemma samples_length (f : D -> D * D) (l : list D) :
  forall w : World, length (samples f w l) = length l.
Proof.
  induction l as [|i l IH]; intros w; simpl; [reflexivity | now rewrite IH].
Qed.

Lemma tick_S (n : nat) (w : World) : tick (S n) w = tick n (snd (now w)).
Proof. symmetry. exact (iter_next (fun v => snd (now v)) n w). Qed.

Lemma tick_add (n m : nat) (w : World) : tick (n + m) w = tick m (tick n w).
Proof.
  revert w. induction n as [|n IH]; intros w; [reflexivity|].
  change (S n + m)%nat with (S (n + m)). now rewrite !tick_S, IH.
Qed.

Lemma fold_emit (f : D -> D * D) (l : list D) :
  forall (path : Path D) (w : World),
    fold_left (fun st i => emit (fst (f i)) (snd (f i)) st) l (path, w)
    = ({| path_header := path_header path;
          poses := poses path ++ samples f w l |},
       tick (length l) w).
Proof.
  induction l as [|i l IH]; intros path w.
  - simpl. rewrite app_nil_r. now destruct path.
  - cbn [fold_left]. unfold emit at 2. cbn [now fst snd].
    rewrite IH. cbn [length]. rewrite tick_S.
    cbn [push_back path_header poses samples now fst snd].
    now rewrite <- app_assoc.
Qed.

Variable self : SimpleDubinsPath D.

(** The tests, steps and points of the two loops of [generatePath]. *)
Definition arcCond (stopAngle i : D) : bool :=
  dabs (i - stopAngle)
  >? #2 * (m_pathResolution self / m_turningRadius self).

Definition arcNext (dir : Dir) (i : D) : D :=
  i + #(Dir_to_int dir) * (m_pathResolution self / m_turningRadius self).

Definition arcPoint (x_cr y_cr i : D) : D * D :=
  (x_cr + dcos i * m_turningRadius self, y_cr + dsin i * m_turningRadius self).

Definition lineCond (x_n y_n x_lc y_lc i : D) : bool :=
  let dx := x_n - x_lc in
  let dy := y_n - y_lc in
  dabs (i * m_pathResolution self * (dx / dsqrt (dx * dx + dy * dy)) - dx)
  >? #2 * m_pathResolution self.

Definition linePoint (x_n y_n x_lc y_lc i : D) : D * D :=
  let dx := x_n - x_lc in
  let dy := y_n - y_lc in
  (x_lc + i * m_pathResolution self * (dx / dsqrt (dx * dx + dy * dy)),
   y_lc + i * m_pathResolution self * (dy / dsqrt (dx * dx + dy * dy))).

(** The angles at which the arc loop emits, and the counters at which the
    line loop emits. *)
Definition arcTrace (fuel : nat) (startAngle stopAngle : D) (dir : Dir)
    : option (list D) :=
  for_trace fuel (arcCond stopAngle) (arcNext dir) startAngle.

Definition lineTrace (fuel : nat) (x_n y_n x_lc y_lc : D) : option (list D) :=
  for_trace fuel (lineCond x_n y_n x_lc y_lc) (fun i => i + #1) #0.

Lemma arcLoop_trace (fuel : nat) (x_cr y_cr startAngle stopAngle : D)
    (dir : Dir) (path : Path D) (w : World) :
  arcLoop self fuel x_cr y_cr startAngle stopAngle dir (path, w)
  = option_map
      (fun l => ({| path_header := path_header path;
                    poses := poses path ++ samples (arcPoint x_cr y_cr) w l |},
                 tick (length l) w))
      (arcTrace fuel startAngle stopAngle dir).
Proof.
  unfold arcLoop, arcTrace. rewrite for_double_trace.
  change (fun i => dabs (i - stopAngle)
                   >? #2 * (m_pathResolution self / m_turningRadius self))
    with (arcCond stopAngle).
  change (fun i => i + #(Dir_to_int dir)
                       * (m_pathResolution self / m_turningRadius self))
    with (arcNext dir).
  destruct (for_trace fuel (arcCond stopAngle) (arcNext dir) startAngle)
    as [l|]; [|reflexivity].
  cbn [option_map]. f_equal.
  exact (fold_emit (arcPoint x_cr y_cr) l path w).
Qed.

Lemma lineLoop_trace (fuel : nat) (x_n y_n x_lc y_lc : D)
    (path : Path D) (w : World) :
  lineLoop self fuel x_n y_n x_lc y_lc (path, w)
  = option_map
      (fun l => ({| path_header := path_header path;
                    poses := poses path
                             ++ samples (linePoint x_n y_n x_lc y_lc) w l |},
                 tick (length l) w))
      (lineTrace fuel x_n y_n x_lc y_lc).
Proof.
  unfold lineLoop, lineTrace. cbv zeta. rewrite for_double_trace.
  change (fun i => dabs (i * m_pathResolution self
                         * ((x_n - x_lc)
                            / dsqrt ((x_n - x_lc) * (x_n - x_lc)
                                     + (y_n - y_lc) * (y_n - y_lc)))
                         - (x_n - x_lc))
                   >? #2 * m_pathResolution self)
    with (lineCond x_n y_n x_lc y_lc).
  destruct (for_trace fuel (lineCond x_n y_n x_lc y_lc) (fun i => i + #1) #0)
    as [l|]; [|reflexivity].
  cbn [option_map]. f_equal.
  exact (fold_emit (linePoint x_n y_n x_lc y_lc) l path w).
Qed.

(** [generatePath] in one equation: the old poses are gone, and the new
    ones are the arc samples, the line samples and the goal. *)
Lemma generatePath_trace (fuel : nat)
    (x_q y_q x_n y_n x_cr y_cr x_lc y_lc : D) (dir : Dir)
    (goal : PoseStamped D) (path : Path D) (w : World) :
  generatePath self fuel x_q y_q x_n y_n x_cr y_cr x_lc y_lc dir goal path w
  = let '(startAngle, stopAngle) :=
      arcAngles x_q y_q x_cr y_cr x_lc y_lc dir in
    match arcTrace fuel startAngle stopAngle dir,
          lineTrace fuel x_n y_n x_lc y_lc with
    | Some la, Some ll =>
        Some ({| path_header :=
                   {| seq := seq (path_header path);
                      stamp := fst (now w); frame_id := "map" |};
                 poses :=
                   samples (arcPoint x_cr y_cr) (tick 1 w) la
                   ++ samples (linePoint x_n y_n x_lc y_lc)
                        (tick (1 + length la) w) ll
                   ++ [goal] |},
              tick (1 + length la + length ll) w)
    | _, _ => None
    end.
Proof.
  unfold generatePath. cbn [now fst snd].
  destruct (arcAngles x_q y_q x_cr y_cr x_lc y_lc dir) as [a0 a1].
  rewrite arcLoop_trace.
  destruct (arcTrace fuel a0 a1 dir) as [la|]; cbn [option_map];
    [|reflexivity].
  rewrite lineLoop_trace.
  destruct (lineTrace fuel x_n y_n x_lc y_lc) as [ll|]; cbn [option_map];
    [|reflexivity].
  change {| wall := wall w; ticks := S (ticks w); rosout := rosout w |}
    with (tick 1 w).
  rewrite <- !tick_add. unfold push_back. cbn [path_header poses].
  now rewrite <- app_assoc.
Qed.
End Emission.

(** A returning [generatePath] leaves the arc samples, the line samples
    and the goal, in this order. *)
Lemma generatePath_shape {D : Type} {dbl : Double D} {libm : Libm D}
    (self : SimpleDubinsPath D) (fuel : nat)
    (x_q y_q x_n y_n x_cr y_cr x_lc y_lc : D) (dir : Dir)
    (goal : PoseStamped D) (path path' : Path D) (w w' : World) :
  generatePath self fuel x_q y_q x_n y_n x_cr y_cr x_lc y_lc dir goal path w
  = Some (path', w') ->
  exists la ll : list D,
    arcTrace self fuel (fst (arcAngles x_q y_q x_cr y_cr x_lc y_lc dir))
      (snd (arcAngles x_q y_q x_cr y_cr x_lc y_lc dir)) dir = Some la
    /\ lineTrace self fuel x_n y_n x_lc y_lc = Some ll
    /\ poses path'
       = samples (arcPoint self x_cr y_cr) (tick 1 w) la
         ++ samples (linePoint self x_n y_n x_lc y_lc)
              (tick (1 + length la) w) ll
         ++ [goal].
Proof.
  rewrite generatePath_trace.
  destruct (arcAngles x_q y_q x_cr y_cr x_lc y_lc dir) as [a0 a1].
  cbn [fst snd].
  destruct (arcTrace self fuel a0 a1 dir) as [la|]; [|discriminate].
  destruct (lineTrace self fuel x_n y_n x_lc y_lc) as [ll|]; [|discriminate].
  intros E. injection E as <- _. now exists la, ll.
Qed.

(** *** The parts of [tangentLine] and [tangentPoint] *)

Section TangentLineParts.
Context {D : Type} {dbl : Double D} {libm : Libm D}.
Local Open Scope double_scope.
Variable self : SimpleDubinsPath D.

(** The test of line 66: the near-degenerate branch is taken. *)
Definition nearDegenerate (y_n y_cr : D) : bool :=
  dabs ((y_n - y_cr) + m_turningRadius self) <? epsilon.

(** The argument of the square root, the same in the four quotients. *)
Definition radicand (x_n y_n x_cr y_cr : D) : D :=
  let a := x_cr - x_n in
  let b := y_n - y_cr in
  a * a + b * b - m_turningRadius self * m_turningRadius self.

(** The denominator of the branch taken. *)
Definition denominator (y_n y_cr : D) : D :=
  let b := y_n - y_cr in
  if nearDegenerate y_n y_cr
  then b - m_turningRadius self
  else b + m_turningRadius self.

(** Lines 82-87: force beta in [0, pi). *)
Definition forceBeta (beta : D) : D :=
  if beta <? #0 then beta + M_PI else beta.

Lemma tangentLine_eq (x_n y_n x_cr y_cr : D) :
  let a := x_cr - x_n in
  let root := dsqrt (radicand x_n y_n x_cr y_cr) in
  let den := denominator y_n y_cr in
  tangentLine self x_n y_n x_cr y_cr
  = if nearDegenerate y_n y_cr
    then (forceBeta (#2 * datan ((a - root) / den)),
          forceBeta (#2 * datan ((a + root) / den)))
    else (forceBeta (#2 * datan ((a + root) / den)),
          forceBeta (#2 * datan ((a - root) / den))).
Proof.
  unfold tangentLine, denominator, radicand, nearDegenerate. cbv zeta.
  destruct (dabs (y_n - y_cr + m_turningRadius self) <? epsilon);
    reflexivity.
Qed.

(** The precondition the closed form asks for, a^2 + b^2 >= R^2, in the
    arithmetic of the code: the sum of the two products is not below the
    third. *)
Definition outsideOrOn (x_n y_n x_cr y_cr : D) : bool :=
  let a := x_cr - x_n in
  let b := y_n - y_cr in
  negb (a * a + b * b <? m_turningRadius self * m_turningRadius self).
End TangentLineParts.

Section TangentParts.
Context {D : Type} {dbl : Double D} {libm : Libm D}.
Local Open Scope double_scope.

(** Lines 101-115 (and again 118-128): the candidate for one angle. *)
Definition tangentCandidate (x_n y_n x_cr y_cr beta : D) : D * D :=
  let x2 := x_n - x_cr in
  let y2 := y_n - y_cr in
  let x1 := (x_n + dcos beta) - x_cr in
  let y1 := (y_n + dsin beta) - y_cr in
  let dx := x2 - x1 in
  let dy := y2 - y1 in
  let dr := dsqrt (dx * dx + dy * dy) in
  let D_ := x1 * y2 - x2 * y1 in
  (D_ * dy / (dr * dr) + x_cr, - D_ * dx / (dr * dr) + y_cr).

(** Lines 131-143 (and again 146-151): the angle from the start vector to
    a candidate's vector, both from the centre, after the wrap. *)
Definition sweepAngle (x_q y_q x_cr y_cr : D) (p : D * D) : D :=
  let x1 := x_q - x_cr in
  let y1 := y_q - y_cr in
  let x2 := fst p - x_cr in
  let y2 := snd p - y_cr in
  let dot := x1 * x2 + y1 * y2 in
  let det := x1 * y2 - y1 * x2 in
  let angle := datan2 det dot in
  if angle <? #0 then angle + #2 * M_PI else angle.

Lemma tangentPoint_eq (x_q y_q x_n y_n x_cr y_cr beta1 beta2 : D)
    (dir : Dir) :
  let p1 := tangentCandidate x_n y_n x_cr y_cr beta1 in
  let p2 := tangentCandidate x_n y_n x_cr y_cr beta2 in
  let angle1 := sweepAngle x_q y_q x_cr y_cr p1 in
  let angle2 := sweepAngle x_q y_q x_cr y_cr p2 in
  tangentPoint x_q y_q x_n y_n x_cr y_cr beta1 beta2 dir
  = match dir with
    | Left => if angle1 <? angle2 then p1 else p2
    | Right => if angle1 >? angle2 then p1 else p2
    end.
Proof. destruct dir; reflexivity. Qed.
End TangentParts.

(** *** The facade *)

Section Facade.
Context {D : Type} {dbl : Double D} {libm : Libm D} {tf : Tf D}.
Local Open Scope double_scope.
Variable self : SimpleDubinsPath D.

(** The reachability test of [makePath] and [getTargetHeading]. *)
Definition unreachable (x_n y_n x_cr y_cr : D) : bool :=
  dsqrt (pow2 (x_n - x_cr) + pow2 (y_n - y_cr)) <? m_turningRadius self.

(** The tangent point both entry points go on with: direction, centre,
    tangent angles, selection. *)
Definition selectedTangent (x_q y_q theta_q x_n y_n : D) : D * D :=
  let dir := turningDirection x_q y_q theta_q x_n y_n in
  let '(x_cr, y_cr) := turningCenter self x_q y_q theta_q x_n y_n in
  let '(beta1, beta2) := tangentLine self x_n y_n x_cr y_cr in
  tangentPoint x_q y_q x_n y_n x_cr y_cr beta1 beta2 dir.

(** The world after the advisory test of [makePath]. *)
Definition advised (x_q y_q x_n y_n : D) (w : World) : World :=
  if m_turningRadius self >? dsqrt (pow2 (x_q - x_n) + pow2 (y_q - y_n)) / #2
  then ros_log WARN
         "The desired turning radius is larger than half the length between the waypoint."
         w
  else w.

Lemma makePath_eq (fuel : nat) (start goal : PoseStamped D)
    (path : Path D) (w : World) :
  let x_q := x (position (pose start)) in
  let y_q := y (position (pose start)) in
  let theta_q := getYaw (orientation (pose start)) in
  let x_n := x (position (pose goal)) in
  let y_n := y (position (pose goal)) in
  let c := turningCenter self x_q y_q theta_q x_n y_n in
  let t := selectedTangent x_q y_q theta_q x_n y_n in
  makePath self fuel start goal path w
  = if unreachable x_n y_n (fst c) (snd c)
    then Some (false, path,
               ros_log ERROR "Target not reachable with simple Dubin's path."
                 (advised x_q y_q x_n y_n w))
    else
      match generatePath self fuel x_q y_q x_n y_n (fst c) (snd c)
              (fst t) (snd t) (turningDirection x_q y_q theta_q x_n y_n)
              goal path (advised x_q y_q x_n y_n w) with
      | None => None
      | Some (path', w') => Some (true, path', w')
      end.
Proof.
  intros x_q y_q theta_q x_n y_n c t.
  unfold makePath. fold x_q y_q theta_q x_n y_n.
  subst t. unfold selectedTangent. fold c.
  destruct c as [x_cr y_cr]. cbn [fst snd].
  fold (unreachable x_n y_n x_cr y_cr). fold (advised x_q y_q x_n y_n w).
  destruct (unreachable x_n y_n x_cr y_cr); [reflexivity|].
  destruct (tangentLine self x_n y_n x_cr y_cr) as [beta1 beta2].
  destruct (tangentPoint x_q y_q x_n y_n x_cr y_cr beta1 beta2
              (turningDirection x_q y_q theta_q x_n y_n)) as [x_lc y_lc].
  reflexivity.
Qed.

Lemma getTargetHeading_eq (x_q y_q theta_q x_n y_n yawTarget : D) :
  let c := turningCenter self x_q y_q theta_q x_n y_n in
  let t := selectedTangent x_q y_q theta_q x_n y_n in
  getTargetHeading self x_q y_q theta_q x_n y_n yawTarget
  = if unreachable x_n y_n (fst c) (snd c)
    then (false, yawTarget)
    else (true, datan2 (y_n - snd t) (x_n - fst t)).
Proof.
  intros c t. unfold getTargetHeading.
  subst t. unfold selectedTangent. fold c.
  destruct c as [x_cr y_cr]. cbn [fst snd].
  fold (unreachable x_n y_n x_cr y_cr).
  destruct (unreachable x_n y_n x_cr y_cr); [reflexivity|].
  destruct (tangentLine self x_n y_n x_cr y_cr) as [beta1 beta2].
  destruct (tangentPoint x_q y_q x_n y_n x_cr y_cr beta1 beta2
              (turningDirection x_q y_q theta_q x_n y_n)) as [x_lc y_lc].
  reflexivity.
Qed.
End Facade.

(** What a [makePath] that returned [true] has left in the path. *)
Lemma makePath_shape {D : Type} {dbl : Double D} {libm : Libm D}
    {tf : Tf D} (self : SimpleDubinsPath D)
    (fuel : nat) (start goal : PoseStamped D)
    (path path' : Path D) (w w' : World) :
  makePath self fuel start goal path w = Some (true, path', w') ->
  let x_q := x (position (pose start)) in
  let y_q := y (position (pose start)) in
  let theta_q := getYaw (orientation (pose start)) in
  let x_n := x (position (pose goal)) in
  let y_n := y (position (pose goal)) in
  let c := turningCenter self x_q y_q theta_q x_n y_n in
  let t := selectedTangent self x_q y_q theta_q x_n y_n in
  let dir := turningDirection x_q y_q theta_q x_n y_n in
  let w1 := advised self x_q y_q x_n y_n w in
  unreachable self x_n y_n (fst c) (snd c) = false
  /\ exists la ll : list D,
    arcTrace self fuel
      (fst (arcAngles x_q y_q (fst c) (snd c) (fst t) (snd t) dir))
      (snd (arcAngles x_q y_q (fst c) (snd c) (fst t) (snd t) dir)) dir
    = Some la
    /\ lineTrace self fuel x_n y_n (fst t) (snd t) = Some ll
    /\ poses path'
       = samples (arcPoint self (fst c) (snd c)) (tick 1 w1) la
         ++ samples (linePoint self x_n y_n (fst t) (snd t))
              (tick (1 + length la) w1) ll
         ++ [goal].
Proof.
  intros H x_q y_q theta_q x_n y_n c t dir w1.
  rewrite makePath_eq in H. fold x_q y_q theta_q x_n y_n c t dir w1 in H.
  destruct (unreachable self x_n y_n (fst c) (snd c)); [discriminate|].
  split; [reflexivity|].
  destruct (generatePath _ _ _ _ _ _ _ _ _ _ _ _ _ _) as [[p v]|] eqn:G;
    [|discriminate].
  injection H as -> ->.
  exact (generatePath_shape self _ _ _ _ _ _ _ _ _ _ _ _ _ _ _ G).
Qed.

(** The two outcomes of the reachability test, in every reading of
    [double]: a target that fails it is refused at once, with the caller's
    path as it was; a target that passes it is never refused. *)
Lemma makePath_refuses {D : Type} {dbl : Double D} {libm : Libm D}
    {tf : Tf D} (self : SimpleDubinsPath D)
    (fuel : nat) (start goal : PoseStamped D) (path : Path D) (w : World) :
  let x_q := x (position (pose start)) in
  let y_q := y (position (pose start)) in
  let theta_q := getYaw (orientation (pose start)) in
  let x_n := x (position (pose goal)) in
  let y_n := y (position (pose goal)) in
  let c := turningCenter self x_q y_q theta_q x_n y_n in
  unreachable self x_n y_n (fst c) (snd c) = true ->
  makePath self fuel start goal path w
  = Some (false, path,
          ros_log ERROR "Target not reachable with simple Dubin's path."
            (advised self x_q y_q x_n y_n w)).
Proof.
  intros x_q y_q theta_q x_n y_n c H. rewrite makePath_eq.
  fold x_q y_q theta_q x_n y_n c. now rewrite H.
Qed.

Lemma makePath_proceeds {D : Type} {dbl : Double D} {libm : Libm D}
    {tf : Tf D} (self : SimpleDubinsPath D)
    (fuel : nat) (start goal : PoseStamped D) (path path' : Path D)
    (w w' : World) (b : bool) :
  let x_q := x (position (pose start)) in
  let y_q := y (position (pose start)) in
  let theta_q := getYaw (orientation (pose start)) in
  let x_n := x (position (pose goal)) in
  let y_n := y (position (pose goal)) in
  let c := turningCenter self x_q y_q theta_q x_n y_n in
  unreachable self x_n y_n (fst c) (snd c) = false ->
  makePath self fuel start goal path w = Some (b, path', w') -> b = true.
Proof.
  intros x_q y_q theta_q x_n y_n c H. rewrite makePath_eq.
  fold x_q y_q theta_q x_n y_n c. rewrite H.
  destruct (generatePath _ _ _ _ _ _ _ _ _ _ _ _ _ _) as [[p v]|];
    [|discriminate].
  intros E. now injection E as <- _ _.
Qed.

(** A reachable target whose arc loop is cut short by the fuel: so is
    [makePath]. *)
Lemma makePath_cut {D : Type} {dbl : Double D} {libm : Libm D}
    {tf : Tf D} (self : SimpleDubinsPath D)
    (fuel : nat) (start goal : PoseStamped D) (path : Path D) (w : World) :
  let x_q := x (position (pose start)) in
  let y_q := y (position (pose start)) in
  let theta_q := getYaw (orientation (pose start)) in
  let x_n := x (position (pose goal)) in
  let y_n := y (position (pose goal)) in
  let c := turningCenter self x_q y_q theta_q x_n y_n in
  let t := selectedTangent self x_q y_q theta_q x_n y_n in
  let dir := turningDirection x_q y_q theta_q x_n y_n in
  let a := arcAngles x_q y_q (fst c) (snd c) (fst t) (snd t) dir in
  unreachable self x_n y_n (fst c) (snd c) = false ->
  arcTrace self fuel (fst a) (snd a) dir = None ->
  makePath self fuel start goal path w = None.
Proof.
  intros x_q y_q theta_q x_n y_n c t dir a Hu Ha. rewrite makePath_eq.
  fold x_q y_q theta_q x_n y_n c t dir. rewrite Hu, generatePath_trace.
  fold a. destruct a as [a0 a1]. cbn [fst snd] in Ha. now rewrite Ha.
Qed.

(** ** Real arithmetic *)

Local Open Scope R_scope.

Ltac real :=
  cbn [dconst dadd dsub dmul ddiv dneg dabs dsqrt dlt epsilon
       dsin dcos datan datan2 dpow Rpowi M_PI R_Double R_Libm] in *.

Lemma Rltb_true_iff (a b : R) : Rltb a b = true <-> a < b.
Proof.
  unfold Rltb. destruct (Rlt_dec a b); split; intros; auto; discriminate.
Qed.

Lemma Rltb_false_iff (a b : R) : Rltb a b = false <-> b <= a.
Proof.
  unfold Rltb. destruct (Rlt_dec a b); split; intros; auto;
    try discriminate; lra.
Qed.

Lemma Rltb_lt (a b : R) : a < b -> Rltb a b = true.
Proof. apply Rltb_true_iff. Qed.

Lemma Rltb_ge (a b : R) : b <= a -> Rltb a b = false.
Proof. apply Rltb_false_iff. Qed.

Lemma sqrt_ge (a b : R) : 0 <= a -> a * a <= b -> a <= sqrt b.
Proof.
  intros Ha Hab. rewrite <- (sqrt_square a Ha). now apply sqrt_le_1_alt.
Qed.

Lemma sqrt_lt (a b : R) : 0 < a -> b < a * a -> sqrt b < a.
Proof.
  intros Ha Hab. destruct (Rle_lt_dec 0 b) as [Hb|Hb].
  - assert (H : sqrt b < sqrt (a * a)) by (apply sqrt_lt_1_alt; lra).
    rewrite sqrt_square in H; lra.
  - rewrite sqrt_neg_0; lra.
Qed.

Lemma abs_le_norm (u v : R) : Rabs u <= sqrt (u * u + v * v).
Proof.
  rewrite <- sqrt_Rsqr_abs. apply sqrt_le_1_alt. unfold Rsqr. nra.
Qed.

(** *** A loop that steps towards a target stops *)

Section Approach.
Variables (cond : R -> bool) (next : R -> R).
(** The test is [|g i - T| > 2 * delta] and one step moves [g] by [h]. *)
Variables (g : R -> R) (T delta h : R).
Hypothesis cond_def : forall i, cond i = Rltb (2 * delta) (Rabs (g i - T)).
Hypothesis next_def : forall i, g (next i) = g i + h.

Lemma approach_up (n : nat) :
  0 < h <= delta ->
  forall i, g i - T <= 2 * delta -> T - g i <= 2 * delta + INR n * h ->
  exists l, for_trace (S n) cond next i = Some l /\ (length l <= n)%nat.
Proof.
  intros Hh. induction n as [|n IH]; intros i Hlo Hhi.
  - exists []. simpl in *. rewrite cond_def, Rltb_ge; [auto|].
    unfold Rabs. destruct (Rcase_abs (g i - T)); lra.
  - change (for_trace (S (S n)) cond next i)
      with (if cond i
            then option_map (cons i) (for_trace (S n) cond next (next i))
            else Some []).
    destruct (cond i) eqn:C.
    + rewrite cond_def in C. apply Rltb_true_iff in C.
      assert (Hfar : 2 * delta < T - g i).
      { revert C. unfold Rabs. destruct (Rcase_abs (g i - T)); lra. }
      rewrite S_INR in Hhi.
      destruct (IH (next i)) as (l & Hl & Hlen);
        [rewrite next_def; lra | rewrite next_def; lra |].
      exists (i :: l). rewrite Hl. simpl. split; [reflexivity | lia].
    + exists []. simpl. split; [reflexivity | lia].
Qed.

Lemma approach_down (n : nat) :
  - delta <= h < 0 ->
  forall i, T - g i <= 2 * delta -> g i - T <= 2 * delta + INR n * - h ->
  exists l, for_trace (S n) cond next i = Some l /\ (length l <= n)%nat.
Proof.
  intros Hh. induction n as [|n IH]; intros i Hlo Hhi.
  - exists []. simpl in *. rewrite cond_def, Rltb_ge; [auto|].
    unfold Rabs. destruct (Rcase_abs (g i - T)); lra.
  - change (for_trace (S (S n)) cond next i)
      with (if cond i
            then option_map (cons i) (for_trace (S n) cond next (next i))
            else Some []).
    destruct (cond i) eqn:C.
    + rewrite cond_def in C. apply Rltb_true_iff in C.
      assert (Hfar : 2 * delta < g i - T).
      { revert C. unfold Rabs. destruct (Rcase_abs (g i - T)); lra. }
      rewrite S_INR in Hhi.
      destruct (IH (next i)) as (l & Hl & Hlen);
        [rewrite next_def; lra | rewrite next_def; lra |].
      exists (i :: l). rewrite Hl. simpl. split; [reflexivity | lia].
    + exists []. simpl. split; [reflexivity | lia].
Qed.

(** Stepping by a non-zero [h] of size at most [delta] in the direction of
    the target: some amount of fuel is enough, and then any more is. *)
Lemma approach_stops (i : R) :
  0 < Rabs h <= delta -> 0 <= h * (T - g i) ->
  exists (n : nat) (l : list R),
    forall fuel, (n < fuel)%nat -> for_trace fuel cond next i = Some l.
Proof.
  intros [Hh0 Hh1] Hdir.
  destruct (Rcase_abs h) as [Hneg|Hpos].
  - rewrite (Rabs_left _ Hneg) in *.
    assert (HT : T <= g i) by nra.
    destruct (INR_unbounded ((g i - T) / - h)) as [n Hn].
    assert (Hb : g i - T <= 2 * delta + INR n * - h).
    { apply Rgt_lt in Hn.
      apply (Rmult_lt_compat_r (- h)) in Hn; [|lra].
      unfold Rdiv in Hn. rewrite Rmult_assoc, Rinv_l in Hn; lra. }
    assert (Hh : - delta <= h < 0) by lra.
    assert (Hlo : T - g i <= 2 * delta) by lra.
    destruct (approach_down n Hh i Hlo Hb) as (l & Hl & _).
    exists n, l. intros fuel Hf.
    eapply for_trace_more_fuel; [exact Hl | lia].
  - assert (Hpos' : 0 < h).
    { destruct (Rge_le _ _ Hpos) as [|E]; [assumption|].
      rewrite <- E, Rabs_R0 in Hh0. lra. }
    rewrite (Rabs_right _ Hpos) in *.
    assert (HT : g i <= T) by nra.
    destruct (INR_unbounded ((T - g i) / h)) as [n Hn].
    assert (Hb : T - g i <= 2 * delta + INR n * h).
    { apply Rgt_lt in Hn.
      apply (Rmult_lt_compat_r h) in Hn; [|lra].
      unfold Rdiv in Hn. rewrite Rmult_assoc, Rinv_l in Hn; lra. }
    assert (Hlo : g i - T <= 2 * delta) by lra.
    destruct (approach_up n (conj Hpos' Hh1) i Hlo Hb) as (l & Hl & _).
    exists n, l. intros fuel Hf.
    eapply for_trace_more_fuel; [exact Hl | lia].
Qed.

(** Already within the tolerance: the loop body never runs. *)
Lemma approach_none (i : R) (fuel : nat) :
  Rabs (g i - T) <= 2 * delta -> for_trace (S fuel) cond next i = Some [].
Proof. intros H. simpl. now rewrite cond_def, Rltb_ge. Qed.
End Approach.

(** *** What a stepping loop emits *)

Section Emitted.
Variables (cond : R -> bool) (next : R -> R).
Variables (g : R -> R) (T delta h : R).
Hypothesis cond_def : forall i, cond i = Rltb (2 * delta) (Rabs (g i - T)).
Hypothesis next_def : forall i, g (next i) = g i + h.

(** Stepping up towards [T]: every emitted value is more than the
    tolerance short of [T], and the steps taken fit in the gap. *)
Lemma emitted_up (fuel : nat) :
  0 < h <= delta ->
  forall i l, g i <= T -> for_trace fuel cond next i = Some l ->
    Forall (fun j => 2 * delta < T - g j) l
    /\ INR (length l) * h <= T - g i.
Proof.
  intros Hh. induction fuel as [|fuel IH]; intros i l Hi H; simpl in H;
    [discriminate|].
  destruct (cond i) eqn:C.
  - destruct (for_trace fuel cond next (next i)) as [l'|] eqn:E;
      [|discriminate].
    injection H as <-.
    rewrite cond_def in C. apply Rltb_true_iff in C.
    assert (Hfar : 2 * delta < T - g i).
    { revert C. unfold Rabs. destruct (Rcase_abs (g i - T)); lra. }
    destruct (IH (next i) l') as [Hall Hlen];
      [rewrite next_def; lra | exact E |].
    split; [constructor; assumption|].
    change (length (i :: l')) with (S (length l')).
    rewrite S_INR. rewrite next_def in Hlen. lra.
  - injection H as <-. split; [constructor|]. simpl. lra.
Qed.

(** The fuel a finished loop needed: one test more than it emitted. *)
Lemma for_trace_exact (fuel : nat) :
  forall i l, for_trace fuel cond next i = Some l ->
    for_trace (S (length l)) cond next i = Some l.
Proof.
  induction fuel as [|fuel IH]; intros i l H; simpl in H; [discriminate|].
  destruct (cond i) eqn:C.
  - destruct (for_trace fuel cond next (next i)) as [l'|] eqn:E;
      [|discriminate].
    injection H as <-. apply IH in E.
    change (for_trace (S (length (i :: l'))) cond next i)
      with (if cond i
            then option_map (cons i)
                   (for_trace (S (length l')) cond next (next i))
            else Some []).
    now rewrite C, E.
  - injection H as <-. simpl. now rewrite C.
Qed.

(** The emitted values are spaced by [h] in [g]. *)
Lemma emitted_steps (fuel : nat) :
  forall i l, for_trace fuel cond next i = Some l ->
    map g l = map (fun k => g i + INR k * h) (List.seq 0 (length l)).
Proof.
  induction fuel as [|fuel IH]; intros i l H; simpl in H; [discriminate|].
  destruct (cond i) eqn:C.
  - destruct (for_trace fuel cond next (next i)) as [l'|] eqn:E;
      [|discriminate].
    injection H as <-. apply IH in E. simpl. f_equal; [lra|].
    rewrite E, <- seq_shift, map_map. apply map_ext. intros k.
    rewrite next_def, S_INR. lra.
  - injection H as <-. reflexivity.
Qed.
End Emitted.

Lemma emitted_down (cond : R -> bool) (next g : R -> R) (T delta h : R)
    (fuel : nat) :
  (forall i, cond i = Rltb (2 * delta) (Rabs (g i - T))) ->
  (forall i, g (next i) = g i + h) ->
  - delta <= h < 0 ->
  forall i l, T <= g i -> for_trace fuel cond next i = Some l ->
    Forall (fun j => 2 * delta < g j - T) l
    /\ INR (length l) * - h <= g i - T.
Proof.
  intros cond_def next_def Hh i l Hi H.
  destruct (emitted_up cond next (fun j => - g j) (- T) delta (- h)) with
    (fuel := fuel) (i := i) (l := l) as [Hall Hlen]; try assumption; try lra.
  - intros j. rewrite cond_def. f_equal.
    replace (- g j - - T) with (- (g j - T)) by ring. now rewrite Rabs_Ropp.
  - intros j. rewrite next_def. ring.
  - split; [|lra]. eapply Forall_impl; [|exact Hall]. cbv beta. intros; lra.
Qed.

(** The loop stops within three steps' tolerance of its last emission. *)
Lemma emitted_last_up (cond : R -> bool) (next g : R -> R) (T delta h : R)
    (fuel : nat) :
  (forall i, cond i = Rltb (2 * delta) (Rabs (g i - T))) ->
  (forall i, g (next i) = g i + h) ->
  0 < h <= delta ->
  forall i l d, g i <= T -> for_trace fuel cond next i = Some l ->
    l <> [] -> 2 * delta < T - g (last l d) <= 2 * delta + h.
Proof.
  intros cond_def next_def Hh.
  induction fuel as [|fuel IH]; intros i l d Hi H Hne; simpl in H;
    [discriminate|].
  destruct (cond i) eqn:C; [|injection H as <-; contradiction].
  destruct (for_trace fuel cond next (next i)) as [l'|] eqn:E;
    [|discriminate].
  injection H as <-.
  rewrite cond_def in C. apply Rltb_true_iff in C.
  assert (Hfar : 2 * delta < T - g i).
  { revert C. unfold Rabs. destruct (Rcase_abs (g i - T)); lra. }
  destruct l' as [|j l'].
  - cbn [last]. split; [exact Hfar|].
    destruct fuel as [|fuel]; [discriminate|]. simpl in E.
    destruct (cond (next i)) eqn:C'.
    + destruct (for_trace fuel cond next (next (next i))); discriminate.
    + rewrite cond_def in C'. apply Rltb_false_iff in C'.
      rewrite next_def in C'. revert C'. unfold Rabs.
      destruct (Rcase_abs (g i + h - T)); lra.
  - change (last (i :: j :: l') d) with (last (j :: l') d).
    apply (IH (next i)); [rewrite next_def; lra | exact E | discriminate].
Qed.

Lemma emitted_last_down (cond : R -> bool) (next g : R -> R) (T delta h : R)
    (fuel : nat) :
  (forall i, cond i = Rltb (2 * delta) (Rabs (g i - T))) ->
  (forall i, g (next i) = g i + h) ->
  - delta <= h < 0 ->
  forall i l d, T <= g i -> for_trace fuel cond next i = Some l ->
    l <> [] -> 2 * delta < g (last l d) - T <= 2 * delta - h.
Proof.
  intros cond_def next_def Hh i l d Hi H Hne.
  destruct (emitted_last_up cond next (fun j => - g j) (- T) delta (- h) fuel)
    with (i := i) (l := l) (d := d) as [H1 H2]; try assumption; try lra.
  - intros j. rewrite cond_def. f_equal.
    replace (- g j - - T) with (- (g j - T)) by ring. now rewrite Rabs_Ropp.
  - intros j. rewrite next_def. ring.
Qed.

(** *** Neighbours in a list *)

(** [P] holds of every two neighbours of a list, in order. *)
Fixpoint consecutive {A : Type} (P : A -> A -> Prop) (l : list A) : Prop :=
  match l with
  | p :: (q :: _) as t => P p q /\ consecutive P t
  | _ => True
  end.

Lemma consecutive_app_inv {A : Type} (P : A -> A -> Prop) (l1 l2 : list A)
    (p q : A) :
  consecutive P (l1 ++ p :: q :: l2) -> P p q.
Proof.
  induction l1 as [|a l1 IH]; cbn [app].
  - now intros [H _].
  - destruct l1 as [|b l1]; cbn [app consecutive] in *; intros [_ H];
      now apply IH.
Qed.

Lemma consecutive_map_seq {A : Type} (P : A -> A -> Prop) (f : nat -> A)
    (n : nat) :
  (forall k, P (f k) (f (S k))) ->
  forall a, consecutive P (map f (List.seq a n)).
Proof.
  intros H. induction n as [|n IH]; intros a; [exact I|].
  destruct n as [|n]; [exact I|].
  specialize (IH (S a)). cbn [List.seq map consecutive] in *.
  split; [apply H | exact IH].
Qed.

Lemma last_map {A B : Type} (f : A -> B) (l : list A) (d : A) :
  last (map f l) (f d) = f (last l d).
Proof.
  induction l as [|a l IH]; [reflexivity|].
  destruct l as [|b l]; [reflexivity|]. exact IH.
Qed.

(** *** Angles *)

Lemma Ratan2_bound (v u : R) : - PI < Ratan2 v u <= PI.
Proof.
  pose proof PI_RGT_0 as HPI. unfold Ratan2.
  pose proof (atan_bound (v / u)) as [Hlo Hhi].
  destruct (Rlt_dec 0 u) as [Hu|Hu]; [lra|].
  destruct (Rlt_dec u 0) as [Hu'|Hu'].
  - destruct (Rlt_dec v 0) as [Hv|Hv].
    + assert (0 < v / u).
      { unfold Rdiv. replace (v * / u) with (- v * / - u) by (field; lra).
        apply Rmult_lt_0_compat; [lra|]. apply Rinv_0_lt_compat. lra. }
      assert (0 < atan (v / u)).
      { rewrite <- atan_0. now apply atan_increasing. }
      lra.
    + assert (v / u <= 0).
      { unfold Rdiv. replace (v * / u) with (- (v * / - u)) by (field; lra).
        assert (0 <= v * / - u); [|lra].
        apply Rmult_le_pos; [lra|]. left. apply Rinv_0_lt_compat. lra. }
      assert (atan (v / u) <= 0).
      { rewrite <- atan_0. destruct H as [H|H].
        - left. now apply atan_increasing.
        - rewrite H. lra. }
      lra.
  - destruct (Rlt_dec 0 v); [lra|]. destruct (Rlt_dec v 0); lra.
Qed.

Lemma Ratan2_0_pos (u : R) : 0 < u -> Ratan2 0 u = 0.
Proof.
  intros Hu. unfold Ratan2. destruct (Rlt_dec 0 u); [|contradiction].
  unfold Rdiv. now rewrite Rmult_0_l, atan_0.
Qed.

(** The wrap the code applies after each [atan2]:
    [if (a < 0) a += 2 * M_PI]. *)
Definition wrap2pi (a : R) : R := if Rltb a 0 then a + 2 * PI else a.

Lemma wrap2pi_bound (a : R) : - PI < a <= PI -> 0 <= wrap2pi a < 2 * PI.
Proof.
  intros [Hlo Hhi]. pose proof PI_RGT_0. unfold wrap2pi, Rltb.
  destruct (Rlt_dec a 0); lra.
Qed.

Lemma wrap2pi_atan2 (v u : R) : 0 <= wrap2pi (Ratan2 v u) < 2 * PI.
Proof. apply wrap2pi_bound, Ratan2_bound. Qed.

Lemma atan_pos (t : R) : 0 < t -> 0 < atan t.
Proof. intros H. rewrite <- atan_0. now apply atan_increasing. Qed.

Lemma atan_neg (t : R) : t < 0 -> atan t < 0.
Proof. intros H. rewrite <- atan_0. now apply atan_increasing. Qed.

(** A negative cross product: the wrapped angle is beyond the half turn. *)
Lemma wrap2pi_atan2_neg (v u : R) : v < 0 -> PI < wrap2pi (Ratan2 v u).
Proof.
  intros Hv. pose proof PI_RGT_0 as HPI.
  pose proof (atan_bound (v / u)) as [Hlo Hhi].
  unfold wrap2pi, Ratan2, Rltb.
  destruct (Rlt_dec 0 u) as [Hu|Hu].
  - assert (v / u < 0).
    { unfold Rdiv. replace (v * / u) with (- (- v * / u)) by ring.
      assert (0 < - v * / u); [|lra].
      apply Rmult_lt_0_compat; [lra|]. now apply Rinv_0_lt_compat. }
    pose proof (atan_neg _ H).
    destruct (Rlt_dec (atan (v / u)) 0); lra.
  - destruct (Rlt_dec u 0) as [Hu'|Hu'].
    + destruct (Rlt_dec v 0); [|lra].
      assert (0 < v / u).
      { unfold Rdiv. replace (v * / u) with (- v * / - u) by (field; lra).
        apply Rmult_lt_0_compat; [lra|]. apply Rinv_0_lt_compat. lra. }
      pose proof (atan_pos _ H).
      destruct (Rlt_dec (atan (v / u) - PI) 0); lra.
    + destruct (Rlt_dec 0 v); [lra|]. destruct (Rlt_dec v 0); [|lra].
      destruct (Rlt_dec (- (PI / 2)) 0); lra.
Qed.

Lemma wrap2pi_atan2_nonneg (v u : R) : 0 <= v -> wrap2pi (Ratan2 v u) <= PI.
Proof.
  intros Hv. pose proof PI_RGT_0 as HPI.
  pose proof (Ratan2_bound v u) as [_ Hhi].
  assert (H0 : 0 <= Ratan2 v u).
  { unfold Ratan2. pose proof (atan_bound (v / u)) as [Hlo _].
    destruct (Rlt_dec 0 u) as [Hu|Hu].
    - destruct Hv as [Hv|<-].
      + left. apply atan_pos. now apply Rdiv_lt_0_compat.
      + unfold Rdiv. rewrite Rmult_0_l, atan_0. lra.
    - destruct (Rlt_dec u 0); [destruct (Rlt_dec v 0); lra|].
      destruct (Rlt_dec 0 v); [lra|]. destruct (Rlt_dec v 0); lra. }
  unfold wrap2pi. now rewrite Rltb_ge.
Qed.

(** [atan2] gives the polar angle. *)
Lemma Ratan2_polar (u v : R) :
  sqrt (u * u + v * v) * cos (Ratan2 v u) = u
  /\ sqrt (u * u + v * v) * sin (Ratan2 v u) = v.
Proof.
  unfold Ratan2.
  assert (Hk : forall z, 0 < sqrt (1 + z²)).
  { intros z. apply sqrt_lt_R0. unfold Rsqr. nra. }
  assert (Hk2 : forall z, sqrt (1 + z²) * sqrt (1 + z²) = 1 + z * z).
  { intros z. apply sqrt_sqrt. unfold Rsqr. nra. }
  destruct (Rlt_dec 0 u) as [Hu|Hu].
  - set (zz := v / u). specialize (Hk zz). specialize (Hk2 zz).
    assert (Hrho : sqrt (u * u + v * v) = u * sqrt (1 + zz²)).
    { apply sqrt_lem_1; [nra | nra |].
      replace (u * sqrt (1 + zz²) * (u * sqrt (1 + zz²)))
        with (u * u * (sqrt (1 + zz²) * sqrt (1 + zz²))) by ring.
      rewrite Hk2. subst zz. field. lra. }
    rewrite Hrho, cos_atan, sin_atan. split; [field; lra|].
    subst zz. field. split; lra.
  - destruct (Rlt_dec u 0) as [Hu'|Hu'].
    + set (zz := v / u). specialize (Hk zz). specialize (Hk2 zz).
      assert (Hrho : sqrt (u * u + v * v) = - u * sqrt (1 + zz²)).
      { apply sqrt_lem_1; [nra | nra |].
        replace (- u * sqrt (1 + zz²) * (- u * sqrt (1 + zz²)))
          with (u * u * (sqrt (1 + zz²) * sqrt (1 + zz²))) by ring.
        rewrite Hk2. subst zz. field. lra. }
      rewrite Hrho.
      destruct (Rlt_dec v 0).
      * replace (atan zz - PI) with (- (PI - atan zz)) by ring.
        rewrite cos_neg, sin_neg.
        replace (PI - atan zz) with (- atan zz + PI) by ring.
        rewrite neg_cos, neg_sin, cos_neg, sin_neg, cos_atan, sin_atan.
        split; [field; lra|]. subst zz. field. split; lra.
      * rewrite neg_cos, neg_sin, cos_atan, sin_atan.
        split; [field; lra|]. subst zz. field. split; lra.
    + assert (u = 0) by lra. subst u.
      replace (0 * 0 + v * v) with (v * v) by ring.
      destruct (Rlt_dec 0 v).
      * rewrite cos_PI2, sin_PI2, sqrt_square; lra.
      * destruct (Rlt_dec v 0).
        -- rewrite cos_neg, sin_neg, cos_PI2, sin_PI2.
           replace (v * v) with (- v * - v) by ring.
           rewrite sqrt_square; lra.
        -- assert (v = 0) by lra. subst v.
           rewrite Rmult_0_l, sqrt_0. lra.
Qed.

Lemma cos_turn (t : R) : cos (t + 2 * PI) = cos t.
Proof. rewrite cos_plus, cos_2PI, sin_2PI. ring. Qed.

Lemma sin_turn (t : R) : sin (t + 2 * PI) = sin t.
Proof. rewrite sin_plus, cos_2PI, sin_2PI. ring. Qed.

Lemma cos_unturn (t : R) : cos (t - 2 * PI) = cos t.
Proof. rewrite <- (cos_turn (t - 2 * PI)). f_equal. ring. Qed.

Lemma sin_unturn (t : R) : sin (t - 2 * PI) = sin t.
Proof. rewrite <- (sin_turn (t - 2 * PI)). f_equal. ring. Qed.

Lemma cos_2atan (t : R) : cos (2 * atan t) = (1 - t * t) / (1 + t * t).
Proof.
  assert (Hp : 0 < 1 + t * t) by nra.
  rewrite cos_2a, cos_atan, sin_atan. unfold Rsqr.
  pose proof (sqrt_sqrt (1 + t * t) (Rlt_le _ _ Hp)) as Hs.
  pose proof (sqrt_lt_R0 _ Hp) as Hq.
  replace (1 / sqrt (1 + t * t) * (1 / sqrt (1 + t * t))
           - t / sqrt (1 + t * t) * (t / sqrt (1 + t * t)))
    with ((1 - t * t) / (sqrt (1 + t * t) * sqrt (1 + t * t)))
    by (field; lra).
  now rewrite Hs.
Qed.

Lemma sin_2atan (t : R) : sin (2 * atan t) = 2 * t / (1 + t * t).
Proof.
  assert (Hp : 0 < 1 + t * t) by nra.
  rewrite sin_2a, cos_atan, sin_atan. unfold Rsqr.
  pose proof (sqrt_sqrt (1 + t * t) (Rlt_le _ _ Hp)) as Hs.
  pose proof (sqrt_lt_R0 _ Hp) as Hq.
  replace (2 * (t / sqrt (1 + t * t)) * (1 / sqrt (1 + t * t)))
    with (2 * t / (sqrt (1 + t * t) * sqrt (1 + t * t)))
    by (field; lra).
  now rewrite Hs.
Qed.

Lemma sin_sqr_le (t : R) : sin t * sin t <= t * t.
Proof.
  assert (Hpos : forall u, 0 <= u -> - u <= sin u <= u).
  { intros u [Hu|<-]; [|rewrite sin_0; lra].
    pose proof (sin_lt_x u Hu). split; [|lra].
    destruct (Rle_lt_dec u PI) as [Hle|Hgt].
    - pose proof (sin_ge_0 u (Rlt_le _ _ Hu) Hle). lra.
    - pose proof (SIN_bound u) as [Hl _]. pose proof PI2_3_2. lra. }
  destruct (Rle_lt_dec 0 t) as [Ht|Ht].
  - destruct (Hpos t Ht). nra.
  - destruct (Hpos (- t)) as [H1 H2]; [lra|]. rewrite sin_neg in H1, H2. nra.
Qed.

Lemma PI_gt_3 : 3 < PI.
Proof. pose proof PI2_3_2. lra. Qed.

(** ** The planner over the reals *)

(** Euclidean distance in the plane. *)
Definition dist (p q : R * R) : R :=
  sqrt ((fst p - fst q) * (fst p - fst q) + (snd p - snd q) * (snd p - snd q)).

(** Squared Euclidean distance in the plane. *)
Definition sqdist (p q : R * R) : R :=
  Rsqr (fst p - fst q) + Rsqr (snd p - snd q).

(** The signed angle from [u] to [v]: [atan2] of cross and dot product. *)
Definition signedAngle (u v : R * R) : R :=
  Ratan2 (fst u * snd v - snd u * fst v) (fst u * fst v + snd u * snd v).

Lemma dist_triangle (p q r : R * R) : dist p q <= dist p r + dist r q.
Proof.
  unfold dist. destruct p as [x0 y0], q as [x1 y1], r as [x2 y2].
  cbn [fst snd]. exact (triangle x0 y0 x1 y1 x2 y2).
Qed.

Lemma dist_sym (p q : R * R) : dist p q = dist q p.
Proof. unfold dist. f_equal. ring. Qed.

Lemma dist_sqdist (p q : R * R) : dist p q = sqrt (sqdist p q).
Proof. reflexivity. Qed.

(** *** The circle segment *)

Lemma arcAngles_real (x_q y_q x_cr y_cr x_lc y_lc : R) (dir : Dir) :
  arcAngles x_q y_q x_cr y_cr x_lc y_lc dir
  = (wrap2pi (Ratan2 (y_q - y_cr) (x_q - x_cr)),
     arcStop dir (wrap2pi (Ratan2 (y_q - y_cr) (x_q - x_cr)))
       (wrap2pi (Ratan2 (y_lc - y_cr) (x_lc - x_cr)))).
Proof. reflexivity. Qed.

(** After the adjustment the stop angle lies less than a full turn ahead
    of the start angle in the commanded direction, and is the wrapped one
    up to a full turn. *)
Lemma arcStop_Left (startAngle stopAngle : R) :
  0 <= startAngle < 2 * PI -> 0 <= stopAngle < 2 * PI ->
  startAngle <= arcStop Left startAngle stopAngle < startAngle + 2 * PI
  /\ (arcStop Left startAngle stopAngle = stopAngle
      \/ arcStop Left startAngle stopAngle = stopAngle + 2 * PI).
Proof.
  intros H0 H1. unfold arcStop. real. cbn [Dir_eqb andb]. unfold Rltb.
  destruct (Rlt_dec stopAngle startAngle); split; auto; lra.
Qed.

Lemma arcStop_Right (startAngle stopAngle : R) :
  0 <= startAngle < 2 * PI -> 0 <= stopAngle < 2 * PI ->
  startAngle - 2 * PI < arcStop Right startAngle stopAngle <= startAngle
  /\ (arcStop Right startAngle stopAngle = stopAngle
      \/ arcStop Right startAngle stopAngle = stopAngle - 2 * PI).
Proof.
  intros H0 H1. unfold arcStop. real. cbn [Dir_eqb andb]. unfold Rltb.
  destruct (Rlt_dec startAngle stopAngle); split; auto; lra.
Qed.

Lemma arcStop_ahead (dir : Dir) (startAngle stopAngle : R) :
  0 <= startAngle < 2 * PI -> 0 <= stopAngle < 2 * PI ->
  0 <= IZR (Dir_to_int dir) * (arcStop dir startAngle stopAngle - startAngle)
    < 2 * PI.
Proof.
  intros H0 H1. destruct dir; cbn [Dir_to_int].
  - destruct (arcStop_Left _ _ H0 H1) as [? _]. lra.
  - destruct (arcStop_Right _ _ H0 H1) as [? _]. lra.
Qed.

Lemma arcPoint_on_circle (self : SimpleDubinsPath R)
    (x_cr y_cr i : R) :
  0 < m_turningRadius self ->
  dist (arcPoint self x_cr y_cr i) (x_cr, y_cr) = m_turningRadius self.
Proof.
  intros HR. unfold dist, arcPoint. real. cbn [fst snd].
  apply sqrt_lem_1; [|lra|].
  - nra.
  - pose proof (sin2_cos2 i) as H. unfold Rsqr in H.
    replace ((x_cr + cos i * m_turningRadius self - x_cr)
             * (x_cr + cos i * m_turningRadius self - x_cr)
             + (y_cr + sin i * m_turningRadius self - y_cr)
               * (y_cr + sin i * m_turningRadius self - y_cr))
      with (m_turningRadius self * m_turningRadius self
            * (sin i * sin i + cos i * cos i)) by ring.
    rewrite H. ring.
Qed.

(** The chord between two points of a circle is no longer than the arc. *)
Lemma chord_le_arc (self : SimpleDubinsPath R) (x_cr y_cr a h : R) :
  0 < m_turningRadius self ->
  dist (arcPoint self x_cr y_cr a) (arcPoint self x_cr y_cr (a + h))
  <= m_turningRadius self * Rabs h.
Proof.
  intros HR. unfold dist, arcPoint. real. cbn [fst snd].
  set (r := m_turningRadius self) in *.
  assert (Hrh : 0 <= r * Rabs h).
  { apply Rmult_le_pos; [lra | apply Rabs_pos]. }
  rewrite <- (sqrt_square (r * Rabs h)) by assumption.
  apply sqrt_le_1_alt.
  pose proof (sin2_cos2 a) as Ha. pose proof (sin2_cos2 (a + h)) as Hah.
  unfold Rsqr in Ha, Hah.
  pose proof (cos_minus (a + h) a) as Hc.
  replace (a + h - a) with (2 * (h / 2)) in Hc by lra.
  rewrite cos_2a_sin in Hc.
  pose proof (sin_sqr_le (h / 2)) as Hs.
  replace (r * Rabs h * (r * Rabs h)) with (r * r * (h * h)).
  - assert (E : (x_cr + cos a * r - (x_cr + cos (a + h) * r))
                * (x_cr + cos a * r - (x_cr + cos (a + h) * r))
                + (y_cr + sin a * r - (y_cr + sin (a + h) * r))
                  * (y_cr + sin a * r - (y_cr + sin (a + h) * r))
                = r * r * (4 * (sin (h / 2) * sin (h / 2)))).
    { nra. }
    rewrite E. assert (0 < r * r) by nra. nra.
  - replace (r * Rabs h * (r * Rabs h)) with (r * r * (Rabs h * Rabs h))
      by ring.
    f_equal. unfold Rabs. destruct (Rcase_abs h); ring.
Qed.

(** *** Both loops of [generatePath] stop *)

Section RealLoops.
Variable self : SimpleDubinsPath R.
Hypothesis radius_pos : 0 < m_turningRadius self.
Hypothesis resolution_pos : 0 < m_pathResolution self.

Lemma angleIncrement_pos : 0 < m_pathResolution self / m_turningRadius self.
Proof. apply Rdiv_lt_0_compat; assumption. Qed.

Lemma arcTrace_stops (startAngle stopAngle : R) (dir : Dir) :
  0 <= IZR (Dir_to_int dir) * (stopAngle - startAngle) ->
  exists (n : nat) (l : list R),
    forall fuel, (n < fuel)%nat ->
      arcTrace self fuel startAngle stopAngle dir = Some l.
Proof.
  intros Hdir. pose proof angleIncrement_pos as Hinc. unfold arcTrace.
  apply (approach_stops (arcCond self stopAngle) (arcNext self dir)
           (fun i => i) stopAngle
           (m_pathResolution self / m_turningRadius self)
           (IZR (Dir_to_int dir)
            * (m_pathResolution self / m_turningRadius self))).
  - reflexivity.
  - reflexivity.
  - destruct dir; cbn [Dir_to_int].
    + rewrite Rmult_1_l, Rabs_right; lra.
    + rewrite Rabs_left; lra.
  - destruct dir; cbn [Dir_to_int] in *; nra.
Qed.

Lemma lineTrace_stops (x_n y_n x_lc y_lc : R) :
  exists (n : nat) (l : list R),
    forall fuel, (n < fuel)%nat ->
      lineTrace self fuel x_n y_n x_lc y_lc = Some l.
Proof.
  unfold lineTrace. real.
  set (dx := x_n - x_lc). set (dy := y_n - y_lc).
  set (nrm := sqrt (dx * dx + dy * dy)).
  assert (cond_def : forall i,
    lineCond self x_n y_n x_lc y_lc i
    = Rltb (2 * m_pathResolution self)
        (Rabs (i * m_pathResolution self * (dx / nrm) - dx)))
    by reflexivity.
  assert (next_def : forall i,
    (i + 1) * m_pathResolution self * (dx / nrm)
    = i * m_pathResolution self * (dx / nrm)
      + m_pathResolution self * (dx / nrm)) by (intros; ring).
  destruct (Req_dec dx 0) as [Hz|Hnz].
  - exists 0%nat, []. intros [|fuel] Hf; [lia|].
    apply (approach_none _ _ _ _ _ cond_def).
    replace (0 * m_pathResolution self * (dx / nrm) - dx) with 0
      by (rewrite Hz; ring).
    rewrite Rabs_R0. lra.
  - pose proof (abs_le_norm dx dy) as Hn. fold nrm in Hn.
    assert (Habs : 0 < Rabs dx) by now apply Rabs_pos_lt.
    assert (Hnrm : 0 < nrm) by lra.
    assert (Hq : Rabs (dx / nrm) = Rabs dx / nrm).
    { unfold Rdiv. rewrite Rabs_mult, (Rabs_right (/ nrm)); [reflexivity|].
      left. now apply Rinv_0_lt_compat. }
    apply (approach_stops _ _ _ _ _ _ cond_def next_def).
    + rewrite Rabs_mult, (Rabs_right (m_pathResolution self)), Hq by lra.
      split.
      * apply Rmult_lt_0_compat; [lra|]. now apply Rdiv_lt_0_compat.
      * assert (Rabs dx / nrm <= 1).
        { apply (Rmult_le_reg_r nrm); [lra|]. unfold Rdiv.
          rewrite Rmult_assoc, Rinv_l; lra. }
        nra.
    + rewrite !Rmult_0_l, Rminus_0_r.
      replace (m_pathResolution self * (dx / nrm) * dx)
        with (m_pathResolution self * (dx * dx) * / nrm) by (field; lra).
      apply Rmult_le_pos; [nra|]. left. now apply Rinv_0_lt_compat.
Qed.

(** With a positive radius and resolution [generatePath] returns, given
    fuel enough, for every pose, target and tangent point. *)
Lemma generatePath_stops (x_q y_q x_n y_n x_cr y_cr x_lc y_lc : R)
    (dir : Dir) :
  exists (n : nat) (la ll : list R),
    forall fuel, (n < fuel)%nat ->
      arcTrace self fuel
        (fst (arcAngles x_q y_q x_cr y_cr x_lc y_lc dir))
        (snd (arcAngles x_q y_q x_cr y_cr x_lc y_lc dir)) dir = Some la
      /\ lineTrace self fuel x_n y_n x_lc y_lc = Some ll.
Proof.
  rewrite arcAngles_real. cbn [fst snd].
  destruct (arcTrace_stops
              (wrap2pi (Ratan2 (y_q - y_cr) (x_q - x_cr)))
              (arcStop dir (wrap2pi (Ratan2 (y_q - y_cr) (x_q - x_cr)))
                 (wrap2pi (Ratan2 (y_lc - y_cr) (x_lc - x_cr)))) dir)
    as (n1 & la & Ha).
  { apply arcStop_ahead; apply wrap2pi_atan2. }
  destruct (lineTrace_stops x_n y_n x_lc y_lc) as (n2 & ll & Hl).
  exists (Nat.max n1 n2), la, ll. intros fuel Hf. split.
  - apply Ha. lia.
  - apply Hl. lia.
Qed.
End RealLoops.

(** With a positive radius and resolution [generatePath] returns. *)
Lemma generatePath_returns (self : SimpleDubinsPath R)
    (x_q y_q x_n y_n x_cr y_cr x_lc y_lc : R) (dir : Dir) :
  0 < m_turningRadius self -> 0 < m_pathResolution self ->
  exists n : nat,
    forall fuel (goal : PoseStamped R) (path : Path R) (w : World),
      (n < fuel)%nat ->
      exists (path' : Path R) (w' : World),
        generatePath self fuel x_q y_q x_n y_n x_cr y_cr x_lc y_lc dir
          goal path w = Some (path', w').
Proof.
  intros HR Hs.
  destruct (generatePath_stops self HR Hs x_q y_q x_n y_n x_cr y_cr
              x_lc y_lc dir) as (n & la & ll & H).
  exists n. intros fuel goal path w Hf. destruct (H fuel Hf) as [Ha Hl].
  rewrite generatePath_trace.
  destruct (arcAngles x_q y_q x_cr y_cr x_lc y_lc dir) as [a0 a1].
  cbn [fst snd] in Ha. rewrite Ha, Hl. eexists _, _. reflexivity.
Qed.

(** *** What the loops emit *)

Section RealSpacing.
Variable self : SimpleDubinsPath R.
Hypothesis radius_pos : 0 < m_turningRadius self.
Hypothesis resolution_pos : 0 < m_pathResolution self.

Lemma arcTrace_steps (fuel : nat) (startAngle stopAngle : R) (dir : Dir)
    (la : list R) :
  arcTrace self fuel startAngle stopAngle dir = Some la ->
  la = map (fun k => startAngle
                     + INR k * (IZR (Dir_to_int dir)
                                * (m_pathResolution self
                                   / m_turningRadius self)))
         (List.seq 0 (length la)).
Proof.
  intros H. unfold arcTrace in H.
  assert (next_def : forall i,
    (fun j => j) (arcNext self dir i)
    = (fun j => j) i
      + IZR (Dir_to_int dir)
        * (m_pathResolution self / m_turningRadius self)) by reflexivity.
  pose proof (emitted_steps _ _ _ _ next_def _ _ _ H) as E.
  now rewrite map_id in E.
Qed.

Lemma lineTrace_steps (fuel : nat) (x_n y_n x_lc y_lc : R) (ll : list R) :
  lineTrace self fuel x_n y_n x_lc y_lc = Some ll ->
  ll = map INR (List.seq 0 (length ll)).
Proof.
  intros H. unfold lineTrace in H. real.
  assert (next_def : forall i,
    (fun j => j) ((fun j => j + 1) i) = (fun j => j) i + 1) by reflexivity.
  pose proof (emitted_steps _ _ _ _ next_def _ _ _ H) as E.
  rewrite map_id in E. rewrite E at 1. apply map_ext. intros k. ring.
Qed.

(** A counter the line loop emits at: the sample is more than two
    spacings from the target, already along x. *)
Lemma linePoint_far (x_n y_n x_lc y_lc i : R) :
  lineCond self x_n y_n x_lc y_lc i = true ->
  2 * m_pathResolution self
  < dist (linePoint self x_n y_n x_lc y_lc i) (x_n, y_n).
Proof.
  unfold lineCond, linePoint, dist. real. cbv zeta. cbn [fst snd].
  intros H. apply Rltb_true_iff in H.
  eapply Rlt_le_trans; [exact H|].
  replace (i * m_pathResolution self
           * ((x_n - x_lc)
              / sqrt ((x_n - x_lc) * (x_n - x_lc)
                      + (y_n - y_lc) * (y_n - y_lc)))
           - (x_n - x_lc))
    with (x_lc
          + i * m_pathResolution self
            * ((x_n - x_lc)
               / sqrt ((x_n - x_lc) * (x_n - x_lc)
                       + (y_n - y_lc) * (y_n - y_lc)))
          - x_n) by ring.
  apply abs_le_norm.
Qed.

(** Two successive counters: the samples are one spacing apart, unless
    the tangent point and the target have the same x. *)
Lemma linePoint_step (x_n y_n x_lc y_lc i : R) :
  x_n - x_lc <> 0 ->
  dist (linePoint self x_n y_n x_lc y_lc i)
       (linePoint self x_n y_n x_lc y_lc (i + 1))
  = m_pathResolution self.
Proof.
  intros Hdx. unfold linePoint, dist. real. cbv zeta. cbn [fst snd].
  set (dx := x_n - x_lc) in *. set (dy := y_n - y_lc).
  set (s := m_pathResolution self) in *.
  pose proof (abs_le_norm dx dy) as Hn.
  assert (Habs : 0 < Rabs dx) by now apply Rabs_pos_lt.
  set (nrm := sqrt (dx * dx + dy * dy)) in *.
  assert (Hnrm : 0 < nrm) by lra.
  assert (Hsq : nrm * nrm = dx * dx + dy * dy).
  { apply sqrt_sqrt. nra. }
  apply sqrt_lem_1; [nra | lra |].
  replace (x_lc + i * s * (dx / nrm) - (x_lc + (i + 1) * s * (dx / nrm)))
    with (- (s * (dx / nrm))) by ring.
  replace (y_lc + i * s * (dy / nrm) - (y_lc + (i + 1) * s * (dy / nrm)))
    with (- (s * (dy / nrm))) by ring.
  replace (- (s * (dx / nrm)) * - (s * (dx / nrm))
           + - (s * (dy / nrm)) * - (s * (dy / nrm)))
    with (s * s * ((dx * dx + dy * dy) / (nrm * nrm))) by (field; lra).
  rewrite <- Hsq. field. lra.
Qed.

(** The line loop emits only when the target is off the tangent point
    along x. *)
Lemma lineTrace_nonempty (fuel : nat) (x_n y_n x_lc y_lc : R) (ll : list R) :
  lineTrace self fuel x_n y_n x_lc y_lc = Some ll -> ll <> [] ->
  x_n - x_lc <> 0.
Proof.
  intros H Hne E. apply Hne. unfold lineTrace in H. real.
  destruct fuel as [|fuel]; [discriminate|].
  rewrite (approach_none (lineCond self x_n y_n x_lc y_lc) (fun j => j + 1)
             (fun j => j * m_pathResolution self
                       * ((x_n - x_lc)
                          / sqrt ((x_n - x_lc) * (x_n - x_lc)
                                  + (y_n - y_lc) * (y_n - y_lc))))
             (x_n - x_lc) (m_pathResolution self)) in H.
  - now injection H as <-.
  - reflexivity.
  - rewrite E. unfold Rdiv. rewrite !Rmult_0_l, Rminus_0_r, Rabs_R0. lra.
Qed.
End RealSpacing.

Lemma line_samples_far (self : SimpleDubinsPath R) (fuel : nat)
    (x_n y_n x_lc y_lc : R) (ll : list R) (w : World) :
  lineTrace self fuel x_n y_n x_lc y_lc = Some ll ->
  Forall (fun p => 2 * m_pathResolution self < dist (xy p) (x_n, y_n))
    (samples (linePoint self x_n y_n x_lc y_lc) w ll).
Proof.
  intros Hl. apply Forall_forall. intros q Hq.
  apply (in_map xy) in Hq. rewrite samples_xy in Hq.
  apply in_map_iff in Hq as (i & <- & Hi).
  apply linePoint_far.
  pose proof (for_trace_cond _ _ _ _ _ Hl) as Hc.
  rewrite Forall_forall in Hc. now apply Hc.
Qed.

Section Transition.
Variable self : SimpleDubinsPath R.
Hypothesis radius_pos : 0 < m_turningRadius self.
Hypothesis resolution_pos : 0 < m_pathResolution self.

(** The last angle the arc loop emits at is more than two and at most
    three increments short of the stop angle. *)
Lemma arc_last_near_stop (fuel : nat) (startAngle stopAngle : R) (dir : Dir)
    (la : list R) (d : R) :
  0 <= IZR (Dir_to_int dir) * (stopAngle - startAngle) ->
  arcTrace self fuel startAngle stopAngle dir = Some la -> la <> [] ->
  Rabs (stopAngle - last la d)
  <= 3 * (m_pathResolution self / m_turningRadius self).
Proof.
  intros Hdir H Hne. pose proof (angleIncrement_pos self radius_pos
                                   resolution_pos) as Hinc.
  unfold arcTrace in H.
  assert (cond_def : forall i,
    arcCond self stopAngle i
    = Rltb (2 * (m_pathResolution self / m_turningRadius self))
        (Rabs ((fun j => j) i - stopAngle))) by reflexivity.
  assert (next_def : forall i,
    (fun j => j) (arcNext self dir i)
    = (fun j => j) i
      + IZR (Dir_to_int dir)
        * (m_pathResolution self / m_turningRadius self)) by reflexivity.
  destruct dir; cbn [Dir_to_int] in *.
  - destruct (emitted_last_up _ _ _ _ _ _ fuel cond_def next_def)
      with (i := startAngle) (l := la) (d := d) as [H1 H2];
      try assumption; try lra.
    rewrite Rabs_right; lra.
  - destruct (emitted_last_down _ _ _ _ _ _ fuel cond_def next_def)
      with (i := startAngle) (l := la) (d := d) as [H1 H2];
      try assumption; try lra.
    rewrite Rabs_left; lra.
Qed.

(** So the last arc sample is within three spacings of the arc point at
    the stop angle. *)
Lemma arc_last_to_stop (fuel : nat) (x_cr y_cr startAngle stopAngle : R)
    (dir : Dir) (la : list R) (d : R) :
  0 <= IZR (Dir_to_int dir) * (stopAngle - startAngle) ->
  arcTrace self fuel startAngle stopAngle dir = Some la -> la <> [] ->
  dist (arcPoint self x_cr y_cr (last la d))
       (arcPoint self x_cr y_cr stopAngle)
  <= 3 * m_pathResolution self.
Proof.
  intros Hdir H Hne.
  pose proof (arc_last_near_stop fuel _ _ _ _ d Hdir H Hne) as Hb.
  assert (E : arcPoint self x_cr y_cr stopAngle
              = arcPoint self x_cr y_cr
                  (last la d + (stopAngle - last la d)))
    by (f_equal; ring).
  rewrite E. eapply Rle_trans; [apply chord_le_arc; exact radius_pos|].
  replace (3 * m_pathResolution self)
    with (m_turningRadius self
          * (3 * (m_pathResolution self / m_turningRadius self)))
    by (field; lra).
  apply Rmult_le_compat_l; lra.
Qed.

(** Neighbouring arc samples are at most one spacing apart. *)
Lemma arc_samples_spaced (fuel : nat) (x_cr y_cr startAngle stopAngle : R)
    (dir : Dir) (la : list R) :
  arcTrace self fuel startAngle stopAngle dir = Some la ->
  consecutive (fun p q => 0 <= dist p q <= m_pathResolution self)
    (map (arcPoint self x_cr y_cr) la).
Proof.
  intros H. rewrite (arcTrace_steps self _ _ _ _ _ H), map_map.
  apply consecutive_map_seq. intros k. split; [apply sqrt_pos|].
  rewrite S_INR.
  set (h := IZR (Dir_to_int dir)
            * (m_pathResolution self / m_turningRadius self)).
  replace (startAngle + (INR k + 1) * h) with (startAngle + INR k * h + h)
    by ring.
  eapply Rle_trans; [apply chord_le_arc; exact radius_pos|].
  pose proof (angleIncrement_pos self radius_pos resolution_pos) as Hinc.
  assert (E : Rabs h = m_pathResolution self / m_turningRadius self).
  { subst h. destruct dir; cbn [Dir_to_int].
    - rewrite Rmult_1_l. apply Rabs_right. lra.
    - rewrite Rabs_left; lra. }
  rewrite E. right. field. lra.
Qed.

(** Neighbouring line samples are exactly one spacing apart. *)
Lemma line_samples_spaced (fuel : nat) (x_n y_n x_lc y_lc : R)
    (ll : list R) :
  lineTrace self fuel x_n y_n x_lc y_lc = Some ll ->
  consecutive (fun p q => dist p q = m_pathResolution self)
    (map (linePoint self x_n y_n x_lc y_lc) ll).
Proof.
  intros H. destruct ll as [|i0 ll0] eqn:Ell; [exact I|]. rewrite <- Ell in *.
  assert (Hdx : x_n - x_lc <> 0).
  { apply (lineTrace_nonempty self resolution_pos fuel x_n y_n x_lc y_lc ll H).
    rewrite Ell. discriminate. }
  rewrite (lineTrace_steps self _ _ _ _ _ _ H), map_map.
  apply consecutive_map_seq. intros k. rewrite S_INR.
  now apply linePoint_step.
Qed.

(** The first line sample is the tangent point. *)
Lemma line_first (fuel : nat) (x_n y_n x_lc y_lc : R) (i : R) (ll : list R) :
  lineTrace self fuel x_n y_n x_lc y_lc = Some (i :: ll) ->
  linePoint self x_n y_n x_lc y_lc i = (x_lc, y_lc).
Proof.
  intros H. assert (i = 0) as ->.
  { unfold lineTrace in H. destruct fuel as [|fuel]; [discriminate|].
    cbn [for_trace] in H.
    destruct (lineCond self x_n y_n x_lc y_lc _); [|discriminate].
    destruct (for_trace fuel _ _ _); [|discriminate].
    now injection H as <- _. }
  unfold linePoint. real. cbv zeta. f_equal; ring.
Qed.

End Transition.

(** *** The tangent angles and the tangent point *)

Lemma forceBeta_nonneg (beta : R) : 0 <= beta -> forceBeta beta = beta.
Proof. intros H. unfold forceBeta. real. now rewrite Rltb_ge. Qed.

Lemma forceBeta_neg (beta : R) : beta < 0 -> forceBeta beta = beta + PI.
Proof. intros H. unfold forceBeta. real. now rewrite Rltb_lt. Qed.

(** [tangentLine] away from the near-degenerate branch, the square root
    taken. *)
Lemma tangentLine_regular (self : SimpleDubinsPath R)
    (x_n y_n x_cr y_cr root : R) :
  let a := x_cr - x_n in
  let b := y_n - y_cr in
  let r := m_turningRadius self in
  / 4503599627370496 <= Rabs (b + r) ->
  0 <= root -> root * root = a * a + b * b - r * r ->
  tangentLine self x_n y_n x_cr y_cr
  = (forceBeta (2 * atan ((a + root) / (b + r))),
     forceBeta (2 * atan ((a - root) / (b + r)))).
Proof.
  intros a b r Hb Hroot Hsq. rewrite tangentLine_eq.
  assert (Hn : nearDegenerate self y_n y_cr = false).
  { unfold nearDegenerate. real. now apply Rltb_ge. }
  unfold denominator. rewrite Hn.
  assert (Hr : sqrt (radicand self x_n y_n x_cr y_cr) = root).
  { apply sqrt_lem_1; [|assumption|].
    - unfold radicand. real. fold a b r. nra.
    - unfold radicand. real. fold a b r. lra. }
  real. now rewrite Hr.
Qed.

(** The candidate of [tangentPoint] for an angle beta is the foot of the
    perpendicular from the centre to the line through the target with
    direction beta. *)
Lemma tangentCandidate_real (x_n y_n x_cr y_cr beta : R) :
  let D_ := (y_n - y_cr) * cos beta - (x_n - x_cr) * sin beta in
  tangentCandidate x_n y_n x_cr y_cr beta
  = (x_cr - D_ * sin beta, y_cr + D_ * cos beta).
Proof.
  intros D_. unfold tangentCandidate. real. cbv zeta.
  pose proof (sin2_cos2 beta) as H. unfold Rsqr in H.
  replace ((x_n - x_cr - (x_n + cos beta - x_cr))
           * (x_n - x_cr - (x_n + cos beta - x_cr))
           + (y_n - y_cr - (y_n + sin beta - y_cr))
             * (y_n - y_cr - (y_n + sin beta - y_cr)))
    with 1 by (rewrite <- H; ring).
  rewrite sqrt_1. subst D_. f_equal; field.
Qed.

(** Turning left, a first candidate behind the start vector (negative
    cross product) loses to a second one that is not. *)
Lemma tangentPoint_Left_second (x_q y_q x_n y_n x_cr y_cr beta1 beta2 : R) :
  let p1 := tangentCandidate x_n y_n x_cr y_cr beta1 in
  let p2 := tangentCandidate x_n y_n x_cr y_cr beta2 in
  (x_q - x_cr) * (snd p1 - y_cr) - (y_q - y_cr) * (fst p1 - x_cr) < 0 ->
  0 <= (x_q - x_cr) * (snd p2 - y_cr) - (y_q - y_cr) * (fst p2 - x_cr) ->
  tangentPoint x_q y_q x_n y_n x_cr y_cr beta1 beta2 Left = p2.
Proof.
  intros p1 p2 H1 H2. rewrite tangentPoint_eq. fold p1 p2.
  unfold sweepAngle. real. cbv zeta.
  set (u1 := (x_q - x_cr) * (fst p1 - x_cr) + (y_q - y_cr) * (snd p1 - y_cr)).
  set (u2 := (x_q - x_cr) * (fst p2 - x_cr) + (y_q - y_cr) * (snd p2 - y_cr)).
  pose proof (wrap2pi_atan2_neg _ u1 H1) as Ha.
  pose proof (wrap2pi_atan2_nonneg _ u2 H2) as Hb.
  unfold wrap2pi in Ha, Hb.
  rewrite Rltb_ge; [reflexivity|]. lra.
Qed.

(** Whatever point the stop angle was taken from, the arc point at the
    stop angle is as far from it as that point is from the circle. *)
Lemma arcPoint_stop_dist (self : SimpleDubinsPath R)
    (x_q y_q x_cr y_cr x_lc y_lc : R) (dir : Dir) :
  dist (arcPoint self x_cr y_cr
          (snd (arcAngles x_q y_q x_cr y_cr x_lc y_lc dir)))
       (x_lc, y_lc)
  = Rabs (dist (x_lc, y_lc) (x_cr, y_cr) - m_turningRadius self).
Proof.
  pose proof (Ratan2_polar (x_lc - x_cr) (y_lc - y_cr)) as [Hc Hs].
  rewrite arcAngles_real. cbn [snd]. unfold arcPoint. real.
  set (a0 := wrap2pi (Ratan2 (y_q - y_cr) (x_q - x_cr))).
  assert (Hw : cos (wrap2pi (Ratan2 (y_lc - y_cr) (x_lc - x_cr)))
               = cos (Ratan2 (y_lc - y_cr) (x_lc - x_cr))
               /\ sin (wrap2pi (Ratan2 (y_lc - y_cr) (x_lc - x_cr)))
                  = sin (Ratan2 (y_lc - y_cr) (x_lc - x_cr))).
  { unfold wrap2pi. destruct (Rltb _ 0); [|auto].
    now rewrite cos_turn, sin_turn. }
  set (a1 := wrap2pi (Ratan2 (y_lc - y_cr) (x_lc - x_cr))) in *.
  assert (Hs' : cos (arcStop dir a0 a1) = cos a1
                /\ sin (arcStop dir a0 a1) = sin a1).
  { unfold arcStop. real.
    destruct (Dir_eqb dir Left && Rltb a1 a0);
      [now rewrite cos_turn, sin_turn|].
    destruct (Dir_eqb dir Right && Rltb a0 a1);
      [now rewrite cos_unturn, sin_unturn | auto]. }
  destruct Hs' as [-> ->]. destruct Hw as [-> ->].
  unfold dist. cbn [fst snd].
  set (rho := sqrt ((x_lc - x_cr) * (x_lc - x_cr)
                    + (y_lc - y_cr) * (y_lc - y_cr))) in *.
  set (al := Ratan2 (y_lc - y_cr) (x_lc - x_cr)) in *.
  set (r := m_turningRadius self).
  pose proof (sin2_cos2 al) as Hone. unfold Rsqr in Hone.
  replace ((x_cr + cos al * r - x_lc) * (x_cr + cos al * r - x_lc)
           + (y_cr + sin al * r - y_lc) * (y_cr + sin al * r - y_lc))
    with (Rsqr (rho - r)).
  - apply sqrt_Rsqr_abs.
  - unfold Rsqr.
    replace (x_cr + cos al * r - x_lc) with (cos al * (r - rho)) by lra.
    replace (y_cr + sin al * r - y_lc) with (sin al * (r - rho)) by lra.
    replace (cos al * (r - rho) * (cos al * (r - rho))
             + sin al * (r - rho) * (sin al * (r - rho)))
      with ((sin al * sin al + cos al * cos al) * ((r - rho) * (r - rho)))
      by ring.
    rewrite Hone. ring.
Qed.

(** *** The facade *)

Section RealFacade.
Context {tf : Tf R}.
Variable self : SimpleDubinsPath R.

(** The centre [makePath] selects for a start pose and a goal. *)
Definition selectedCenter (start goal : PoseStamped R) : R * R :=
  turningCenter self (x (position (pose start))) (y (position (pose start)))
    (getYaw (orientation (pose start)))
    (x (position (pose goal))) (y (position (pose goal))).

Lemma unreachable_lt (x_n y_n x_cr y_cr : R) :
  unreachable self x_n y_n x_cr y_cr = true
  <-> dist (x_n, y_n) (x_cr, y_cr) < m_turningRadius self.
Proof. apply Rltb_true_iff. Qed.

Lemma unreachable_ge (x_n y_n x_cr y_cr : R) :
  unreachable self x_n y_n x_cr y_cr = false
  <-> m_turningRadius self <= dist (x_n, y_n) (x_cr, y_cr).
Proof. apply Rltb_false_iff. Qed.

(** A reachable target: with fuel enough [makePath] returns true, and the
    new poses are the arc samples, the line samples and the goal. *)
Lemma makePath_stops (start goal : PoseStamped R) :
  0 < m_turningRadius self -> 0 < m_pathResolution self ->
  m_turningRadius self <= dist (xy goal) (selectedCenter start goal) ->
  exists (n : nat) (la ll : list R),
    forall fuel (path : Path R) (w : World), (n < fuel)%nat ->
      exists (path' : Path R) (w' : World) (arc line : list (PoseStamped R)),
        makePath self fuel start goal path w = Some (true, path', w')
        /\ poses path' = arc ++ line ++ [goal]
        /\ map xy arc
           = map (arcPoint self (fst (selectedCenter start goal))
                    (snd (selectedCenter start goal))) la
        /\ map xy line
           = map (let t := selectedTangent self
                             (x (position (pose start)))
                             (y (position (pose start)))
                             (getYaw (orientation (pose start)))
                             (x (position (pose goal)))
                             (y (position (pose goal))) in
                  linePoint self (x (position (pose goal)))
                    (y (position (pose goal))) (fst t) (snd t)) ll.
Proof.
  intros HR Hs Hd.
  set (x_q := x (position (pose start))).
  set (y_q := y (position (pose start))).
  set (theta_q := getYaw (orientation (pose start))).
  set (x_n := x (position (pose goal))). set (y_n := y (position (pose goal))).
  set (c := selectedCenter start goal) in *.
  set (t := selectedTangent self x_q y_q theta_q x_n y_n).
  destruct (generatePath_stops self HR Hs x_q y_q x_n y_n (fst c) (snd c)
              (fst t) (snd t) (turningDirection x_q y_q theta_q x_n y_n))
    as (n & la & ll & Hn).
  exists n, la, ll. intros fuel path w Hf.
  destruct (Hn fuel Hf) as [Ha Hl].
  rewrite makePath_eq. fold x_q y_q theta_q x_n y_n t.
  change (turningCenter self x_q y_q theta_q x_n y_n) with c.
  assert (Hu : unreachable self x_n y_n (fst c) (snd c) = false).
  { apply unreachable_ge. destruct c. exact Hd. }
  rewrite Hu, generatePath_trace.
  destruct (arcAngles x_q y_q (fst c) (snd c) (fst t) (snd t)
              (turningDirection x_q y_q theta_q x_n y_n)) as [a0 a1].
  cbn [fst snd] in Ha. rewrite Ha, Hl.
  eexists _, _, _, _. split; [reflexivity|]. cbn [poses].
  split; [reflexivity|]. split; apply samples_xy.
Qed.
End RealFacade.

(** *** The centre, the tangent point and the number of samples *)

(** The side of the heading line the target is on: the quantity
    [turningDirection] tests. *)
Definition side (x_q y_q theta_q x_n y_n : R) : R :=
  - (x_n - x_q) * sin theta_q + (y_n - y_q) * cos theta_q.

(** The two candidate centres of [turningCenter]: [x_cr1], [y_cr1] to the
    right of the heading and [x_cr2], [y_cr2] to its left. *)
Definition rightCenter (self : SimpleDubinsPath R) (x_q y_q theta_q : R)
    : R * R :=
  (x_q + sin theta_q * m_turningRadius self,
   y_q - cos theta_q * m_turningRadius self).

Definition leftCenter (self : SimpleDubinsPath R) (x_q y_q theta_q : R)
    : R * R :=
  (x_q - sin theta_q * m_turningRadius self,
   y_q + cos theta_q * m_turningRadius self).

(** The difference of the two squared distances compared by
    [turningCenter] is four times the radius times the side. *)
Lemma turningCenter_side (self : SimpleDubinsPath R)
    (x_q y_q theta_q x_n y_n : R) :
  turningCenter self x_q y_q theta_q x_n y_n
  = if Rltb (4 * m_turningRadius self * side x_q y_q theta_q x_n y_n) 0
    then rightCenter self x_q y_q theta_q
    else leftCenter self x_q y_q theta_q.
Proof.
  unfold turningCenter, pow2, rightCenter, leftCenter, side. real.
  set (r := m_turningRadius self). set (s := sin theta_q).
  set (c := cos theta_q).
  assert (E : (x_n - (x_q + s * r)) * (x_n - (x_q + s * r))
              + (y_n - (y_q - c * r)) * (y_n - (y_q - c * r))
              - ((x_n - (x_q - s * r)) * (x_n - (x_q - s * r))
                 + (y_n - (y_q + c * r)) * (y_n - (y_q + c * r)))
              = 4 * r * (- (x_n - x_q) * s + (y_n - y_q) * c)) by ring.
  unfold Rltb.
  destruct (Rlt_dec _ _) as [H|H]; destruct (Rlt_dec _ 0) as [H'|H'];
    try reflexivity; exfalso; lra.
Qed.

(** The centre returned is at distance |R| from the robot's position. *)
Lemma turningCenter_dist (self : SimpleDubinsPath R)
    (x_q y_q theta_q x_n y_n : R) :
  dist (turningCenter self x_q y_q theta_q x_n y_n) (x_q, y_q)
  = Rabs (m_turningRadius self).
Proof.
  rewrite turningCenter_side.
  pose proof (sin2_cos2 theta_q) as H. unfold Rsqr in H.
  set (r := m_turningRadius self).
  assert (Hd : forall u v, u * u + v * v = r * r ->
            sqrt (u * u + v * v) = Rabs r).
  { intros u v E. rewrite E. fold (Rsqr r). apply sqrt_Rsqr_abs. }
  destruct (Rltb _ 0); unfold rightCenter, leftCenter, dist; cbn [fst snd];
    fold r; apply Hd; nra.
Qed.

(** The arc loop emits no more often than the sweep holds increments. *)
Lemma arcTrace_length (self : SimpleDubinsPath R) (fuel : nat)
    (startAngle stopAngle : R) (dir : Dir) (la : list R) :
  0 < m_turningRadius self -> 0 < m_pathResolution self ->
  0 <= IZR (Dir_to_int dir) * (stopAngle - startAngle) ->
  arcTrace self fuel startAngle stopAngle dir = Some la ->
  INR (length la) * (m_pathResolution self / m_turningRadius self)
  <= IZR (Dir_to_int dir) * (stopAngle - startAngle).
Proof.
  intros HR Hs Hdir H.
  pose proof (angleIncrement_pos self HR Hs) as Hinc.
  unfold arcTrace in H.
  assert (cond_def : forall i,
    arcCond self stopAngle i
    = Rltb (2 * (m_pathResolution self / m_turningRadius self))
        (Rabs ((fun j => j) i - stopAngle))) by reflexivity.
  assert (next_def : forall i,
    (fun j => j) (arcNext self dir i)
    = (fun j => j) i
      + IZR (Dir_to_int dir)
        * (m_pathResolution self / m_turningRadius self)) by reflexivity.
  destruct dir; cbn [Dir_to_int] in *.
  - destruct (emitted_up _ _ _ _ _ _ cond_def next_def fuel)
      with (i := startAngle) (l := la) as [_ Hlen];
      try assumption; lra.
  - destruct (emitted_down _ _ _ _ _ _ fuel cond_def next_def)
      with (i := startAngle) (l := la) as [_ Hlen];
      try assumption; lra.
Qed.

(** The counters the line loop emits at are not negative and stop short
    of the target: the loop does not step over it. *)
Lemma lineTrace_before_goal (self : SimpleDubinsPath R) (fuel : nat)
    (x_n y_n x_lc y_lc : R) (ll : list R) :
  0 < m_pathResolution self ->
  lineTrace self fuel x_n y_n x_lc y_lc = Some ll ->
  Forall (fun i => 0 <= i
                   /\ i * m_pathResolution self
                      < sqrt ((x_n - x_lc) * (x_n - x_lc)
                              + (y_n - y_lc) * (y_n - y_lc))) ll
  /\ INR (length ll) * m_pathResolution self
     <= sqrt ((x_n - x_lc) * (x_n - x_lc) + (y_n - y_lc) * (y_n - y_lc)).
Proof.
  intros Hs H. destruct ll as [|i0 ll0] eqn:Ell.
  { split; [constructor|]. cbn [length INR]. rewrite Rmult_0_l.
    apply sqrt_pos. }
  rewrite <- Ell in *.
  assert (Hdx : x_n - x_lc <> 0).
  { apply (lineTrace_nonempty self Hs fuel x_n y_n x_lc y_lc ll H).
    rewrite Ell. discriminate. }
  pose proof (lineTrace_steps self _ _ _ _ _ _ H) as Hsteps.
  unfold lineTrace in H. real.
  set (dx := x_n - x_lc) in *. set (dy := y_n - y_lc).
  set (s := m_pathResolution self) in *.
  pose proof (abs_le_norm dx dy) as Hn.
  assert (Habs : 0 < Rabs dx) by now apply Rabs_pos_lt.
  set (nrm := sqrt (dx * dx + dy * dy)) in *.
  assert (Hnrm : 0 < nrm) by lra.
  assert (Hq : 0 < Rabs dx / nrm <= 1).
  { split; [now apply Rdiv_lt_0_compat|].
    apply (Rmult_le_reg_r nrm); [lra|]. unfold Rdiv.
    rewrite Rmult_assoc, Rinv_l; lra. }
  assert (cond_def : forall i,
    lineCond self x_n y_n x_lc y_lc i
    = Rltb (2 * s) (Rabs (i * s * (Rabs dx / nrm) - Rabs dx))).
  { intros i. unfold lineCond. real. cbv zeta. fold dx dy nrm s. f_equal.
    destruct (Rcase_abs dx) as [Hneg|Hpos].
    - rewrite (Rabs_left dx Hneg).
      replace (i * s * (- dx / nrm) - - dx)
        with (- (i * s * (dx / nrm) - dx)) by (field; lra).
      now rewrite Rabs_Ropp.
    - now rewrite (Rabs_right dx Hpos). }
  assert (next_def : forall i,
    (i + 1) * s * (Rabs dx / nrm)
    = i * s * (Rabs dx / nrm) + s * (Rabs dx / nrm)) by (intros; ring).
  destruct (emitted_up _ _ _ _ _ _ cond_def next_def fuel) with (i := 0)
    (l := ll) as [Hall Hlen]; [nra | lra | exact H |].
  split.
  2:{ assert (Hlt : INR (length ll) * s / nrm * Rabs dx <= 1 * Rabs dx).
      { replace (INR (length ll) * s / nrm * Rabs dx)
          with (INR (length ll) * (s * (Rabs dx / nrm))) by (field; lra).
        lra. }
      apply Rmult_le_reg_r in Hlt; [|exact Habs].
      apply (Rmult_le_reg_r (/ nrm)); [now apply Rinv_0_lt_compat|].
      rewrite Rinv_r by lra. exact Hlt. }
  rewrite Forall_forall in Hall |- *. intros i Hi. split.
  - rewrite Hsteps in Hi. apply in_map_iff in Hi as (k & <- & _).
    apply pos_INR.
  - specialize (Hall i Hi). cbv beta in Hall.
    assert (Hlt : i * s * (Rabs dx / nrm) < 1 * Rabs dx) by lra.
    replace (i * s * (Rabs dx / nrm)) with (i * s / nrm * Rabs dx) in Hlt
      by (field; lra).
    apply Rmult_lt_reg_r in Hlt; [|exact Habs].
    apply (Rmult_lt_reg_r (/ nrm)); [now apply Rinv_0_lt_compat|].
    rewrite Rinv_r by lra. exact Hlt.
Qed.




(** ** Concrete runs *)

(** The parameters' defaults: [turning_radius] 1.5, [path_resolution]
    0.05. *)
Definition planner : SimpleDubinsPath R :=
  {| m_turningRadius := 3 / 2; m_pathResolution := 1 / 20 |}.

Definition stamp0 : Time := {| sec := 0; nsec := 0 |}.

(** A pose at (px, py) with the identity orientation: heading 0. *)
Definition pose_at (px py : R) : PoseStamped R :=
  {| header := {| seq := 0; stamp := stamp0; frame_id := "map" |};
     pose := {| position := {| x := px; y := py; z := 0 |};
                orientation := {| qx := 0; qy := 0; qz := 0; qw := 1 |} |} |}.

Definition empty_path : Path R :=
  {| path_header := {| seq := 0; stamp := stamp0; frame_id := "" |};
     poses := [] |}.

(** A path that already holds a pose. *)
Definition used_path : Path R :=
  {| path_header := {| seq := 7; stamp := stamp0; frame_id := "odom" |};
     poses := [pose_at 4 4] |}.

Definition world0 : World :=
  {| wall := fun k => {| sec := N.of_nat k; nsec := 0 |};
     ticks := 0; rosout := [] |}.

Lemma planner_pos :
  0 < m_turningRadius planner /\ 0 < m_pathResolution planner.
Proof. cbn [planner m_turningRadius m_pathResolution]. lra. Qed.

Lemma yaw_pose_at (px py : R) : Ryaw (orientation (pose (pose_at px py))) = 0.
Proof.
  unfold Ryaw, pose_at. cbn [orientation pose qx qy qz qw].
  replace (2 * (1 * 0 + 0 * 0)) with 0 by ring.
  apply Ratan2_0_pos. lra.
Qed.

(** *** A left half turn and a straight along x *)

Lemma direction_run : turningDirection 0 0 0 (-10) 3 = Left.
Proof.
  unfold turningDirection. real. rewrite sin_0, cos_0.
  rewrite Rltb_lt; [reflexivity | lra].
Qed.

Lemma turningCenter_run : turningCenter planner 0 0 0 (-10) 3 = (0, 3 / 2).
Proof.
  unfold turningCenter, pow2. real. cbn [planner m_turningRadius].
  rewrite sin_0, cos_0. rewrite Rltb_ge by lra. f_equal; lra.
Qed.

Lemma tangentLine_run :
  tangentLine planner (-10) 3 0 (3 / 2) = (2 * atan (20 / 3), 0).
Proof.
  rewrite (tangentLine_regular planner (-10) 3 0 (3 / 2) 10);
    cbn [planner m_turningRadius]; [| rewrite Rabs_right; lra | lra | lra].
  replace ((0 - -10 + 10) / (3 - 3 / 2 + 3 / 2)) with (20 / 3) by lra.
  replace ((0 - -10 - 10) / (3 - 3 / 2 + 3 / 2)) with 0 by lra.
  rewrite atan_0, Rmult_0_r.
  pose proof (atan_pos (20 / 3)).
  rewrite !forceBeta_nonneg by lra. reflexivity.
Qed.

Lemma tangentPoint_run :
  tangentPoint 0 0 (-10) 3 0 (3 / 2) (2 * atan (20 / 3)) 0 Left = (0, 3).
Proof.
  rewrite tangentPoint_Left_second; rewrite !tangentCandidate_real;
    cbv zeta; cbn [fst snd];
    rewrite ?cos_2atan, ?sin_2atan, ?sin_0, ?cos_0.
  - f_equal; lra.
  - lra.
  - lra.
Qed.

Lemma selectedTangent_run : selectedTangent planner 0 0 0 (-10) 3 = (0, 3).
Proof.
  unfold selectedTangent.
  rewrite turningCenter_run, tangentLine_run, direction_run.
  apply tangentPoint_run.
Qed.

(** From the origin, heading 0, to (-10, 3): the nearer centre is the left
    one, (0, 3/2), and the goal is well outside its circle. *)
Lemma center_run :
  selectedCenter (tf := R_Tf) planner (pose_at 0 0) (pose_at (-10) 3)
  = (0, 3 / 2).
Proof.
  unfold selectedCenter. cbn [getYaw R_Tf]. rewrite yaw_pose_at.
  unfold turningCenter, pow2. real.
  cbn [pose_at pose position x y planner m_turningRadius].
  rewrite sin_0, cos_0. rewrite Rltb_ge by lra. f_equal; lra.
Qed.

Lemma reachable_run :
  m_turningRadius planner
  <= dist (xy (pose_at (-10) 3))
       (selectedCenter (tf := R_Tf) planner (pose_at 0 0) (pose_at (-10) 3)).
Proof.
  rewrite center_run. unfold dist, xy.
  cbn [pose_at pose position x y planner m_turningRadius fst snd].
  apply sqrt_ge; lra.
Qed.

(** The run above, for any path argument and world. *)
Lemma run_returns :
  exists n : nat, forall fuel (path : Path R) (w : World), (n < fuel)%nat ->
    exists (path' : Path R) (w' : World),
      makePath (tf := R_Tf) planner fuel (pose_at 0 0) (pose_at (-10) 3)
        path w = Some (true, path', w').
Proof.
  destruct (makePath_stops (tf := R_Tf) planner (pose_at 0 0)
              (pose_at (-10) 3) (proj1 planner_pos) (proj2 planner_pos)
              reachable_run) as (n & la & ll & H).
  exists n. intros fuel path w Hf.
  destruct (H fuel path w Hf) as (path' & w' & _ & _ & E & _).
  now exists path', w'.
Qed.

(** In the first run the straight segment starts at (0, 3), ten units from
    the goal: the line loop emits. *)
Lemma lineTrace_run (fuel : nat) (ll : list R) :
  lineTrace planner fuel (-10) 3 0 3 = Some ll -> exists ll', ll = 0 :: ll'.
Proof.
  unfold lineTrace. real. destruct fuel as [|fuel]; [discriminate|].
  cbn [for_trace].
  assert (C : lineCond planner (-10) 3 0 3 0 = true).
  { unfold lineCond. real. cbv zeta. cbn [planner m_pathResolution].
    apply Rltb_lt.
    replace (0 * (1 / 20)
             * ((-10 - 0) / sqrt ((-10 - 0) * (-10 - 0) + (3 - 3) * (3 - 3)))
             - (-10 - 0)) with 10 by lra.
    rewrite Rabs_right; lra. }
  rewrite C.
  destruct (for_trace fuel _ _ _) as [ll'|]; [|discriminate].
  intros E. injection E as <-. now exists ll'.
Qed.

(** *** A left quarter turn and a vertical straight *)

Lemma direction_run2 : turningDirection 0 0 0 (3 / 2) 10 = Left.
Proof.
  unfold turningDirection. real. rewrite sin_0, cos_0.
  rewrite Rltb_lt; [reflexivity | lra].
Qed.

Lemma turningCenter_run2 :
  turningCenter planner 0 0 0 (3 / 2) 10 = (0, 3 / 2).
Proof.
  unfold turningCenter, pow2. real. cbn [planner m_turningRadius].
  rewrite sin_0, cos_0. rewrite Rltb_ge by lra. f_equal; lra.
Qed.

Lemma tangentLine_run2 :
  tangentLine planner (3 / 2) 10 0 (3 / 2) = (2 * atan (7 / 10), PI / 2).
Proof.
  rewrite (tangentLine_regular planner (3 / 2) 10 0 (3 / 2) (17 / 2));
    cbn [planner m_turningRadius]; [| rewrite Rabs_right; lra | lra | lra].
  replace ((0 - 3 / 2 + 17 / 2) / (10 - 3 / 2 + 3 / 2)) with (7 / 10) by lra.
  replace ((0 - 3 / 2 - 17 / 2) / (10 - 3 / 2 + 3 / 2)) with (Ropp 1) by lra.
  rewrite atan_opp, atan_1.
  pose proof (atan_pos (7 / 10)). pose proof PI_RGT_0.
  rewrite forceBeta_nonneg by lra. rewrite forceBeta_neg by lra.
  f_equal. lra.
Qed.

Lemma tangentPoint_run2 :
  tangentPoint 0 0 (3 / 2) 10 0 (3 / 2) (2 * atan (7 / 10)) (PI / 2) Left
  = (3 / 2, 3 / 2).
Proof.
  rewrite tangentPoint_Left_second; rewrite !tangentCandidate_real;
    cbv zeta; cbn [fst snd];
    rewrite ?cos_2atan, ?sin_2atan, ?sin_PI2, ?cos_PI2.
  - f_equal; lra.
  - lra.
  - lra.
Qed.

Lemma selectedTangent_run2 :
  selectedTangent planner 0 0 0 (3 / 2) 10 = (3 / 2, 3 / 2).
Proof.
  unfold selectedTangent.
  rewrite turningCenter_run2, tangentLine_run2, direction_run2.
  apply tangentPoint_run2.
Qed.

Lemma reachable_run2 :
  m_turningRadius planner
  <= dist (xy (pose_at (3 / 2) 10))
       (selectedCenter (tf := R_Tf) planner (pose_at 0 0)
          (pose_at (3 / 2) 10)).
Proof.
  unfold selectedCenter. cbn [getYaw R_Tf]. rewrite yaw_pose_at.
  cbn [pose_at pose position x y]. rewrite turningCenter_run2.
  unfold dist, xy. cbn [pose_at pose position x y planner m_turningRadius
                        fst snd].
  apply sqrt_ge; lra.
Qed.

(** The line loop from (3/2, 3/2) to (3/2, 10): no sample, for any fuel,
    with the target 17/2 away. *)
Lemma lineTrace_run2 (fuel : nat) :
  lineTrace planner (S fuel) (3 / 2) 10 (3 / 2) (3 / 2) = Some [].
Proof.
  unfold lineTrace. real.
  apply (approach_none (lineCond planner (3 / 2) 10 (3 / 2) (3 / 2))
           (fun j => j + 1)
           (fun j => j * m_pathResolution planner
                     * ((3 / 2 - 3 / 2)
                        / sqrt ((3 / 2 - 3 / 2) * (3 / 2 - 3 / 2)
                                + (10 - 3 / 2) * (10 - 3 / 2))))
           (3 / 2 - 3 / 2) (m_pathResolution planner)).
  - reflexivity.
  - cbn [planner m_pathResolution].
    replace (3 / 2 - 3 / 2) with 0 by lra.
    unfold Rdiv at 2. rewrite !Rmult_0_l, Rminus_0_r, Rabs_R0. lra.
Qed.

(** ** The program in binary64 *)

Section Binary64.
Import PrimFloat.
Local Open Scope double_scope.

(** *** The C library, where the runs below call it

    [sin], [cos], [atan], [atan2] and [pow] belong to the C library, not to
    the program, and binary64 does not fix their values.  The runs of this
    section call them at finitely many arguments; the tables hold what
    glibc 2.36 on x86-64 returns at these, written as hexadecimal
    literals, which denote doubles exactly.  Where a table has no entry
    the reading answers NaN. *)

Fixpoint table1 (t : list (float * float)) (v : float) : float :=
  match t with
  | [] => nan
  | (a, r) :: t' => if Leibniz.eqb a v then r else table1 t' v
  end.

Fixpoint table2 (t : list (float * float * float)) (u v : float) : float :=
  match t with
  | [] => nan
  | (a, b, r) :: t' =>
      if Leibniz.eqb a u && Leibniz.eqb b v then r else table2 t' u v
  end.

(** [sin(x)]: argument, value. *)
Definition sin_table : list (float * float) :=
  [(0x0p+0, 0x0p+0);
   (0x1.6c491ca524169p+1, 0x1.2a510eeb49483p-2);
   (0x1.856dc9f173406p+1, 0x1.9593009973e57p-4);
   (0x1.2d97c7f3321d2p+2, (-0x1p+0));
   (0x1.71a977f4830dfp+1, 0x1.00eb8c8d4e8b5p-2);
   (0x1.6718cb375a75ap-2, 0x1.5fc82908d7407p-2);
   (0x1.5e6b809078dap-1, 0x1.43b236ac12b3cp-1)]%float.

(** [cos(x)]. *)
Definition cos_table : list (float * float) :=
  [(0x0p+0, 0x1p+0);
   (0x1.6c491ca524169p+1, (-0x1.e9caa54c37345p-1));
   (0x1.856dc9f173406p+1, (-0x1.fd7be05fe86f6p-1));
   (0x1.2d97c7f3321d2p+2, (-0x1.a79394c9e8a0ap-53));
   (0x1.71a977f4830dfp+1, (-0x1.ef9f73634a463p-1));
   (0x1.6718cb375a75ap-2, 0x1.e0d6d8a642ac4p-1);
   (0x1.5e6b809078dap-1, 0x1.8cb13c88109b4p-1)]%float.

(** [atan(x)]. *)
Definition atan_table : list (float * float) :=
  [(0x1.add7d0298f638p+2, 0x1.6c491ca524169p+0);
   ((-0x1.9692bf725c655p-5), (-0x1.963d6a59f2237p-5));
   ((-0x1.05188ce87687bp-3), (-0x1.03b1ea7dfe1c9p-3))]%float.

(** [atan2(y, x)]: the two arguments, value. *)
Definition atan2_table : list (float * float * float) :=
  [(0x0p+0, 0x1p+0, 0x0p+0);
   ((-0x1.2a510eeb49486p-2), 0x1.e9caa54c3734ap-1, (-0x1.2eb4c4f8f5d7ap-2));
   (0x1.9593009973e51p-4, (-0x1.fd7be05fe86dcp-1), 0x1.856dc9f173406p+1);
   ((-0x1p+0), 0x0p+0, (-0x1.921fb54442d18p+0));
   (0x1.fd7be05fe86dcp-1, 0x1.9593009973e51p-4, 0x1.78bbde9ea3af3p+0);
   (0x1.2108fe1ef85cfp-1, (-0x1.16c9b0e7d9c78p+1), 0x1.71a977f4830dfp+1);
   (0x0p+0, (-0x1.8p-52), 0x1.921fb54442d18p+1);
   ((-0x1.8p+0), 0x0p+0, (-0x1.921fb54442d18p+0));
   (0x1.73b7968a77b4ap+0, 0x1.816152d3f5d14p-2, 0x1.51333aa4c34a5p+0);
   (0x1.795d2093d6666p-1, (-0x1.101c210569c1p+1), 0x1.6767ee870fe9dp+1);
   (0x0p+0, 0x1.1ffffffffffe8p+1, 0x0p+0)]%float.

(** [pow(x, 2)]. *)
Definition pow_table : list (float * float) :=
  [((-0x1.4p+3), 0x1.9p+6);
   (0x1p+2, 0x1p+4);
   (0x1p+1, 0x1p+2);
   (0x1.4p+3, 0x1.9p+6);
   ((-0x1.8p+1), 0x1.2p+3);
   (0x1.816152d3f5d0ep-2, 0x1.2212f010b4658p-3);
   (0x1.1cede5a29ded2p+2, 0x1.3d20b293cb7aep+4);
   (0x1.73b7968a77b4ap+0, 0x1.0dded0fef4b9ap+1);
   ((-0x1.816152d3f5d0ep-2), 0x1.2212f010b4658p-3);
   ((-0x1.79dbcb453bda5p+1), 0x1.16dc8cb3aa122p+3);
   (0x1.8p+0, 0x1.2p+1);
   ((-0x1.8p+0), 0x1.2p+1);
   ((-0x1.32ccd90c3898cp+0), 0x1.6fae5acbdacd1p+0);
   (0x1.f560057fdab8p-5, 0x1.eaf87cc5470b4p-9)]%float.

#[export] Instance glibc_Libm : Libm float := {|
  dsin := table1 sin_table;
  dcos := table1 cos_table;
  datan := table1 atan_table;
  datan2 := table2 atan2_table;
  dpow := fun v n => if (n =? 2)%Z then table1 pow_table v else nan;
  M_PI := 0x1.921fb54442d18p+1%float
|}.

(** [tf::getYaw] belongs to the tf library.  The runs below start from
    the identity orientation, for which the yaw of a unit quaternion, as
    [Ryaw] has it, is atan2(0, 1): heading 0. *)
Definition fyaw (q : Quaternion float) : float :=
  datan2 (#2 * (qw q * qz q + qx q * qy q))
         (#1 - #2 * (qy q * qy q + qz q * qz q)).

Definition float_Tf : Tf float := {| getYaw := fyaw |}.

(** A pose at (px, py) with the identity orientation: heading 0. *)
Definition fpose_at (px py : float) : PoseStamped float :=
  {| header := {| seq := 0; stamp := stamp0; frame_id := "map" |};
     pose := {| position := {| x := px; y := py; z := #0 |};
                orientation := {| qx := #0; qy := #0; qz := #0; qw := #1 |} |} |}.

(** *** What a double is worth

    A finite double is an integer multiple of 2^-1074: [units] is that
    integer and [real_of] the real number.  (An infinity or a NaN has no
    value; [units] gives 0 for them, and they do not occur among the
    doubles measured below, which are all displayed.) *)
Definition units (v : float) : Z :=
  match FloatOps.Prim2SF v with
  | SpecFloat.S754_finite s m e =>
      ((if s then Z.neg m else Z.pos m) * 2 ^ (e + 1074))%Z
  | _ => 0%Z
  end.

Definition grid : R := IZR (2 ^ 1074).

Definition real_of (v : float) : R := (IZR (units v) / grid)%R.

Definition real_xy (p : float * float) : R * R :=
  (real_of (fst p), real_of (snd p)).

(** The squared distance of two points, and the cross product of q - c
    and p - c, in units of 2^-2148. *)
Definition sqdist_units (p q : float * float) : Z :=
  ((units (fst p) - units (fst q)) * (units (fst p) - units (fst q))
   + (units (snd p) - units (snd q)) * (units (snd p) - units (snd q)))%Z.

Definition cross_units (c q p : float * float) : Z :=
  ((units (fst q) - units (fst c)) * (units (snd p) - units (snd c))
   - (units (snd q) - units (snd c)) * (units (fst p) - units (fst c)))%Z.

Lemma grid_pos : (0 < grid)%R.
Proof. apply IZR_lt. reflexivity. Qed.

Lemma units_lt (a b : Z) :
  (a < b)%Z -> (IZR a / (grid * grid) < IZR b / (grid * grid))%R.
Proof.
  intros H. pose proof grid_pos as Hg. apply IZR_lt in H.
  apply Rmult_lt_compat_r; [|exact H].
  apply Rinv_0_lt_compat. now apply Rmult_lt_0_compat.
Qed.

Lemma sqdist_real (p q : float * float) :
  sqdist (real_xy p) (real_xy q)
  = (IZR (sqdist_units p q) / (grid * grid))%R.
Proof.
  pose proof grid_pos as Hg.
  unfold sqdist, sqdist_units, real_xy, real_of, Rsqr. cbn [fst snd].
  rewrite plus_IZR, !mult_IZR, !minus_IZR. field. lra.
Qed.

Lemma square_real (v : float) :
  (real_of v * real_of v = IZR (units v * units v) / (grid * grid))%R.
Proof.
  pose proof grid_pos as Hg. unfold real_of. rewrite mult_IZR. field. lra.
Qed.

Lemma cross_real (xc yc xq yq xp yp : float) :
  ((real_of xq - real_of xc) * (real_of yp - real_of yc)
   - (real_of yq - real_of yc) * (real_of xp - real_of xc)
   = IZR (cross_units (xc, yc) (xq, yq) (xp, yp)) / (grid * grid))%R.
Proof.
  pose proof grid_pos as Hg. unfold cross_units, real_of. cbn [fst snd].
  rewrite minus_IZR, !mult_IZR, !minus_IZR. field. lra.
Qed.

Lemma units_0 : (IZR 0 / (grid * grid) = 0)%R.
Proof. unfold Rdiv. apply Rmult_0_l. Qed.

Lemma units_le (a b : Z) :
  (a <= b)%Z -> (IZR a / (grid * grid) <= IZR b / (grid * grid))%R.
Proof.
  intros H. pose proof grid_pos as Hg. apply IZR_le in H.
  apply Rmult_le_compat_r; [|exact H].
  left. apply Rinv_0_lt_compat. now apply Rmult_lt_0_compat.
Qed.

Lemma real_of_pos (v : float) : (0 < units v)%Z -> (0 < real_of v)%R.
Proof.
  intros H. apply IZR_lt in H. unfold real_of.
  apply Rdiv_lt_0_compat; [exact H | apply grid_pos].
Qed.


Lemma dist_lt_units (r : float) (p q : float * float) :
  (0 < units r)%Z -> (sqdist_units p q < units r * units r)%Z ->
  (dist (real_xy p) (real_xy q) < real_of r)%R.
Proof.
  intros Hr H. rewrite dist_sqdist. apply sqrt_lt.
  - now apply real_of_pos.
  - rewrite sqdist_real, square_real. now apply units_lt.
Qed.

(** For instance 1, 3/2 and -10. *)
Example real_of_examples :
  real_of #1 = 1%R /\ real_of (#3 / #2) = (3 / 2)%R
  /\ real_of (- #10) = (-10)%R.
Proof.
  assert (Hk : (0 < IZR (2 ^ 1070))%R) by (apply IZR_lt; reflexivity).
  assert (Hg : grid = (16 * IZR (2 ^ 1070))%R).
  { unfold grid. rewrite <- mult_IZR. f_equal. }
  unfold real_of. rewrite Hg. repeat split.
  - replace (units #1) with (16 * 2 ^ 1070)%Z by reflexivity.
    rewrite mult_IZR. field. lra.
  - replace (units (#3 / #2)) with (24 * 2 ^ 1070)%Z by reflexivity.
    rewrite mult_IZR. field. lra.
  - replace (units (- #10)) with (-160 * 2 ^ 1070)%Z by reflexivity.
    rewrite mult_IZR. field. lra.
Qed.

(** *** Planners *)

(** The parameters' defaults. *)
Definition fplanner : SimpleDubinsPath float :=
  {| m_turningRadius := #3 / #2; m_pathResolution := #1 / #20 |}.

(** A radius of 2^-54. *)
Definition ftiny_planner : SimpleDubinsPath float :=
  {| m_turningRadius := 0x1p-54%float; m_pathResolution := #1 / #20 |}.

(** Radius 1 and resolution 2^-60: 2^-60 radians for a sample. *)
Definition fine_planner : SimpleDubinsPath float :=
  {| m_turningRadius := #1; m_pathResolution := 0x1p-60%float |}.

(** Radius 1.2, the double next to it. *)
Definition fplanner12 : SimpleDubinsPath float :=
  {| m_turningRadius := 0x1.3333333333333p+0%float;
     m_pathResolution := #1 / #20 |}.

(** *** The loops *)

(** The vertical segment of the second run: no line sample in binary64
    either. *)
Example binary64_vertical_segment :
  lineTrace fplanner 5 (#3 / #2) #10 (#3 / #2) (#3 / #2) = Some [].
Proof. vm_compute. reflexivity. Qed.

(** An increment below the gap between the doubles around the loop
    variable leaves it unchanged: with a resolution of 2^-60 and radius 1
    the arc loop at angle 1, stop angle 2, tests true and steps to 1
    again. *)
Example binary64_absorbed_increment :
  arcCond fine_planner #2 #1 = true /\ arcNext fine_planner Left #1 = #1.
Proof. split; vm_compute; reflexivity. Qed.

(** The counter of the line loop is a double as well, and 2^53 + 1 is
    2^53: a straight of more than 2^53 spacings, here from the origin
    towards (4, 2^60), finds the test true at 2^53 and steps to 2^53
    again. *)
Example binary64_stalled_counter :
  lineCond fplanner #4 0x1p+60%float #0 #0 0x1p+53%float = true
  /\ 0x1p+53%float + #1 = 0x1p+53%float.
Proof. split; vm_compute; reflexivity. Qed.

(** C8 in binary64.  Radius 1, resolution 2^-60, start angle 1 and stop
    angle 2, both in [0, 2 pi), direction Left: the stop angle needs no
    adjustment and the arc loop does not end, whatever the fuel. *)
Lemma arc_sweep_never_ends :
  arcStop Left #1 #2 = #2
  /\ forall fuel : nat,
       arcTrace fine_planner fuel #1 (arcStop Left #1 #2) Left = None.
Proof.
  split; [vm_compute; reflexivity|]. intros fuel. unfold arcTrace.
  apply for_trace_stuck; vm_compute; reflexivity.
Qed.

(** *** The tangent line *)

(** A radius of 2^-54: the denominator of the branch taken is zero in
    binary64 as well. *)
Example binary64_divides_by_zero :
  nearDegenerate ftiny_planner 0x1p-54%float #0 = true
  /\ denominator ftiny_planner 0x1p-54%float #0 = #0.
Proof. split; vm_compute; reflexivity. Qed.

(** Radius 1.2, centre (0, 1.2) and a target just outside the circle, by
    6.0e-18 in a^2 + b^2 - R^2: it passes the reachability test of
    [makePath], and yet the argument of the square root, as the code
    computes it, is -2^-52 and the root is not a number. *)
Example binary64_negative_radicand :
  let r := m_turningRadius fplanner12 in
  let x_n := (-0x1.32ccd90c3898cp+0)%float in
  let y_n := 0x1.42de335f3208fp+0%float in
  let goal := (x_n, y_n) in
  let c := (#0, r) in
  (real_of r * real_of r < sqdist (real_xy goal) (real_xy c))%R
  /\ unreachable fplanner12 x_n y_n #0 r = false
  /\ outsideOrOn fplanner12 x_n y_n #0 r = false
  /\ radicand fplanner12 x_n y_n #0 r = (-0x1p-52)%float
  /\ Leibniz.eqb (dsqrt (radicand fplanner12 x_n y_n #0 r)) nan = true.
Proof.
  cbv zeta. split; [|repeat split; vm_compute; reflexivity].
  rewrite sqdist_real, square_real. apply units_lt. vm_compute. reflexivity.
Qed.

(** *** The facade *)


(** C2 in binary64.  The defaults, from the origin with heading 0, and a
    target inside the circle of the selected centre (0, 1.5): its exact
    distance from the centre is below the radius (by 2.9e-16 in the
    squares).  The code's sum of the two squares rounds to 2.25, its root
    is 1.5, and 1.5 < 1.5 is false: [makePath] never refuses this target
    and [getTargetHeading] returns [true] with a heading. *)
Lemma proceeds_inside :
  let goal := (0x1.816152d3f5d0ep-2, 0x1.79dbcb453bda5p+1)%float in
  let c := turningCenter fplanner #0 #0 #0 (fst goal) (snd goal) in
  c = (#0, #3 / #2)
  /\ (dist (real_xy goal) (real_xy c)
      < real_of (m_turningRadius fplanner))%R
  /\ dsqrt (pow2 (fst goal - fst c) + pow2 (snd goal - snd c)) = #3 / #2
  /\ (forall (fuel : nat) (path path' : Path float) (w w' : World)
             (b : bool),
        makePath (tf := float_Tf) fplanner fuel (fpose_at #0 #0)
          (fpose_at (fst goal) (snd goal)) path w = Some (b, path', w') ->
        b = true)
  /\ getTargetHeading fplanner #0 #0 #0 (fst goal) (snd goal) #42
     = (true, M_PI).
Proof.
  cbv zeta. split; [vm_compute; reflexivity|]. split; [|split; [|split]].
  - apply dist_lt_units; vm_compute; reflexivity.
  - vm_compute. reflexivity.
  - intros fuel path path' w w' b.
    apply makePath_proceeds. vm_compute. reflexivity.
  - vm_compute. reflexivity.
Qed.

(** C3 in binary64.  The defaults, from the origin with heading 0, and the
    target (10, -1e-17).  The candidates are (0, -1.5) and (0, 1.5); the
    first is the nearer one (by 6e-17 in the squares), both sums of
    squares round to 102.25, the comparison is false and [turningCenter]
    returns the second, which is farther. *)
Lemma turningCenter_keeps_farther :
  let r := m_turningRadius fplanner in
  let goal := (#10, (-0x1.70ef54646d497p-57)%float) in
  let c1 := (#0 + dsin #0 * r, #0 - dcos #0 * r) in
  let c2 := (#0 - dsin #0 * r, #0 + dcos #0 * r) in
  c1 = (#0, - (#3 / #2)) /\ c2 = (#0, #3 / #2)
  /\ (sqdist (real_xy goal) (real_xy c1)
      < sqdist (real_xy goal) (real_xy c2))%R
  /\ pow2 (fst goal - fst c1) + pow2 (snd goal - snd c1)
     = pow2 (fst goal - fst c2) + pow2 (snd goal - snd c2)
  /\ turningCenter fplanner #0 #0 #0 (fst goal) (snd goal) = c2.
Proof.
  cbv zeta. split; [vm_compute; reflexivity|].
  split; [vm_compute; reflexivity|]. split; [|split].
  - rewrite !sqdist_real. apply units_lt. vm_compute. reflexivity.
  - vm_compute. reflexivity.
  - vm_compute. reflexivity.
Qed.

(** C4 in binary64.  Direction Right.  The second candidate is the start
    point up to the last digits, a little behind it: its signed angle
    from the start vector is negative and wraps to just below 2 pi, the
    larger of the two wrapped angles.  The code's [det] for it rounds to
    0, its wrapped angle to 0, and [tangentPoint] returns the first
    candidate, whose wrapped angle is at most pi. *)
Lemma tangentPoint_keeps_smaller :
  let q := ((-0x1.c1dafa1a7e957p+2)%float, (-0x1.3d1c2da72007cp+2)%float) in
  let goal := ((-0x1.0834337fe67ap-3)%float, 0x1.59d5c577ad758p-1%float) in
  let c := ((-0x1.fe8c645ac2172p+2)%float, (-0x1.e575e49b39d54p+1)%float) in
  let beta1 := 0x1.6718cb375a75ap-2%float in
  let beta2 := 0x1.5e6b809078dap-1%float in
  let p1 := tangentCandidate (fst goal) (snd goal) (fst c) (snd c) beta1 in
  let p2 := tangentCandidate (fst goal) (snd goal) (fst c) (snd c) beta2 in
  let angle (p : float * float) :=
    wrap2pi
      (signedAngle
         (real_of (fst q) - real_of (fst c),
          real_of (snd q) - real_of (snd c))%R
         (real_of (fst p) - real_of (fst c),
          real_of (snd p) - real_of (snd c))%R) in
  p1 = ((-0x1.0fc39419cb228p+3)%float, (-0x1.3125535ce0d5cp+1)%float)
  /\ p2 = ((-0x1.c1dafa1a7e95cp+2)%float, (-0x1.3d1c2da720076p+2)%float)
  /\ (angle p1 <= PI < angle p2)%R
  /\ sweepAngle (fst q) (snd q) (fst c) (snd c) p2 = #0
  /\ tangentPoint (fst q) (snd q) (fst goal) (snd goal) (fst c) (snd c)
       beta1 beta2 Right = p1.
Proof.
  cbv zeta. split; [vm_compute; reflexivity|].
  split; [vm_compute; reflexivity|].
  split; [|split; vm_compute; reflexivity].
  unfold signedAngle. cbn [fst snd]. split.
  - apply wrap2pi_atan2_nonneg. rewrite cross_real, <- units_0.
    apply units_le. vm_compute. discriminate.
  - apply wrap2pi_atan2_neg. rewrite cross_real, <- units_0.
    apply units_lt. vm_compute. reflexivity.
Qed.
End Binary64.

(** ** The claims *)



(** C2, as the code has it.  [makePath] and [getTargetHeading] fail
    exactly when the distance from the target to the selected centre, as
    the code computes it, sqrt(pow(x_n - x_cr, 2) + pow(y_n - y_cr, 2)),
    compares below the radius.  A failing [makePath] returns the path it
    was given and a failing [getTargetHeading] the heading it was given;
    when the comparison is false, the computed distance equal to the
    radius included, neither returns [false], and [getTargetHeading]
    returns [true].  This holds in every reading of [double]. *)
Theorem fails_exactly_inside {D : Type} {dbl : Double D} {libm : Libm D}
    {tf : Tf D} (self : SimpleDubinsPath D)
    (start goal : PoseStamped D) (path : Path D) (w : World)
    (x_q y_q theta_q x_n y_n yawTarget : D) :
  let below (px py : D) (c : D * D) :=
    (dsqrt (pow2 (px - fst c) + pow2 (py - snd c))
     <? m_turningRadius self)%D in
  let gx := x (position (pose goal)) in
  let gy := y (position (pose goal)) in
  let c := turningCenter self (x (position (pose start)))
             (y (position (pose start)))
             (getYaw (orientation (pose start))) gx gy in
  let c' := turningCenter self x_q y_q theta_q x_n y_n in
  (below gx gy c = true ->
     forall fuel, exists w',
       makePath self fuel start goal path w = Some (false, path, w'))
  /\ (below gx gy c = false ->
        forall fuel b path' w',
          makePath self fuel start goal path w = Some (b, path', w') ->
          b = true)
  /\ (below x_n y_n c' = true ->
        getTargetHeading self x_q y_q theta_q x_n y_n yawTarget
        = (false, yawTarget))
  /\ (below x_n y_n c' = false ->
        fst (getTargetHeading self x_q y_q theta_q x_n y_n yawTarget)
        = true).
Proof.
  intros below gx gy c c'. split; [|split; [|split]].
  - intros H fuel. eexists.
    exact (makePath_refuses self fuel start goal path w H).
  - intros H fuel b path' w'.
    exact (makePath_proceeds self fuel start goal path path' w w' b H).
  - intros H. rewrite getTargetHeading_eq. fold c'.
    change (unreachable self x_n y_n (fst c') (snd c'))
      with (below x_n y_n c').
    now rewrite H.
  - intros H. rewrite getTargetHeading_eq. fold c'.
    change (unreachable self x_n y_n (fst c') (snd c'))
      with (below x_n y_n c').
    now rewrite H.
Qed.

(** Over the reals, a target half a unit from the nearer centre: both
    entry points fail and hand back what they were given. *)
Lemma fails_exactly_inside_run :
  (forall fuel, exists w',
     makePath (tf := R_Tf) planner fuel (pose_at 0 0) (pose_at 0 1)
       used_path world0 = Some (false, used_path, w'))
  /\ getTargetHeading planner 0 0 0 0 1 42 = (false, 42).
Proof.
  assert (Hc : turningCenter planner 0 0 0 0 1 = (0, 3 / 2)).
  { unfold turningCenter, pow2. real. cbn [planner m_turningRadius].
    rewrite sin_0, cos_0. rewrite Rltb_ge by lra. f_equal; lra. }
  assert (Hd : dist (0, 1) (0, 3 / 2) < m_turningRadius planner).
  { unfold dist. cbn [fst snd planner m_turningRadius]. apply sqrt_lt; lra. }
  pose proof (fails_exactly_inside (tf := R_Tf) planner (pose_at 0 0)
                (pose_at 0 1) used_path world0 0 0 0 0 1 42) as H.
  cbv zeta in H. destruct H as (H1 & _ & H3 & _). split.
  - apply H1. cbn [getYaw R_Tf]. rewrite yaw_pose_at.
    cbn [pose_at pose position x y]. rewrite Hc.
    apply (proj2 (unreachable_lt planner 0 1 0 (3 / 2))). exact Hd.
  - apply H3. rewrite Hc.
    apply (proj2 (unreachable_lt planner 0 1 0 (3 / 2))). exact Hd.
Defined.

(** C3, as the code has it.  [turningCenter] forms the two candidates
    (x_q + sin theta_q * R, y_q - cos theta_q * R) and
    (x_q - sin theta_q * R, y_q + cos theta_q * R) and, for each, the sum
    pow(x_n - x, 2) + pow(y_n - y, 2).  It returns the first candidate
    when the first sum compares below the second, and the second
    candidate otherwise, so also when the computed sums are equal; it
    returns one of the two.  This holds in every reading of [double] and
    for every radius. *)
Theorem turningCenter_nearer {D : Type} {dbl : Double D} {libm : Libm D}
    (self : SimpleDubinsPath D) (x_q y_q theta_q x_n y_n : D) :
  let r := m_turningRadius self in
  let c1 := (x_q + dsin theta_q * r, y_q - dcos theta_q * r)%D in
  let c2 := (x_q - dsin theta_q * r, y_q + dcos theta_q * r)%D in
  let sq (c : D * D) := (pow2 (x_n - fst c) + pow2 (y_n - snd c))%D in
  let c := turningCenter self x_q y_q theta_q x_n y_n in
  ((sq c1 <? sq c2)%D = true -> c = c1)
  /\ ((sq c1 <? sq c2)%D = false -> c = c2)
  /\ (c = c1 \/ c = c2).
Proof.
  intros r c1 c2 sq c. subst c. unfold turningCenter. fold r.
  change (pow2 (x_n - (x_q + dsin theta_q * r))
          + pow2 (y_n - (y_q - dcos theta_q * r)))%D with (sq c1).
  change (pow2 (x_n - (x_q - dsin theta_q * r))
          + pow2 (y_n - (y_q + dcos theta_q * r)))%D with (sq c2).
  fold c1 c2. destruct (sq c1 <? sq c2)%D; repeat split; auto; discriminate.
Qed.

(** Over the reals, the first run: the second candidate, (0, 3/2). *)
Lemma turningCenter_nearer_run :
  turningCenter planner 0 0 0 (-10) 3
  = (0 - sin 0 * m_turningRadius planner, 0 + cos 0 * m_turningRadius planner).
Proof.
  destruct (turningCenter_nearer planner 0 0 0 (-10) 3) as (_ & H & _).
  apply H. unfold pow2. real. cbn [fst snd planner m_turningRadius].
  rewrite sin_0, cos_0. apply Rltb_ge. lra.
Defined.

(** C4, as the code has it.  For each of the two candidates made from
    beta1 and beta2 the code computes the angle from the vector
    centre-to-robot by atan2(det, dot) and adds 2 * M_PI to it when it
    compares below 0.  [tangentPoint] returns the first candidate when
    its computed angle compares below the second's for Left, above it for
    Right, and the second candidate otherwise, so also when the computed
    angles are equal.  This holds in every reading of [double]. *)
Theorem tangentPoint_first_along_dir {D : Type} {dbl : Double D}
    {libm : Libm D}
    (x_q y_q x_n y_n x_cr y_cr beta1 beta2 : D) (dir : Dir) :
  let p1 := tangentCandidate x_n y_n x_cr y_cr beta1 in
  let p2 := tangentCandidate x_n y_n x_cr y_cr beta2 in
  let angle (p : D * D) :=
    let x1 := (x_q - x_cr)%D in
    let y1 := (y_q - y_cr)%D in
    let x2 := (fst p - x_cr)%D in
    let y2 := (snd p - y_cr)%D in
    let a := datan2 (x1 * y2 - y1 * x2)%D (x1 * x2 + y1 * y2)%D in
    if (a <? #0)%D then (a + #2 * M_PI)%D else a in
  let t := tangentPoint x_q y_q x_n y_n x_cr y_cr beta1 beta2 dir in
  match dir with
  | Left => ((angle p1 <? angle p2)%D = true -> t = p1)
            /\ ((angle p1 <? angle p2)%D = false -> t = p2)
  | Right => ((angle p1 >? angle p2)%D = true -> t = p1)
             /\ ((angle p1 >? angle p2)%D = false -> t = p2)
  end.
Proof.
  intros p1 p2 angle t. subst t. rewrite tangentPoint_eq. fold p1 p2.
  change (sweepAngle x_q y_q x_cr y_cr p1) with (angle p1).
  change (sweepAngle x_q y_q x_cr y_cr p2) with (angle p2).
  destruct dir;
    [destruct (angle p1 <? angle p2)%D | destruct (angle p1 >? angle p2)%D];
    split; intros; try reflexivity; discriminate.
Qed.

(** Over the reals, the first run: direction Left, and the second
    candidate, whose angle is the smaller. *)
Lemma tangentPoint_first_along_dir_run :
  tangentPoint 0 0 (-10) 3 0 (3 / 2) (2 * atan (20 / 3)) 0 Left
  = tangentCandidate (-10) 3 0 (3 / 2) 0.
Proof.
  destruct (tangentPoint_first_along_dir 0 0 (-10) 3 0 (3 / 2)
              (2 * atan (20 / 3)) 0 Left) as [_ H].
  apply H. apply Rltb_ge.
  change (wrap2pi (signedAngle (0 - 0, 0 - 3 / 2)
                     (fst (tangentCandidate (-10) 3 0 (3 / 2) 0) - 0,
                      snd (tangentCandidate (-10) 3 0 (3 / 2) 0) - 3 / 2))
          <= wrap2pi (signedAngle (0 - 0, 0 - 3 / 2)
                        (fst (tangentCandidate (-10) 3 0 (3 / 2)
                                (2 * atan (20 / 3))) - 0,
                         snd (tangentCandidate (-10) 3 0 (3 / 2)
                                (2 * atan (20 / 3))) - 3 / 2))).
  unfold signedAngle. cbn [fst snd].
  rewrite !tangentCandidate_real. cbv zeta. cbn [fst snd].
  rewrite cos_2atan, sin_2atan, sin_0, cos_0.
  apply Rle_trans with PI.
  - apply wrap2pi_atan2_nonneg. lra.
  - left. apply wrap2pi_atan2_neg. lra.
Defined.

(** C5.  Whenever [generatePath] returns, the poses it leaves begin with
    the samples of the arc loop, one for each angle the loop ran at, and
    each of them lies at distance exactly the turning radius (positive, as
    configured) from the centre of the turning circle. *)
Theorem arc_samples_on_circle (self : SimpleDubinsPath R) (fuel : nat)
    (x_q y_q x_n y_n x_cr y_cr x_lc y_lc : R) (dir : Dir)
    (goal : PoseStamped R) (path path' : Path R) (w w' : World) :
  0 < m_turningRadius self ->
  generatePath self fuel x_q y_q x_n y_n x_cr y_cr x_lc y_lc dir goal path w
  = Some (path', w') ->
  exists (la : list R) (arc rest : list (PoseStamped R)),
    arcTrace self fuel (fst (arcAngles x_q y_q x_cr y_cr x_lc y_lc dir))
      (snd (arcAngles x_q y_q x_cr y_cr x_lc y_lc dir)) dir = Some la
    /\ poses path' = arc ++ rest
    /\ map xy arc = map (arcPoint self x_cr y_cr) la
    /\ Forall (fun p => dist (xy p) (x_cr, y_cr) = m_turningRadius self) arc.
Proof.
  intros HR H.
  destruct (generatePath_shape self _ _ _ _ _ _ _ _ _ _ _ _ _ _ _ H)
    as (la & ll & Ha & _ & Hp).
  exists la. eexists _, _. split; [exact Ha|]. split; [exact Hp|].
  split; [apply samples_xy|].
  apply Forall_forall. intros p Hin.
  apply (in_map xy) in Hin. rewrite samples_xy in Hin.
  apply in_map_iff in Hin as (i & <- & _). now apply arcPoint_on_circle.
Qed.

Lemma arc_samples_on_circle_run :
  exists (fuel : nat) (path' : Path R) (w' : World)
         (la : list R) (arc rest : list (PoseStamped R)),
    generatePath planner fuel 0 0 (-10) 3 0 (3 / 2) 0 3 Left
      (pose_at (-10) 3) empty_path world0 = Some (path', w')
    /\ arcTrace planner fuel
         (fst (arcAngles 0 0 0 (3 / 2) 0 3 Left))
         (snd (arcAngles 0 0 0 (3 / 2) 0 3 Left)) Left = Some la
    /\ poses path' = arc ++ rest
    /\ map xy arc = map (arcPoint planner 0 (3 / 2)) la
    /\ Forall (fun p => dist (xy p) (0, 3 / 2) = m_turningRadius planner) arc.
Proof.
  destruct (generatePath_returns planner 0 0 (-10) 3 0 (3 / 2) 0 3 Left
              (proj1 planner_pos) (proj2 planner_pos)) as [n H].
  destruct (H (S n) (pose_at (-10) 3) empty_path world0
              (Nat.lt_succ_diag_r n)) as (path' & w' & E).
  destruct (arc_samples_on_circle planner (S n) 0 0 (-10) 3 0 (3 / 2) 0 3
              Left (pose_at (-10) 3) empty_path path' world0 w'
              (proj1 planner_pos) E) as (la & arc & rest & H1 & H2 & H3 & H4).
  exists (S n), path', w', la, arc, rest. auto.
Defined.

(** C6 at the second run.  [makePath] succeeds; the tangent point it
    selects is (3/2, 3/2), 17/2 below the goal (3/2, 10); and the path it
    leaves has no line sample at all: after the arc samples, all on the
    circle, comes the goal. *)
Lemma vertical_segment_unsampled :
  selectedTangent planner 0 0 0 (3 / 2) 10 = (3 / 2, 3 / 2)
  /\ 2 * m_pathResolution planner < dist (3 / 2, 3 / 2) (3 / 2, 10)
  /\ (forall fuel,
        lineTrace planner (S fuel) (3 / 2) 10 (3 / 2) (3 / 2) = Some [])
  /\ (exists (fuel : nat) (path' : Path R) (w' : World),
        makePath (tf := R_Tf) planner fuel (pose_at 0 0)
          (pose_at (3 / 2) 10) empty_path world0 = Some (true, path', w'))
  /\ forall (fuel : nat) (path' : Path R) (w' : World),
       makePath (tf := R_Tf) planner fuel (pose_at 0 0)
         (pose_at (3 / 2) 10) empty_path world0 = Some (true, path', w') ->
       exists arc : list (PoseStamped R),
         poses path' = arc ++ [pose_at (3 / 2) 10]
         /\ Forall (fun p => dist (xy p) (0, 3 / 2) = 3 / 2) arc.
Proof.
  split; [exact selectedTangent_run2|]. split; [|split; [|split]].
  - unfold dist. cbn [fst snd planner m_pathResolution].
    apply Rlt_le_trans with (17 / 2); [lra|]. apply sqrt_ge; lra.
  - exact lineTrace_run2.
  - destruct (makePath_stops (tf := R_Tf) planner (pose_at 0 0)
                (pose_at (3 / 2) 10) (proj1 planner_pos) (proj2 planner_pos)
                reachable_run2) as (n & la & ll & H).
    destruct (H (S n) empty_path world0 (Nat.lt_succ_diag_r n))
      as (path' & w' & _ & _ & E & _).
    now exists (S n), path', w'.
  - intros fuel path' w' E.
    destruct (makePath_shape (tf := R_Tf) planner _ _ _ _ _ _ _ E)
      as (_ & la & ll & _ & Hl & Hp).
    cbn [getYaw R_Tf] in Hl, Hp. rewrite yaw_pose_at in Hl, Hp.
    cbn [pose_at pose position x y] in Hl, Hp.
    rewrite selectedTangent_run2 in Hl, Hp. rewrite turningCenter_run2 in Hp.
    cbn [fst snd] in Hl, Hp.
    destruct fuel as [|fuel]; [discriminate|].
    rewrite lineTrace_run2 in Hl. injection Hl as <-.
    cbn [samples app] in Hp. eexists. split; [exact Hp|].
    apply Forall_forall. intros p Hin.
    apply (in_map xy) in Hin. rewrite samples_xy in Hin.
    apply in_map_iff in Hin as (i & <- & _).
    apply (arcPoint_on_circle planner 0 (3 / 2) i (proj1 planner_pos)).
Qed.

(** C7, as the code has it.  A path left by a successful [makePath] is
    the arc samples, then the line samples, then the goal.  Neighbouring
    arc samples lie on the circle at angles [a0 + k * dir * (s / R)] and
    are at most one [path_resolution] apart; neighbouring line samples
    lie at offsets [k * s] along the unit vector to the target and are
    exactly one [path_resolution] apart: within a phase the traversal
    never turns back.  The first line sample is the tangent point the
    code selected, and from the last arc sample to it is at most three
    times the [path_resolution] and as much again as that point is off
    the turning circle.  The step to the goal is not within the bound:
    every line sample is more than twice the [path_resolution] from the
    goal. *)
Theorem samples_spacing {tf : Tf R} (self : SimpleDubinsPath R)
    (fuel : nat) (start goal : PoseStamped R)
    (path path' : Path R) (w w' : World) :
  0 < m_turningRadius self -> 0 < m_pathResolution self ->
  makePath self fuel start goal path w = Some (true, path', w') ->
  let s := m_pathResolution self in
  let x_q := x (position (pose start)) in
  let y_q := y (position (pose start)) in
  let theta_q := getYaw (orientation (pose start)) in
  let x_n := x (position (pose goal)) in
  let y_n := y (position (pose goal)) in
  let c := turningCenter self x_q y_q theta_q x_n y_n in
  let t := selectedTangent self x_q y_q theta_q x_n y_n in
  let sgn := IZR (Dir_to_int (turningDirection x_q y_q theta_q x_n y_n)) in
  exists (arc line : list (PoseStamped R)) (a0 : R),
    poses path' = arc ++ line ++ [goal]
    /\ map xy arc
       = map (fun k => arcPoint self (fst c) (snd c)
                         (a0 + INR k * (sgn * (s / m_turningRadius self))))
           (List.seq 0 (length arc))
    /\ map xy line
       = map (fun k => linePoint self x_n y_n (fst t) (snd t) (INR k))
           (List.seq 0 (length line))
    /\ consecutive (fun p q => 0 <= dist p q <= s) (map xy arc)
    /\ consecutive (fun p q => dist p q = s) (map xy line)
    /\ (forall arc' p q line',
          arc = arc' ++ [p] -> line = q :: line' ->
          xy q = t
          /\ dist (xy p) (xy q)
             <= 3 * s + Rabs (dist t c - m_turningRadius self))
    /\ Forall (fun p => 2 * s < dist (xy p) (xy goal)) line.
Proof.
  intros HR Hs H s x_q y_q theta_q x_n y_n c t sgn.
  destruct (makePath_shape self _ _ _ _ _ _ _ H)
    as (Hu & la & ll & Ha & Hl & Hp).
  fold x_q y_q theta_q x_n y_n c t in Hu, Ha, Hl, Hp.
  set (dir := turningDirection x_q y_q theta_q x_n y_n) in *.
  set (w1 := advised self x_q y_q x_n y_n w) in *.
  set (angles := arcAngles x_q y_q (fst c) (snd c) (fst t) (snd t) dir) in *.
  set (arc := samples (arcPoint self (fst c) (snd c)) (tick 1 w1) la) in *.
  set (line := samples (linePoint self x_n y_n (fst t) (snd t))
                 (tick (1 + length la) w1) ll) in *.
  assert (Harc : map xy arc = map (arcPoint self (fst c) (snd c)) la)
    by apply samples_xy.
  assert (Hline : map xy line
                  = map (linePoint self x_n y_n (fst t) (snd t)) ll)
    by apply samples_xy.
  assert (Hna : length arc = length la) by apply samples_length.
  assert (Hnl : length line = length ll) by apply samples_length.
  exists arc, line, (fst angles).
  split; [exact Hp|]. split; [|split; [|split; [|split; [|split]]]].
  - rewrite Harc, Hna. rewrite (arcTrace_steps self _ _ _ _ _ Ha) at 1.
    now rewrite map_map.
  - rewrite Hline, Hnl. rewrite (lineTrace_steps self _ _ _ _ _ _ Hl) at 1.
    now rewrite map_map.
  - rewrite Harc. exact (arc_samples_spaced self HR Hs _ _ _ _ _ _ _ Ha).
  - rewrite Hline. exact (line_samples_spaced self Hs _ _ _ _ _ _ Hl).
  - intros arc' p q line' Earc Eline.
    assert (Hq : xy q = t).
    { destruct ll as [|i ll']; [rewrite Eline in Hnl; discriminate|].
      assert (Hh : hd (0, 0) (map xy (q :: line'))
                   = hd (0, 0) (map (linePoint self x_n y_n (fst t) (snd t))
                                  (i :: ll')))
        by (rewrite <- Eline; now rewrite Hline).
      cbn [map hd] in Hh. rewrite Hh.
      rewrite (line_first self fuel x_n y_n (fst t) (snd t) i ll' Hl).
      symmetry. apply surjective_pairing. }
    split; [exact Hq|]. rewrite Hq.
    assert (Hne : la <> []).
    { intros ->. rewrite Earc, length_app in Hna. simpl in Hna. lia. }
    assert (Hp' : xy p = arcPoint self (fst c) (snd c) (last la 0)).
    { rewrite <- last_map, <- Harc, Earc, map_app. cbn [map].
      now rewrite last_last. }
    assert (Hdir : 0 <= IZR (Dir_to_int dir) * (snd angles - fst angles)).
    { subst angles. rewrite arcAngles_real. cbn [fst snd].
      apply arcStop_ahead; apply wrap2pi_atan2. }
    pose proof (arcPoint_stop_dist self x_q y_q (fst c) (snd c) (fst t)
                  (snd t) dir) as Hstop.
    rewrite <- !surjective_pairing in Hstop. fold angles in Hstop.
    rewrite Hp'.
    eapply Rle_trans;
      [apply (dist_triangle _ _ (arcPoint self (fst c) (snd c) (snd angles)))|].
    rewrite Hstop. apply Rplus_le_compat_r.
    exact (arc_last_to_stop self HR Hs fuel _ _ _ _ _ _ 0 Hdir Ha Hne).
  - exact (line_samples_far self fuel x_n y_n (fst t) (snd t) ll _ Hl).
Qed.

(** The bound of C7 fails on the first run: [makePath] succeeds there, and
    in whatever path it leaves the last line sample and the goal are
    neighbours more than twice the [path_resolution] apart. *)
Lemma spacing_bound_broken :
  (exists (fuel : nat) (path' : Path R) (w' : World),
     makePath (tf := R_Tf) planner fuel (pose_at 0 0) (pose_at (-10) 3)
       empty_path world0 = Some (true, path', w'))
  /\ forall (fuel : nat) (path' : Path R) (w' : World),
       makePath (tf := R_Tf) planner fuel (pose_at 0 0) (pose_at (-10) 3)
         empty_path world0 = Some (true, path', w') ->
       ~ consecutive
           (fun p q => 0 <= dist p q <= 2 * m_pathResolution planner)
           (map xy (poses path')).
Proof.
  split.
  - destruct run_returns as [n H].
    destruct (H (S n) empty_path world0 (Nat.lt_succ_diag_r n))
      as (path' & w' & E).
    now exists (S n), path', w'.
  - intros fuel path' w' E Hc.
    destruct (makePath_shape (tf := R_Tf) planner _ _ _ _ _ _ _ E)
      as (_ & la & ll & _ & Hl & Hp).
    cbn [getYaw R_Tf] in Hl, Hp. rewrite yaw_pose_at in Hl, Hp.
    cbn [pose_at pose position x y] in Hl, Hp.
    rewrite selectedTangent_run in Hl, Hp. cbn [fst snd] in Hl, Hp.
    destruct (lineTrace_run _ _ Hl) as [ll' ->].
    pose proof (line_samples_far planner fuel (-10) 3 0 3 (0 :: ll')
                  (tick (1 + length la)
                     (advised planner 0 0 (-10) 3 world0)) Hl) as Hfar.
    set (line := samples (linePoint planner (-10) 3 0 3)
                   (tick (1 + length la) (advised planner 0 0 (-10) 3 world0))
                   (0 :: ll')) in *.
    assert (Hne : line <> []) by discriminate.
    destruct (exists_last Hne) as (line' & q & Hq).
    rewrite Hq in Hfar, Hp.
    apply Forall_app in Hfar as [_ Hfar].
    apply Forall_inv in Hfar.
    rewrite Hp in Hc. rewrite <- app_assoc in Hc. cbn [app] in Hc.
    rewrite app_assoc, map_app in Hc. cbn [map] in Hc.
    apply consecutive_app_inv in Hc.
    change (xy (pose_at (-10) 3)) with (-10, 3) in Hc. lra.
Qed.

Lemma samples_spacing_run :
  exists (fuel : nat) (path' : Path R) (w' : World)
         (arc line : list (PoseStamped R)),
    makePath (tf := R_Tf) planner fuel (pose_at 0 0) (pose_at (-10) 3)
      empty_path world0 = Some (true, path', w')
    /\ poses path' = arc ++ line ++ [pose_at (-10) 3]
    /\ consecutive (fun p q => 0 <= dist p q <= m_pathResolution planner)
         (map xy arc)
    /\ consecutive (fun p q => dist p q = m_pathResolution planner)
         (map xy line)
    /\ (forall arc' p q line',
          arc = arc' ++ [p] -> line = q :: line' ->
          xy q = (0, 3)
          /\ dist (xy p) (xy q) <= 3 * m_pathResolution planner)
    /\ Forall (fun p => 2 * m_pathResolution planner
                        < dist (xy p) (xy (pose_at (-10) 3))) line.
Proof.
  destruct run_returns as [n H].
  destruct (H (S n) empty_path world0 (Nat.lt_succ_diag_r n))
    as (path' & w' & E).
  destruct (samples_spacing (tf := R_Tf) planner (S n) (pose_at 0 0)
              (pose_at (-10) 3) empty_path path' world0 w'
              (proj1 planner_pos) (proj2 planner_pos) E)
    as (arc & line & a0 & Hp & _ & _ & Ha & Hl & Ht & Hf).
  exists (S n), path', w', arc, line.
  repeat (split; [assumption|]). split; [|exact Hf].
  intros arc' p q line' Earc Eline.
  destruct (Ht arc' p q line' Earc Eline) as [Hq Hd].
  cbn [getYaw R_Tf] in Hq, Hd. rewrite yaw_pose_at in Hq, Hd.
  cbn [pose_at pose position x y] in Hq, Hd.
  rewrite selectedTangent_run in Hq, Hd. rewrite turningCenter_run in Hd.
  split; [exact Hq|].
  replace (dist (0, 3) (0, 3 / 2) - m_turningRadius planner) with 0 in Hd.
  - rewrite Rabs_R0, Rplus_0_r in Hd. exact Hd.
  - unfold dist. cbn [fst snd planner m_turningRadius].
    replace ((0 - 0) * (0 - 0) + (3 - 3 / 2) * (3 - 3 / 2))
      with ((3 / 2) * (3 / 2)) by lra.
    rewrite sqrt_square; lra.
Defined.

(** C8, as the code has it.  For start and stop angles in [0, 2 PI) and a
    radius that is positive and at most 2^30 spacings, so that the
    increment s / R is 2^-30 rad or more and is not lost when it is added
    to an angle (see [arc_sweep_never_ends]), the arc loop run towards
    the adjusted stop angle ends: it emits a finite list of angles and
    needs one test more than it emits.
    The angles are [startAngle + k * dir * (s / R)] for k = 0, 1, ...: they
    increase for Left and decrease for Right.  The adjusted stop angle is
    the given one up to a full turn, lies ahead of the start angle in the
    commanded direction by less than a full turn, every emitted angle is
    still more than two increments short of it, and the steps taken fit
    in the sweep: the loop never goes round the other way. *)
Theorem arc_sweep_stops (self : SimpleDubinsPath R)
    (startAngle stopAngle : R) (dir : Dir) :
  0 < m_turningRadius self ->
  m_turningRadius self <= 2 ^ 30 * m_pathResolution self ->
  0 <= startAngle < 2 * PI -> 0 <= stopAngle < 2 * PI ->
  let inc := m_pathResolution self / m_turningRadius self in
  let sgn := IZR (Dir_to_int dir) in
  let stop' := arcStop dir startAngle stopAngle in
  exists l : list R,
    (forall fuel, (length l < fuel)%nat ->
       arcTrace self fuel startAngle stop' dir = Some l)
    /\ l = map (fun k => startAngle + INR k * (sgn * inc))
             (List.seq 0 (length l))
    /\ Forall (fun a => 2 * inc < sgn * (stop' - a)) l
    /\ INR (length l) * inc <= sgn * (stop' - startAngle) < 2 * PI
    /\ (stop' = stopAngle \/ stop' = stopAngle + sgn * (2 * PI)).
Proof.
  intros HR Hs' H0 H1 inc sgn stop'.
  assert (Hs : 0 < m_pathResolution self).
  { assert (H2 : 0 < 2 ^ 30) by (apply pow_lt; lra).
    apply (Rmult_lt_reg_l (2 ^ 30)); [exact H2|]. lra. }
  pose proof (arcStop_ahead dir _ _ H0 H1) as Hahead.
  fold sgn stop' in Hahead.
  assert (Hinc : 0 < inc) by now apply angleIncrement_pos.
  destruct (arcTrace_stops self HR Hs startAngle stop' dir (proj1 Hahead))
    as (n & l & Hn).
  specialize (Hn (S n) (Nat.lt_succ_diag_r n)). unfold arcTrace in Hn.
  assert (cond_def : forall i,
    arcCond self stop' i = Rltb (2 * inc) (Rabs ((fun j => j) i - stop')))
    by reflexivity.
  assert (next_def : forall i,
    (fun j => j) (arcNext self dir i) = (fun j => j) i + sgn * inc)
    by reflexivity.
  exists l. split; [|split; [|split; [|split]]].
  - intros fuel Hf. unfold arcTrace.
    eapply for_trace_more_fuel;
      [exact (for_trace_exact _ _ _ _ _ Hn) | lia].
  - pose proof (emitted_steps _ _ _ _ next_def _ _ _ Hn) as E.
    now rewrite map_id in E.
  - destruct dir; cbn [Dir_to_int] in *.
    + destruct (emitted_up _ _ _ _ _ _ cond_def next_def (S n))
        with (i := startAngle) (l := l) as [Hall _];
        [subst sgn; lra | subst sgn; lra | exact Hn |].
      eapply Forall_impl; [|exact Hall]. cbv beta. subst sgn. intros; lra.
    + destruct (emitted_down _ _ _ _ _ _ (S n) cond_def next_def)
        with (i := startAngle) (l := l) as [Hall _];
        [subst sgn; lra | subst sgn; lra | exact Hn |].
      eapply Forall_impl; [|exact Hall]. cbv beta. subst sgn. intros; lra.
  - split; [|apply Hahead].
    destruct dir; cbn [Dir_to_int] in *.
    + destruct (emitted_up _ _ _ _ _ _ cond_def next_def (S n))
        with (i := startAngle) (l := l) as [_ Hlen];
        [subst sgn; lra | subst sgn; lra | exact Hn |].
      subst sgn. lra.
    + destruct (emitted_down _ _ _ _ _ _ (S n) cond_def next_def)
        with (i := startAngle) (l := l) as [_ Hlen];
        [subst sgn; lra | subst sgn; lra | exact Hn |].
      subst sgn. lra.
  - subst stop' sgn. destruct dir; cbn [Dir_to_int].
    + destruct (arcStop_Left _ _ H0 H1) as [_ [E|E]]; rewrite E; [left|right];
        lra.
    + destruct (arcStop_Right _ _ H0 H1) as [_ [E|E]]; rewrite E; [left|right];
        lra.
Qed.

Lemma arc_sweep_stops_run :
  let inc := m_pathResolution planner / m_turningRadius planner in
  let stop' := arcStop Right 1 2 in
  exists l : list R,
    (forall fuel, (length l < fuel)%nat ->
       arcTrace planner fuel 1 stop' Right = Some l)
    /\ l = map (fun k => 1 + INR k * (IZR (Dir_to_int Right) * inc))
             (List.seq 0 (length l))
    /\ Forall (fun a => 2 * inc < IZR (Dir_to_int Right) * (stop' - a)) l
    /\ INR (length l) * inc <= IZR (Dir_to_int Right) * (stop' - 1) < 2 * PI
    /\ (stop' = 2 \/ stop' = 2 + IZR (Dir_to_int Right) * (2 * PI)).
Proof.
  pose proof PI_gt_3 as HPI.
  apply (arc_sweep_stops planner 1 2 Right (proj1 planner_pos));
    cbn [planner m_turningRadius m_pathResolution]; lra.
Defined.





(** C10.  [generatePath] empties the caller's path before it emits, so
    whenever [makePath] succeeds on one path argument it succeeds on any
    other, in the same world, with the same sequence of poses (and the
    same stamp and frame on the path): the old poses leave no trace.
    This holds in every reading of [double]. *)
Theorem makePath_forgets_old_poses {D : Type} {dbl : Double D}
    {libm : Libm D} {tf : Tf D} (self : SimpleDubinsPath D)
    (fuel : nat) (start goal : PoseStamped D)
    (path1 path2 path1' : Path D) (w w' : World) :
  makePath self fuel start goal path1 w = Some (true, path1', w') ->
  exists path2' : Path D,
    makePath self fuel start goal path2 w = Some (true, path2', w')
    /\ poses path2' = poses path1'
    /\ stamp (path_header path2') = stamp (path_header path1')
    /\ frame_id (path_header path2') = frame_id (path_header path1').
Proof.
  rewrite !makePath_eq.
  destruct (unreachable self _ _ _ _); [discriminate|].
  rewrite !generatePath_trace.
  destruct (arcAngles _ _ _ _ _ _ _) as [a0 a1].
  destruct (arcTrace self fuel a0 a1 _) as [la|]; [|discriminate].
  destruct (lineTrace self fuel _ _ _ _) as [ll|]; [|discriminate].
  intros E. injection E as <- <-. eexists. split; [reflexivity|].
  cbn [poses path_header stamp frame_id]. auto.
Qed.

Lemma makePath_forgets_old_poses_run :
  exists (fuel : nat) (path1' : Path R) (w' : World),
    makePath (tf := R_Tf) planner fuel (pose_at 0 0) (pose_at (-10) 3)
      used_path world0 = Some (true, path1', w')
    /\ exists path2' : Path R,
         makePath (tf := R_Tf) planner fuel (pose_at 0 0) (pose_at (-10) 3)
           empty_path world0 = Some (true, path2', w')
         /\ poses path2' = poses path1'
         /\ stamp (path_header path2') = stamp (path_header path1')
         /\ frame_id (path_header path2') = frame_id (path_header path1').
Proof.
  destruct run_returns as [n H].
  destruct (H (S n) used_path world0 (Nat.lt_succ_diag_r n))
    as (path1' & w' & E).
  exists (S n), path1', w'. split; [exact E|].
  exact (makePath_forgets_old_poses (tf := R_Tf) planner (S n) (pose_at 0 0)
           (pose_at (-10) 3) used_path empty_path path1' world0 w' E).
Defined.

(** ** Further properties of the planner *)

(** *** The turning circle *)

(** X2.  Whichever centre [turningCenter] returns, its circle passes
    through the robot's position and the heading is tangent to it there:
    the centre is at distance |R| from the position, on the normal of the
    heading. *)
Theorem turning_circle_touches_pose (self : SimpleDubinsPath R)
    (x_q y_q theta_q x_n y_n : R) :
  let c := turningCenter self x_q y_q theta_q x_n y_n in
  dist c (x_q, y_q) = Rabs (m_turningRadius self)
  /\ (fst c - x_q) * cos theta_q + (snd c - y_q) * sin theta_q = 0.
Proof.
  intros c. split; [apply turningCenter_dist|].
  subst c. rewrite turningCenter_side.
  destruct (Rltb _ 0); unfold rightCenter, leftCenter; cbn [fst snd]; ring.
Qed.

(** *** The two entry points, the clock and the log *)

Section Surroundings.
Context {D : Type} {dbl : Double D} {libm : Libm D} {tf : Tf D}.
Local Open Scope double_scope.
Local Open Scope nat_scope.

Lemma tick_fields (n : nat) (w : World) :
  wall (tick n w) = wall w /\ ticks (tick n w) = ticks w + n
  /\ rosout (tick n w) = rosout w.
Proof.
  revert w. induction n as [|n IH]; intros w.
  - cbn. auto.
  - rewrite tick_S. destruct (IH (snd (now w))) as (-> & -> & ->).
    cbn [now snd wall ticks rosout]. repeat split. lia.
Qed.

Lemma advised_fields (self : SimpleDubinsPath D) (x_q y_q x_n y_n : D)
    (w : World) :
  wall (advised self x_q y_q x_n y_n w) = wall w
  /\ ticks (advised self x_q y_q x_n y_n w) = ticks w.
Proof. unfold advised. destruct (_ >? _); cbn; auto. Qed.

(** What a [makePath] that returned [true] has left, in full: the path
    and the world. *)
Lemma makePath_result (self : SimpleDubinsPath D) (fuel : nat)
    (start goal : PoseStamped D) (path path' : Path D) (w w' : World) :
  makePath self fuel start goal path w = Some (true, path', w') ->
  let x_q := x (position (pose start)) in
  let y_q := y (position (pose start)) in
  let theta_q := getYaw (orientation (pose start)) in
  let x_n := x (position (pose goal)) in
  let y_n := y (position (pose goal)) in
  let c := turningCenter self x_q y_q theta_q x_n y_n in
  let t := selectedTangent self x_q y_q theta_q x_n y_n in
  let w1 := advised self x_q y_q x_n y_n w in
  exists la ll : list D,
    path' = {| path_header :=
                 {| seq := seq (path_header path);
                    stamp := wall w (ticks w); frame_id := "map" |};
               poses :=
                 samples (arcPoint self (fst c) (snd c)) (tick 1 w1) la
                 ++ samples (linePoint self x_n y_n (fst t) (snd t))
                      (tick (1 + length la) w1) ll
                 ++ [goal] |}
    /\ w' = tick (1 + length la + length ll) w1.
Proof.
  intros H x_q y_q theta_q x_n y_n c t w1.
  rewrite makePath_eq in H. fold x_q y_q theta_q x_n y_n c t w1 in H.
  destruct (unreachable self x_n y_n (fst c) (snd c)); [discriminate|].
  rewrite generatePath_trace in H.
  destruct (arcAngles _ _ _ _ _ _ _) as [a0 a1].
  destruct (arcTrace self fuel a0 a1 _) as [la|]; [|discriminate].
  destruct (lineTrace self fuel x_n y_n (fst t) (snd t)) as [ll|];
    [|discriminate].
  destruct (advised_fields self x_q y_q x_n y_n w) as [Ew Et].
  fold w1 in Ew, Et.
  change (fst (now w1)) with (wall w1 (ticks w1)) in H.
  rewrite Ew, Et in H.
  exists la, ll. split; congruence.
Qed.

Lemma samples_stamps (f : D -> D * D) (l : list D) :
  forall w : World,
    map (fun p => stamp (header p)) (samples f w l)
    = map (fun k => wall w (ticks w + k)) (List.seq 0 (length l)).
Proof.
  induction l as [|i l IH]; intros w; [reflexivity|].
  cbn [samples map length List.seq now fst snd stamped_point header stamp].
  rewrite Nat.add_0_r. f_equal. rewrite IH, <- seq_shift, map_map.
  cbn [now snd wall ticks]. apply map_ext. intros k. f_equal. lia.
Qed.

(** Every pose made by [emit] is a default-constructed message but for
    its stamp, its frame and its planar position. *)
Definition bare (p : PoseStamped D) : Prop :=
  frame_id (header p) = "map"%string
  /\ seq (header p) = 0%N
  /\ z (position (pose p)) = #0
  /\ orientation (pose p) = {| qx := #0; qy := #0; qz := #0; qw := #0 |}.

Lemma samples_bare (f : D -> D * D) (l : list D) :
  forall w : World, Forall bare (samples f w l).
Proof.
  induction l as [|i l IH]; intros w; cbn [samples]; constructor.
  - repeat split.
  - apply IH.
Qed.
End Surroundings.

(** X6.  [makePath] and [getTargetHeading] agree on reachability: on the
    pose and target [makePath] was given, [getTargetHeading] returns the
    boolean [makePath] returned.  Where this is [false] neither has
    touched its output: the path is the one passed in, the clock has not
    been read, and [yawTarget] keeps its value. *)
Theorem entry_points_agree {D : Type} {dbl : Double D} {libm : Libm D}
    {tf : Tf D} (self : SimpleDubinsPath D) (fuel : nat)
    (start goal : PoseStamped D) (path path' : Path D) (w w' : World)
    (b : bool) (yawTarget : D) :
  makePath self fuel start goal path w = Some (b, path', w') ->
  let heading :=
    getTargetHeading self (x (position (pose start)))
      (y (position (pose start))) (getYaw (orientation (pose start)))
      (x (position (pose goal))) (y (position (pose goal))) yawTarget in
  fst heading = b
  /\ (b = false ->
      path' = path /\ ticks w' = ticks w /\ snd heading = yawTarget).
Proof.
  intros H heading. subst heading.
  rewrite makePath_eq in H. rewrite getTargetHeading_eq.
  destruct (unreachable self _ _ _ _).
  - injection H as <- <- <-. cbn [fst snd]. split; [reflexivity|].
    intros _. split; [reflexivity|]. split; [|reflexivity].
    cbn [ros_log ticks]. apply advised_fields.
  - destruct (generatePath _ _ _ _ _ _ _ _ _ _ _ _ _ _) as [[p v]|];
      [|discriminate].
    injection H as <- <- <-. cbn [fst]. split; [reflexivity | discriminate].
Qed.

Lemma inside_run (fuel : nat) (path : Path R) (w : World) :
  exists w' : World,
    makePath (tf := R_Tf) planner fuel (pose_at 0 0) (pose_at 0 1) path w
    = Some (false, path, w').
Proof.
  rewrite makePath_eq. cbn [getYaw R_Tf]. rewrite yaw_pose_at.
  cbn [pose_at pose position x y].
  assert (Ec : turningCenter planner 0 0 0 0 1 = (0, 3 / 2)).
  { unfold turningCenter, pow2. real. cbn [planner m_turningRadius].
    rewrite sin_0, cos_0. rewrite Rltb_ge by lra. f_equal; lra. }
  rewrite Ec. cbn [fst snd].
  assert (Eu : unreachable planner 0 1 0 (3 / 2) = true).
  { apply unreachable_lt. unfold dist.
    cbn [planner m_turningRadius fst snd]. apply sqrt_lt; lra. }
  rewrite Eu. eexists. reflexivity.
Qed.

Lemma entry_points_agree_run :
  fst (getTargetHeading planner 0 0 0 0 1 7) = false.
Proof.
  destruct (inside_run 0 empty_path world0) as [w' E].
  pose proof (proj1 (entry_points_agree (tf := R_Tf) planner 0 (pose_at 0 0)
                       (pose_at 0 1) empty_path empty_path world0 w' false 7
                       E)) as H.
  cbn [getYaw R_Tf] in H. rewrite yaw_pose_at in H. exact H.
Defined.

Lemma map_seq_from {A : Type} (n : nat) :
  forall (f : nat -> A) (a : nat),
    map f (List.seq a n) = map (fun k => f (a + k)%nat) (List.seq 0 n).
Proof.
  induction n as [|n IH]; intros f a; [reflexivity|].
  cbn [List.seq map]. rewrite Nat.add_0_r. f_equal.
  rewrite (IH f (S a)), (IH (fun k => f (a + k)%nat) 1%nat).
  apply map_ext. intros k. f_equal. lia.
Qed.

(** X7.  The clock.  A [makePath] that returns [true] reads
    [ros::Time::now()] once per pose of the new path: the first reading
    stamps the path's header, the next ones stamp the poses before the
    goal in their order, and the goal, appended last, keeps the stamp it
    came with. *)
Theorem makePath_stamps {D : Type} {dbl : Double D} {libm : Libm D}
    {tf : Tf D} (self : SimpleDubinsPath D) (fuel : nat)
    (start goal : PoseStamped D) (path path' : Path D) (w w' : World) :
  makePath self fuel start goal path w = Some (true, path', w') ->
  (ticks w' = ticks w + length (poses path'))%nat
  /\ wall w' = wall w
  /\ stamp (path_header path') = wall w (ticks w)
  /\ map (fun p => stamp (header p)) (poses path')
     = map (fun k => wall w (ticks w + 1 + k))
         (List.seq 0 (length (poses path') - 1))
       ++ [stamp (header goal)].
Proof.
  intros H.
  destruct (makePath_result self fuel start goal path path' w w' H)
    as (la & ll & -> & ->).
  cbv zeta. cbn [path_header poses stamp].
  set (w1 := advised self _ _ _ _ w).
  destruct (advised_fields self (x (position (pose start)))
              (y (position (pose start))) (x (position (pose goal)))
              (y (position (pose goal))) w) as [Ew Et].
  fold w1 in Ew, Et.
  destruct (tick_fields (1 + length la + length ll) w1) as (Tw & Tt & _).
  destruct (tick_fields 1 w1) as (Aw & At & _).
  destruct (tick_fields (1 + length la) w1) as (Lw & Lt & _).
  rewrite !length_app, !samples_length. cbn [length].
  split; [rewrite Tt, Et; lia|]. split; [now rewrite Tw|].
  split; [reflexivity|].
  rewrite app_assoc, map_app. cbn [map]. f_equal.
  rewrite map_app, !samples_stamps.
  replace (length la + (length ll + 1) - 1)%nat
    with (length la + length ll)%nat by lia.
  rewrite seq_app, map_app, Nat.add_0_l. f_equal.
  - rewrite Aw, At, Ew, Et. reflexivity.
  - rewrite Lw, Lt, Ew, Et. rewrite (map_seq_from _ _ (length la)).
    apply map_ext. intros k. f_equal. lia.
Qed.

Lemma makePath_stamps_run :
  exists (fuel : nat) (path' : Path R) (w' : World),
    makePath (tf := R_Tf) planner fuel (pose_at 0 0) (pose_at (-10) 3)
      used_path world0 = Some (true, path', w')
    /\ ticks w' = (ticks world0 + length (poses path'))%nat.
Proof.
  destruct run_returns as [n H].
  destruct (H (S n) used_path world0 (Nat.lt_succ_diag_r n))
    as (path' & w' & E).
  exists (S n), path', w'. split; [exact E|].
  exact (proj1 (makePath_stamps (tf := R_Tf) planner (S n) (pose_at 0 0)
                  (pose_at (-10) 3) used_path path' world0 w' E)).
Defined.

(** X8.  What the poses carry.  In the path of a [makePath] that returned
    [true] the header has the frame map and the sequence number the path
    came with, the last pose is the goal message as passed in, and every
    pose before it is bare: frame map, sequence number 0, height 0 and the
    all-zero quaternion of a default-constructed message, which is not a
    rotation.  Only the goal carries an orientation. *)
Theorem makePath_bare_poses {D : Type} {dbl : Double D} {libm : Libm D}
    {tf : Tf D} (self : SimpleDubinsPath D) (fuel : nat)
    (start goal : PoseStamped D) (path path' : Path D) (w w' : World) :
  makePath self fuel start goal path w = Some (true, path', w') ->
  frame_id (path_header path') = "map"%string
  /\ seq (path_header path') = seq (path_header path)
  /\ exists body : list (PoseStamped D),
       poses path' = body ++ [goal] /\ Forall bare body.
Proof.
  intros H.
  destruct (makePath_result self fuel start goal path path' w w' H)
    as (la & ll & -> & _).
  cbv zeta. cbn [path_header poses frame_id seq].
  split; [reflexivity|]. split; [reflexivity|].
  eexists. rewrite app_assoc. split; [reflexivity|].
  apply Forall_app. split; apply samples_bare.
Qed.

Lemma makePath_bare_poses_run :
  exists (fuel : nat) (path' : Path R) (w' : World),
    makePath (tf := R_Tf) planner fuel (pose_at 0 0) (pose_at (-10) 3)
      used_path world0 = Some (true, path', w')
    /\ frame_id (path_header path') = "map"%string.
Proof.
  destruct run_returns as [n H].
  destruct (H (S n) used_path world0 (Nat.lt_succ_diag_r n))
    as (path' & w' & E).
  exists (S n), path', w'. split; [exact E|].
  exact (proj1 (makePath_bare_poses (tf := R_Tf) planner (S n) (pose_at 0 0)
                  (pose_at (-10) 3) used_path path' world0 w' E)).
Defined.

(** The two lines [makePath] can log. *)
Definition warn_line : Level * string :=
  (WARN,
   "The desired turning radius is larger than half the length between the waypoint."%string).

Definition error_line : Level * string :=
  (ERROR, "Target not reachable with simple Dubin's path."%string).

Lemma makePath_rosout {D : Type} {dbl : Double D} {libm : Libm D}
    {tf : Tf D} (self : SimpleDubinsPath D) (fuel : nat)
    (start goal : PoseStamped D) (path path' : Path D) (w w' : World)
    (b : bool) :
  makePath self fuel start goal path w = Some (b, path', w') ->
  rosout w'
  = rosout (advised self (x (position (pose start)))
              (y (position (pose start))) (x (position (pose goal)))
              (y (position (pose goal))) w)
    ++ (if b then [] else [error_line]).
Proof.
  intros H. destruct b.
  - destruct (makePath_result self fuel start goal path path' w w' H)
      as (la & ll & _ & ->).
    cbv zeta. rewrite app_nil_r. apply tick_fields.
  - rewrite makePath_eq in H. destruct (unreachable self _ _ _ _).
    + now injection H as _ <-.
    + destruct (generatePath _ _ _ _ _ _ _ _ _ _ _ _ _ _) as [[p v]|];
        discriminate.
Qed.

(** X9.  The log.  [makePath] appends to the log and nothing else: the
    warning when the radius compares above half the distance from start
    to goal as the code computes it, sqrt(pow(x_q - x_n, 2) +
    pow(y_q - y_n, 2)) / 2, then the error when it returns [false].  This
    holds in every reading of [double]. *)
Theorem makePath_log {D : Type} {dbl : Double D} {libm : Libm D}
    {tf : Tf D} (self : SimpleDubinsPath D) (fuel : nat)
    (start goal : PoseStamped D) (path path' : Path D) (w w' : World)
    (b : bool) :
  let x_q := x (position (pose start)) in
  let y_q := y (position (pose start)) in
  let x_n := x (position (pose goal)) in
  let y_n := y (position (pose goal)) in
  makePath self fuel start goal path w = Some (b, path', w') ->
  rosout w'
  = rosout w
    ++ (if (m_turningRadius self
            >? dsqrt (pow2 (x_q - x_n) + pow2 (y_q - y_n)) / #2)%D
        then [warn_line] else [])
    ++ (if b then [] else [error_line]).
Proof.
  intros x_q y_q x_n y_n H.
  rewrite (makePath_rosout self fuel start goal path path' w w' b H).
  fold x_q y_q x_n y_n. rewrite app_assoc. f_equal.
  unfold advised.
  destruct (m_turningRadius self
            >? dsqrt (pow2 (x_q - x_n) + pow2 (y_q - y_n)) / #2)%D;
    [reflexivity | now rewrite app_nil_r].
Qed.

(** Over the reals, a target inside the circle, 1 from the start: the
    warning, then the error. *)
Lemma makePath_log_run :
  exists w' : World,
    makePath (tf := R_Tf) planner 0 (pose_at 0 0) (pose_at 0 1) empty_path
      world0 = Some (false, empty_path, w')
    /\ rosout w' = rosout world0 ++ [warn_line; error_line].
Proof.
  destruct (inside_run 0 empty_path world0) as [w' E].
  exists w'. split; [exact E|].
  rewrite (makePath_log (tf := R_Tf) planner 0 (pose_at 0 0)
             (pose_at 0 1) empty_path empty_path world0 w' false E).
  f_equal. cbn [pose_at pose position x y planner m_turningRadius].
  unfold pow2. real. rewrite Rltb_lt; [reflexivity|].
  apply (Rmult_lt_reg_r 2); [lra|].
  replace (sqrt ((0 - 0) * (0 - 0) + (0 - 1) * (0 - 1)) / 2 * 2)
    with (sqrt ((0 - 0) * (0 - 0) + (0 - 1) * (0 - 1))) by field.
  apply sqrt_lt; lra.
Defined.

(** *** The path stays on the curve *)

(** A property of the traced values is a property of the samples. *)
Lemma samples_Forall {D : Type} {dbl : Double D} (P : D * D -> Prop)
    (f : D -> D * D) (w : World) (l : list D) :
  Forall (fun i => P (f i)) l -> Forall (fun p => P (xy p)) (samples f w l).
Proof.
  intros H. apply Forall_map. rewrite samples_xy. now apply Forall_map.
Qed.

Lemma Ratan2_scale (k v u : R) :
  0 < k -> Ratan2 (k * v) (k * u) = Ratan2 v u.
Proof.
  intros Hk. unfold Ratan2.
  assert (Hq : u <> 0 -> k * v / (k * u) = v / u) by (intros; field; lra).
  destruct (Rlt_dec 0 u) as [Hu|Hu].
  - destruct (Rlt_dec 0 (k * u)) as [_|N]; [|exfalso; nra].
    rewrite Hq; lra.
  - destruct (Rlt_dec 0 (k * u)) as [N|_]; [exfalso; nra|].
    destruct (Rlt_dec u 0) as [Hu'|Hu'].
    + destruct (Rlt_dec (k * u) 0) as [_|N]; [|exfalso; nra].
      rewrite Hq by lra.
      destruct (Rlt_dec v 0); destruct (Rlt_dec (k * v) 0);
        try reflexivity; exfalso; nra.
    + destruct (Rlt_dec (k * u) 0) as [N|_]; [exfalso; nra|].
      destruct (Rlt_dec 0 v); destruct (Rlt_dec 0 (k * v));
        try (exfalso; nra); [reflexivity|].
      destruct (Rlt_dec v 0); destruct (Rlt_dec (k * v) 0);
        try reflexivity; exfalso; nra.
Qed.

(** A pose on the curve from [start] to [goal]: on the turning circle, or
    on the straight segment from the tangent point to the goal at a
    fraction [lam] of it between 0 and 1, the goal being seen from it,
    before the goal, under the heading [getTargetHeading] reports. *)
Definition onCurve {tf : Tf R} (self : SimpleDubinsPath R)
    (start goal : PoseStamped R) (yawTarget : R) (p : PoseStamped R)
    : Prop :=
  let x_q := x (position (pose start)) in
  let y_q := y (position (pose start)) in
  let theta_q := getYaw (orientation (pose start)) in
  let x_n := x (position (pose goal)) in
  let y_n := y (position (pose goal)) in
  let c := turningCenter self x_q y_q theta_q x_n y_n in
  let t := selectedTangent self x_q y_q theta_q x_n y_n in
  let heading :=
    snd (getTargetHeading self x_q y_q theta_q x_n y_n yawTarget) in
  dist (xy p) c = m_turningRadius self
  \/ exists lam : R,
       0 <= lam <= 1
       /\ xy p = (fst t + lam * (x_n - fst t), snd t + lam * (y_n - snd t))
       /\ (lam < 1 ->
           Ratan2 (y_n - snd (xy p)) (x_n - fst (xy p)) = heading).

(** X10.  The path stays on the curve.  Every pose of the path of a
    [makePath] that returned [true] is on the turning circle or on the
    straight segment from the tangent point to the goal, at a fraction of
    it between 0 and 1: the line loop does not step over the goal.  From
    every pose of the segment before the goal, the goal is seen under the
    heading [getTargetHeading] reports. *)
Theorem path_stays_on_curve {tf : Tf R} (self : SimpleDubinsPath R)
    (fuel : nat) (start goal : PoseStamped R) (path path' : Path R)
    (w w' : World) (yawTarget : R) :
  0 < m_turningRadius self -> 0 < m_pathResolution self ->
  makePath self fuel start goal path w = Some (true, path', w') ->
  Forall (onCurve self start goal yawTarget) (poses path').
Proof.
  intros HR Hs Hm. unfold onCurve.
  set (x_q := x (position (pose start))).
  set (y_q := y (position (pose start))).
  set (theta_q := getYaw (orientation (pose start))).
  set (x_n := x (position (pose goal))).
  set (y_n := y (position (pose goal))).
  set (c := turningCenter self x_q y_q theta_q x_n y_n).
  set (t := selectedTangent self x_q y_q theta_q x_n y_n).
  set (heading := snd (getTargetHeading self x_q y_q theta_q x_n y_n
                         yawTarget)).
  destruct (makePath_shape self fuel start goal path path' w w' Hm)
    as (Hu & la & ll & Ha & Hl & Hp).
  fold x_q y_q theta_q x_n y_n c t in Hu, Ha, Hl, Hp.
  assert (Eh : heading = Ratan2 (y_n - snd t) (x_n - fst t)).
  { subst heading. rewrite getTargetHeading_eq. fold c t. now rewrite Hu. }
  rewrite Hp.
  set (P := fun q : R * R =>
              dist q c = m_turningRadius self
              \/ exists lam : R,
                   0 <= lam <= 1
                   /\ q = (fst t + lam * (x_n - fst t),
                           snd t + lam * (y_n - snd t))
                   /\ (lam < 1 ->
                       Ratan2 (y_n - snd q) (x_n - fst q) = heading)).
  set (w1 := advised self x_q y_q x_n y_n w).
  change (Forall (fun p => P (xy p))
            (samples (arcPoint self (fst c) (snd c)) (tick 1 w1) la
             ++ samples (linePoint self x_n y_n (fst t) (snd t))
                  (tick (1 + length la) w1) ll
             ++ [goal])).
  apply Forall_app. split; [|apply Forall_app; split].
  - apply (samples_Forall P). apply Forall_forall. intros i _. left.
    rewrite (surjective_pairing c) at 2. now apply arcPoint_on_circle.
  - apply (samples_Forall P).
    pose proof (proj1 (lineTrace_before_goal self fuel x_n y_n (fst t)
                         (snd t) ll Hs Hl)) as Hb.
    apply (Forall_impl _ (P := fun i =>
             0 <= i
             /\ i * m_pathResolution self
                < sqrt ((x_n - fst t) * (x_n - fst t)
                        + (y_n - snd t) * (y_n - snd t)))); [|exact Hb].
    intros i [Hi Hlt]. right. unfold linePoint. real. cbv zeta.
    set (dx := x_n - fst t) in *. set (dy := y_n - snd t) in *.
    set (nrm := sqrt (dx * dx + dy * dy)) in *.
    set (s := m_pathResolution self) in *.
    assert (Hnrm : 0 < nrm) by nra.
    assert (Hlam : 0 <= i * s / nrm < 1).
    { split.
      - apply Rmult_le_pos; [nra|]. left. now apply Rinv_0_lt_compat.
      - apply (Rmult_lt_reg_r nrm); [exact Hnrm|]. unfold Rdiv.
        rewrite Rmult_assoc, Rinv_l; lra. }
    exists (i * s / nrm). split; [lra|]. split.
    + f_equal; field; lra.
    + intros _. cbn [fst snd]. rewrite Eh. fold dx dy.
      replace (y_n - (snd t + i * s * (dy / nrm)))
        with ((1 - i * s / nrm) * dy) by (subst dy; field; lra).
      replace (x_n - (fst t + i * s * (dx / nrm)))
        with ((1 - i * s / nrm) * dx) by (subst dx; field; lra).
      apply Ratan2_scale. lra.
  - constructor; [|constructor]. right. exists 1. split; [lra|]. split.
    + unfold xy. fold x_n y_n. f_equal; ring.
    + intros F. exfalso. lra.
Qed.

Lemma path_stays_on_curve_run :
  exists (fuel : nat) (path' : Path R) (w' : World),
    makePath (tf := R_Tf) planner fuel (pose_at 0 0) (pose_at (-10) 3)
      empty_path world0 = Some (true, path', w')
    /\ Forall (onCurve (tf := R_Tf) planner (pose_at 0 0) (pose_at (-10) 3) 0)
         (poses path').
Proof.
  destruct run_returns as [n H].
  destruct (H (S n) empty_path world0 (Nat.lt_succ_diag_r n))
    as (path' & w' & E).
  exists (S n), path', w'. split; [exact E|].
  exact (path_stays_on_curve (tf := R_Tf) planner (S n) (pose_at 0 0)
           (pose_at (-10) 3) empty_path path' world0 w' 0
           (proj1 planner_pos) (proj2 planner_pos) E).
Defined.

(** The start angle of [generatePath] is the angle of the robot's
    position: a position on the circle is the arc point at the start
    angle. *)
Lemma arcPoint_at_start (self : SimpleDubinsPath R)
    (x_q y_q x_cr y_cr x_lc y_lc : R) (dir : Dir) :
  dist (x_q, y_q) (x_cr, y_cr) = m_turningRadius self ->
  arcPoint self x_cr y_cr (fst (arcAngles x_q y_q x_cr y_cr x_lc y_lc dir))
  = (x_q, y_q).
Proof.
  unfold dist. cbn [fst snd]. intros Hr.
  pose proof (Ratan2_polar (x_q - x_cr) (y_q - y_cr)) as [Hc Hs].
  rewrite Hr in Hc, Hs.
  rewrite arcAngles_real. cbn [fst]. unfold arcPoint. real.
  assert (Hw : cos (wrap2pi (Ratan2 (y_q - y_cr) (x_q - x_cr)))
               = cos (Ratan2 (y_q - y_cr) (x_q - x_cr))
               /\ sin (wrap2pi (Ratan2 (y_q - y_cr) (x_q - x_cr)))
                  = sin (Ratan2 (y_q - y_cr) (x_q - x_cr))).
  { unfold wrap2pi. destruct (Rltb _ 0); [|auto].
    now rewrite cos_turn, sin_turn. }
  destruct Hw as [-> ->]. f_equal; lra.
Qed.

(** X11.  Where the path starts.  With a positive radius and resolution
    the first pose
    of the path of a [makePath] that returned [true] is at the robot's
    position when the arc loop emits at all, that is, when the sweep from
    the start angle to the stop angle is more than two angle increments;
    else it is at the tangent point when the line loop emits; else the
    path is the goal alone. *)
Theorem path_first_pose {tf : Tf R} (self : SimpleDubinsPath R)
    (fuel : nat) (start goal : PoseStamped R) (path path' : Path R)
    (w w' : World) :
  0 < m_turningRadius self -> 0 < m_pathResolution self ->
  makePath self fuel start goal path w = Some (true, path', w') ->
  let x_q := x (position (pose start)) in
  let y_q := y (position (pose start)) in
  let theta_q := getYaw (orientation (pose start)) in
  let x_n := x (position (pose goal)) in
  let y_n := y (position (pose goal)) in
  let c := turningCenter self x_q y_q theta_q x_n y_n in
  let t := selectedTangent self x_q y_q theta_q x_n y_n in
  let a := arcAngles x_q y_q (fst c) (snd c) (fst t) (snd t)
             (turningDirection x_q y_q theta_q x_n y_n) in
  xy (hd goal (poses path'))
  = if arcCond self (snd a) (fst a) then (x_q, y_q)
    else if lineCond self x_n y_n (fst t) (snd t) 0 then t
    else xy goal.
Proof.
  intros HR _ Hm x_q y_q theta_q x_n y_n c t a.
  destruct (makePath_shape self fuel start goal path path' w w' Hm)
    as (_ & la & ll & Ha & Hl & Hp).
  fold x_q y_q theta_q x_n y_n c t in Ha, Hl, Hp. fold a in Ha.
  rewrite Hp. destruct fuel as [|fuel]; [discriminate|].
  unfold arcTrace in Ha. cbn [for_trace] in Ha.
  destruct (arcCond self (snd a) (fst a)).
  - destruct (for_trace fuel _ _ _) as [la'|]; [|discriminate].
    injection Ha as <-. cbn [samples app hd].
    unfold xy, stamped_point. cbn [pose position x y].
    rewrite <- surjective_pairing.
    apply (arcPoint_at_start self x_q y_q (fst c) (snd c) (fst t) (snd t)
             (turningDirection x_q y_q theta_q x_n y_n)).
    rewrite <- surjective_pairing.
    rewrite dist_sym.
    pose proof (turningCenter_dist self x_q y_q theta_q x_n y_n) as Hc.
    fold c in Hc. rewrite Hc. apply Rabs_right. lra.
  - injection Ha as <-. cbn [samples app].
    unfold lineTrace in Hl. real. cbn [for_trace] in Hl.
    destruct (lineCond self x_n y_n (fst t) (snd t) 0).
    + destruct (for_trace fuel _ _ _) as [ll'|]; [|discriminate].
      injection Hl as <-. cbn [samples app hd].
      unfold xy, stamped_point. cbn [pose position x y].
      unfold linePoint. real. cbv zeta. cbn [fst snd].
      rewrite !Rmult_0_l, !Rplus_0_r. symmetry. apply surjective_pairing.
    + injection Hl as <-. reflexivity.
Qed.

Lemma path_first_pose_run :
  exists (fuel : nat) (path' : Path R) (w' : World),
    makePath (tf := R_Tf) planner fuel (pose_at 0 0) (pose_at (-10) 3)
      empty_path world0 = Some (true, path', w')
    /\ xy (hd (pose_at (-10) 3) (poses path'))
       = if arcCond planner
              (snd (arcAngles 0 0 0 (3 / 2) 0 3 Left))
              (fst (arcAngles 0 0 0 (3 / 2) 0 3 Left))
         then (0, 0)
         else if lineCond planner (-10) 3 0 3 0 then (0, 3) else (-10, 3).
Proof.
  destruct run_returns as [n H].
  destruct (H (S n) empty_path world0 (Nat.lt_succ_diag_r n))
    as (path' & w' & E).
  exists (S n), path', w'. split; [exact E|].
  pose proof (path_first_pose (tf := R_Tf) planner (S n) (pose_at 0 0)
                (pose_at (-10) 3) empty_path path' world0 w'
                (proj1 planner_pos) (proj2 planner_pos) E) as F.
  cbv zeta in F. cbn [getYaw R_Tf] in F. rewrite yaw_pose_at in F.
  cbn [pose_at pose position x y] in F.
  rewrite selectedTangent_run, turningCenter_run, direction_run in F.
  exact F.
Defined.

(** *** The size of the path *)

(** X12.  The size of the path.  With a positive radius and resolution a
    [makePath] that returned [true] has made at most one pose per spacing
    of a full turn of the circle and of the straight segment, and the
    goal: length * s <= 2 pi R + |tangent point - goal| + s. *)
Theorem path_size_bound {tf : Tf R} (self : SimpleDubinsPath R)
    (fuel : nat) (start goal : PoseStamped R) (path path' : Path R)
    (w w' : World) :
  0 < m_turningRadius self -> 0 < m_pathResolution self ->
  makePath self fuel start goal path w = Some (true, path', w') ->
  INR (length (poses path')) * m_pathResolution self
  <= 2 * PI * m_turningRadius self
     + dist (xy goal)
         (selectedTangent self (x (position (pose start)))
            (y (position (pose start))) (getYaw (orientation (pose start)))
            (x (position (pose goal))) (y (position (pose goal))))
     + m_pathResolution self.
Proof.
  intros HR Hs Hm.
  destruct (makePath_shape self fuel start goal path path' w w' Hm)
    as (_ & la & ll & Ha & Hl & Hp).
  set (x_q := x (position (pose start))) in *.
  set (y_q := y (position (pose start))) in *.
  set (theta_q := getYaw (orientation (pose start))) in *.
  set (x_n := x (position (pose goal))) in *.
  set (y_n := y (position (pose goal))) in *.
  set (c := turningCenter self x_q y_q theta_q x_n y_n) in *.
  set (t := selectedTangent self x_q y_q theta_q x_n y_n) in *.
  set (dir := turningDirection x_q y_q theta_q x_n y_n) in *.
  rewrite Hp, !length_app, !samples_length. cbn [length].
  rewrite !plus_INR. cbn [INR].
  pose proof (proj2 (lineTrace_before_goal self fuel x_n y_n (fst t) (snd t)
                       ll Hs Hl)) as Hll.
  change (sqrt ((x_n - fst t) * (x_n - fst t)
                + (y_n - snd t) * (y_n - snd t)))
    with (dist (xy goal) t) in Hll.
  rewrite arcAngles_real in Ha. cbn [fst snd] in Ha.
  pose proof (arcStop_ahead dir _ _
                (wrap2pi_atan2 (y_q - snd c) (x_q - fst c))
                (wrap2pi_atan2 (snd t - snd c) (fst t - fst c)))
    as [Hlo Hhi].
  pose proof (arcTrace_length self fuel _ _ dir la HR Hs Hlo Ha) as Hla.
  assert (Harc : INR (length la) * m_pathResolution self
                 <= 2 * PI * m_turningRadius self).
  { replace (INR (length la) * m_pathResolution self)
      with (INR (length la)
            * (m_pathResolution self / m_turningRadius self)
            * m_turningRadius self) by (field; lra).
    apply Rmult_le_compat_r; lra. }
  lra.
Qed.

Lemma path_size_bound_run :
  exists (fuel : nat) (path' : Path R) (w' : World),
    makePath (tf := R_Tf) planner fuel (pose_at 0 0) (pose_at (-10) 3)
      empty_path world0 = Some (true, path', w')
    /\ INR (length (poses path')) * (1 / 20)
       <= 2 * PI * (3 / 2) + dist (-10, 3) (0, 3) + 1 / 20.
Proof.
  destruct run_returns as [n H].
  destruct (H (S n) empty_path world0 (Nat.lt_succ_diag_r n))
    as (path' & w' & E).
  exists (S n), path', w'. split; [exact E|].
  pose proof (path_size_bound (tf := R_Tf) planner (S n) (pose_at 0 0)
                (pose_at (-10) 3) empty_path path' world0 w'
                (proj1 planner_pos) (proj2 planner_pos) E) as F.
  cbn [getYaw R_Tf] in F. rewrite yaw_pose_at in F.
  cbn [pose_at pose position x y] in F. rewrite selectedTangent_run in F.
  exact F.
Defined.

(** *** Parameters that are not validated *)

Lemma arcTrace_never (self : SimpleDubinsPath R) (fuel : nat)
    (startAngle stopAngle : R) (dir : Dir) :
  m_pathResolution self / m_turningRadius self <= 0 ->
  (m_pathResolution self / m_turningRadius self = 0 ->
   startAngle <> stopAngle) ->
  arcTrace self fuel startAngle stopAngle dir = None.
Proof.
  intros Hinc Hne. unfold arcTrace.
  destruct Hinc as [Hneg|Hz].
  - apply (for_trace_never _ _ (fun _ => True)); [|exact I].
    intros i _. split; [|exact I]. unfold arcCond. real.
    apply Rltb_lt. pose proof (Rabs_pos (i - stopAngle)). lra.
  - apply (for_trace_never _ _ (fun i => i <> stopAngle)); [|now apply Hne].
    intros i Hi. unfold arcCond, arcNext. real. rewrite Hz. split.
    + apply Rltb_lt. rewrite Rmult_0_r. apply Rabs_pos_lt. lra.
    + now rewrite Rmult_0_r, Rplus_0_r.
Qed.

(** X13.  The parameters are not validated.  With a positive radius and
    a resolution that is negative or zero, a [makePath] whose target
    passes the reachability test and whose arc loop finds its test true
    at the start angle does not return: the loop variable moves away from
    the stop angle, or not at all.  (With a negative resolution the test
    2 * (s / R) < |i - stop| is true wherever both angles are numbers.) *)
Theorem makePath_hangs {tf : Tf R} (self : SimpleDubinsPath R)
    (start goal : PoseStamped R) :
  let x_q := x (position (pose start)) in
  let y_q := y (position (pose start)) in
  let theta_q := getYaw (orientation (pose start)) in
  let x_n := x (position (pose goal)) in
  let y_n := y (position (pose goal)) in
  let c := turningCenter self x_q y_q theta_q x_n y_n in
  let t := selectedTangent self x_q y_q theta_q x_n y_n in
  let a := arcAngles x_q y_q (fst c) (snd c) (fst t) (snd t)
             (turningDirection x_q y_q theta_q x_n y_n) in
  0 < m_turningRadius self ->
  m_pathResolution self <= 0 ->
  unreachable self x_n y_n (fst c) (snd c) = false ->
  arcCond self (snd a) (fst a) = true ->
  forall (fuel : nat) (path : Path R) (w : World),
    makePath self fuel start goal path w = None.
Proof.
  intros x_q y_q theta_q x_n y_n c t a HR Hs Hu Hc fuel path w.
  assert (Hinv : 0 < / m_turningRadius self) by now apply Rinv_0_lt_compat.
  assert (Hinc : m_pathResolution self / m_turningRadius self <= 0).
  { unfold Rdiv. nra. }
  apply makePath_cut; [exact Hu|]. fold x_q y_q theta_q x_n y_n c t a.
  apply arcTrace_never; [exact Hinc|].
  intros E Ea. unfold arcCond in Hc. real. rewrite E, Ea in Hc.
  apply Rltb_true_iff in Hc.
  replace (snd a - snd a) with 0 in Hc by ring. rewrite Rabs_R0 in Hc. lra.
Qed.

(** A planner whose resolution has the wrong sign. *)
Definition negative_planner : SimpleDubinsPath R :=
  {| m_turningRadius := 3 / 2; m_pathResolution := - (1 / 20) |}.

Lemma makePath_hangs_run :
  makePath (tf := R_Tf) negative_planner 1000 (pose_at 0 0) (pose_at (-10) 3)
    empty_path world0 = None.
Proof.
  assert (Ec : turningCenter negative_planner 0 0 0 (-10) 3 = (0, 3 / 2)).
  { unfold turningCenter, pow2. real.
    cbn [negative_planner m_turningRadius].
    rewrite sin_0, cos_0. rewrite Rltb_ge by lra. f_equal; lra. }
  apply (makePath_hangs (tf := R_Tf) negative_planner (pose_at 0 0)
           (pose_at (-10) 3)).
  - cbn [negative_planner m_turningRadius]. lra.
  - cbn [negative_planner m_pathResolution]. lra.
  - cbn [getYaw R_Tf]. rewrite yaw_pose_at.
    cbn [pose_at pose position x y]. rewrite Ec. cbn [fst snd].
    apply unreachable_ge. unfold dist.
    cbn [negative_planner m_turningRadius fst snd]. apply sqrt_ge; lra.
  - unfold arcCond. real. apply Rltb_lt.
    cbn [negative_planner m_turningRadius m_pathResolution].
    eapply Rlt_le_trans; [|apply Rabs_pos]. lra.
Defined.

(** ** The constructor *)

Section Construction.
Context {D : Type} {dbl : Double D}.
Local Open Scope double_scope.





End Construction.



